(** * Neurodamus: connection index and synapse-parameter readers

  A shallow embedding of [neurodamus/connection_manager.py] and
  [neurodamus/io/synapse_reader.py].

  Python objects that are mutated through several names (Connection
  objects, the bucket lists of the two ordered dictionaries) live in an
  explicit store; Python exceptions and the [logging] calls are part of
  the result of every operation. *)

From Stdlib Require Import ZArith Floats Uint63 Lia Ascii String.
From stdpp Require Import base tactics option list strings sorting.

Set Default Proof Using "Type".
Set Warnings "-inexact-float".
Local Open Scope Z_scope.

(** ** The Python runtime the two modules rely on *)

Module python.

(** The exception classes the embedded code can raise. *)
Inductive Exn :=
| IndexError | KeyError | TypeError | ValueError
| AttributeError | RuntimeError | OverflowError.

(** [logging] levels and records: a record keeps the format string and
    the integer arguments passed to it. *)
Inductive Level := DEBUG | VERBOSE | INFO | WARNING | ERROR.

Record LogRecord := Log { log_level : Level; log_msg : string; log_args : list Z }.

(** The outcome of running a piece of Python on a state of type [S]:
    a value and the new state, an exception (the state as the raise left
    it), or the loop bound of the model exhausted. *)
Inductive Outcome (S A : Type) : Type :=
| Ret (a : A) (s : S)
| Raise (e : Exn) (s : S)
| OutOfFuel.
Arguments Ret {S A} a s.
Arguments Raise {S A} e s.
Arguments OutOfFuel {S A}.

Definition Py (S A : Type) : Type := S → Outcome S A.

Definition py_ret {S A} (a : A) : Py S A := λ s, Ret a s.

Definition py_bind {S A B} (m : Py S A) (f : A → Py S B) : Py S B :=
  λ s, match m s with
       | Ret a s' => f a s'
       | Raise e s' => Raise e s'
       | OutOfFuel => OutOfFuel
       end.

Definition raise {S A} (e : Exn) : Py S A := λ s, Raise e s.
Definition get_state {S} : Py S S := λ s, Ret s s.
Definition put_state {S} (s : S) : Py S unit := λ _, Ret tt s.
Definition modify {S} (f : S → S) : Py S unit := λ s, Ret tt (f s).

(** [l[i]]: IndexError outside the list (indices are never negative in
    the embedded code). *)
Definition getitem {S A} (l : list A) (i : nat) : Py S A :=
  match l !! i with
  | Some x => py_ret x
  | None => raise IndexError
  end.

(** [l.insert(pos, x)]: Python clamps a position past the end. *)
Definition list_insert_at {A} (pos : nat) (x : A) (l : list A) : list A :=
  take pos l ++ x :: drop pos l.

(** [del l[i]] and [l.pop(i)]: IndexError outside the list. *)
Definition list_pop {A} (i : nat) (l : list A) : option (A * list A) :=
  match l !! i with
  | Some x => Some (x, delete i l)
  | None => None
  end.

(** Python values of the types the embedded code mixes at run time. *)
Inductive PyVal :=
| PyInt (n : Z)
| PyFloat (x : float)
| PyStr (s : string).

(** [str.isspace] on one character, which decides where [s.split()]
    cuts.  A character of a [str] is given by its code point, below 256
    in a [string]: tab, line feed, vertical tab, form feed and carriage
    return (9 to 13), the file, group, record and unit separators (28 to
    31), space (32), next line (133) and the no-break space (160). *)
Definition is_space (a : ascii) : bool :=
  let n := nat_of_ascii a in
  bool_decide ((9 ≤ n ∧ n ≤ 13) ∨ (28 ≤ n ∧ n ≤ 31) ∨ n = 32 ∨ n = 133 ∨ n = 160)%nat.

(** [s.split()]: the maximal runs of characters that are not white
    space ([s.strip().split()] yields the same list). *)
Fixpoint split_words (s : string) (word : option string) : list string :=
  match s with
  | EmptyString => option_list word
  | String a s' =>
      if is_space a then option_list word ++ split_words s' None
      else split_words s' (Some (default EmptyString word +:+ String a EmptyString))
  end.

Definition str_split (s : string) : list string := split_words s None.

(** [n * s] for a string [s]. *)
Definition str_repeat (n : Z) (s : string) : string :=
  Nat.iter (Z.to_nat n) (λ acc, s +:+ acc) EmptyString.

End python.
Export python.

#[global] Instance Py_ret {S} : MRet (Py S) := λ A, @py_ret S A.
#[global] Instance Py_bind {S} : MBind (Py S) := λ A B f m, @py_bind S A B m f.

(** ** [neurodamus.utils]: the helpers the manager imports *)

Module utils.

(** Modelled from the spec: [utils.bin_search] is imported by
    [connection_manager.py] but is not among the sources.  The spec
    (4.2, [find]) describes a binary search within the ordered bucket
    by source id whose result "is always the correct insertion point
    (even past the end)"; [store_connection] compares the element at
    that position with the key, so the position is the leftmost one. *)
Fixpoint bin_search_loop {A} (fuel : nat) (container : list A) (key : Z)
    (keyf : A → Z) (low high : nat) : nat :=
  match fuel with
  | O => low
  | S fuel' =>
      if bool_decide (low < high)%nat then
        let mid := ((low + high) / 2)%nat in
        match container !! mid with
        | Some x =>
            if bool_decide (keyf x < key)
            then bin_search_loop fuel' container key keyf (S mid) high
            else bin_search_loop fuel' container key keyf low mid
        | None => low
        end
      else low
  end.

Definition bin_search {A} (container : list A) (key : Z) (keyf : A → Z) : nat :=
  bin_search_loop (length container) container key keyf 0 (length container).

(** A container is in order when its keys are strictly ascending. *)
Definition ascending {A} (keyf : A → Z) (l : list A) : Prop :=
  StronglySorted Z.lt (keyf <$> l).

(** Modelled from the spec: [utils.OrderedDefaultDict] is imported by
    [connection_manager.py] but is not among the sources.  The spec
    (4.2) has one bucket per destination, traversed "in their stored
    (insertion) order".  It is an ordered dictionary from gids to
    buckets (lists) whose [__getitem__] on a missing key stores and
    returns a fresh empty list; the manager relies on exactly that:
    [self._disabled_conns[tgid].append(c)] and the first
    [store_connection] into a bucket only work if the looked-up list
    is the one kept in the dictionary. *)
Definition OrderedDefaultDict (V : Type) : Type := list (Z * list V).

Fixpoint od_lookup {V} (d : OrderedDefaultDict V) (k : Z) : option (list V) :=
  match d with
  | [] => None
  | (k', b) :: d' => if bool_decide (k' = k) then Some b else od_lookup d' k
  end.

(** [d[k]]: the bucket, and the dictionary after [__missing__] ran. *)
Definition od_getitem {V} (d : OrderedDefaultDict V) (k : Z)
    : list V * OrderedDefaultDict V :=
  match od_lookup d k with
  | Some b => (b, d)
  | None => ([], d ++ [(k, [])])
  end.

(** In-place mutation of the list stored under [k]. *)
Fixpoint od_update {V} (d : OrderedDefaultDict V) (k : Z) (b : list V)
    : OrderedDefaultDict V :=
  match d with
  | [] => []
  | (k', b') :: d' =>
      if bool_decide (k' = k) then (k', b) :: d' else (k', b') :: od_update d' k b
  end.

Definition od_keys {V} (d : OrderedDefaultDict V) : list Z := d.*1.
Definition od_values {V} (d : OrderedDefaultDict V) : list (list V) := d.*2.

End utils.
Export utils.


(** ** Python floats: IEEE 754 binary64, as [float] and numpy's [f8] *)

Module pyfloat.

(** Truncation toward zero of a finite float. *)
Definition trunc (x : float) : option Z :=
  match Prim2SF x with
  | S754_zero _ => Some 0
  | S754_finite s m e =>
      let mag := if bool_decide (0 ≤ e) then Z.shiftl (Z.pos m) e
                 else Z.shiftr (Z.pos m) (- e) in
      Some (if s then - mag else mag)
  | S754_infinity _ | S754_nan => None
  end.

(** [int(x)]: truncation toward zero; ValueError on NaN, OverflowError
    on an infinity. *)
Definition int_of_float (x : float) : Exn + Z :=
  match trunc x with
  | Some n => inr n
  | None => inl (if PrimFloat.is_nan x then ValueError else OverflowError)
  end.

(** The float an integer converts to (round to nearest, ties to even),
    as in [int * float]. *)
Definition float_of_int (n : Z) : float :=
  SF2Prim (binary_normalize prec emax n 0 false).

(** numpy's [astype('i4')] on an [f8]: the C cast to a 32-bit integer.
    In range it truncates toward zero; out of range and on NaN the x86
    conversion yields the smallest 32-bit integer. *)
Definition astype_i4 (x : float) : Z :=
  match trunc x with
  | Some n => if bool_decide (- 2 ^ 31 ≤ n < 2 ^ 31) then n else - 2 ^ 31
  | None => - 2 ^ 31
  end.


(** [a * b] *)
Definition py_mul (a b : PyVal) : Exn + PyVal :=
  match a, b with
  | PyInt m, PyInt n => inr (PyInt (m * n))
  | PyInt m, PyFloat y => inr (PyFloat (float_of_int m * y))
  | PyFloat x, PyInt n => inr (PyFloat (x * float_of_int n))
  | PyFloat x, PyFloat y => inr (PyFloat (x * y))
  | PyInt n, PyStr s | PyStr s, PyInt n => inr (PyStr (str_repeat n s))
  | _, _ => inl TypeError
  end.

(** [a + b], also behind [a += b] on these immutable types. *)
Definition py_add (a b : PyVal) : Exn + PyVal :=
  match a, b with
  | PyInt m, PyInt n => inr (PyInt (m + n))
  | PyInt m, PyFloat y => inr (PyFloat (float_of_int m + y))
  | PyFloat x, PyInt n => inr (PyFloat (x + float_of_int n))
  | PyFloat x, PyFloat y => inr (PyFloat (x + y))
  | PyStr s, PyStr t => inr (PyStr (s +:+ t))
  | _, _ => inl TypeError
  end.

(** The value appended to a vector of doubles ([compat.Vector("d")]). *)
Definition as_double (a : PyVal) : Exn + float :=
  match a with
  | PyInt n => inr (float_of_int n)
  | PyFloat x => inr x
  | PyStr _ => inl TypeError
  end.

End pyfloat.
Export pyfloat.


(** ** [neurodamus/connection_manager.py] *)

Module connection_manager.

Inductive STDPMode := NO_STDP | STDP_ON.
Inductive SynapseMode := AmpaOnly | DualSyns.

(** A row of synapse parameters as [get_synapse_parameters] fills it,
    [params[0]] to [params[11]]. *)
Record SynapseParameters := mkSynapseParameters {
  sp_sgid : float; sp_delay : float; sp_isec : float; sp_ipt : float;
  sp_offset : float; sp_weight : float; sp_U : float; sp_D : float;
  sp_F : float; sp_DTC : float; sp_synType : float; sp_nrrp : float }.

(** [target_manager.locationToPoint] belongs to an external collaborator:
    a point is represented by the arguments of the call that made it. *)
Record Point := locationToPoint {
  pt_gid : Z; pt_isec : float; pt_ipt : float; pt_offset : float }.

(** Modelled from the spec: class [Connection] (module [connection]) is
    not among the sources.  The spec's data model gives its attributes:
    the identifying pair, the weight factor, the pharmacology
    configuration strings, the STDP mode, the spontaneous rate, the
    ordered synapse placements (point, parameter row, index of the row),
    the disabled flag and the optional override.  [add_synapse] appends a
    placement; [disable] and [enable] set and clear the flag (their
    effect on simulator objects is outside the index). *)
Record Connection := mkConnection {
  sgid : Z;
  tgid : Z;
  weight_factor : float;
  configuration : list string;
  stdp : option STDPMode;
  minis_spont_rate : float;
  synapse_mode : SynapseMode;
  synapse_override : option string;
  synapse_params : list (Point * SynapseParameters * nat);
  disabled : bool }.

Definition Connection_init (sg tg : Z) (weight_factor : float)
    (configuration : option string) (stdp : option STDPMode)
    (minis_spont_rate : float) (mode : SynapseMode)
    (synapse_override : option string) : Connection :=
  {| sgid := sg; tgid := tg; weight_factor := weight_factor;
     configuration := option_list configuration; stdp := stdp;
     minis_spont_rate := minis_spont_rate; synapse_mode := mode;
     synapse_override := synapse_override; synapse_params := [];
     disabled := false |}.

Definition Connection_add_synapse (point : Point) (params : SynapseParameters)
    (syn_id : nat) (c : Connection) : Connection :=
  {| sgid := sgid c; tgid := tgid c; weight_factor := weight_factor c;
     configuration := configuration c; stdp := stdp c;
     minis_spont_rate := minis_spont_rate c; synapse_mode := synapse_mode c;
     synapse_override := synapse_override c;
     synapse_params := synapse_params c ++ [(point, params, syn_id)];
     disabled := disabled c |}.

Definition Connection_set_disabled (b : bool) (c : Connection) : Connection :=
  {| sgid := sgid c; tgid := tgid c; weight_factor := weight_factor c;
     configuration := configuration c; stdp := stdp c;
     minis_spont_rate := minis_spont_rate c; synapse_mode := synapse_mode c;
     synapse_override := synapse_override c;
     synapse_params := synapse_params c;
     disabled := b |}.

(** Connection objects are shared: the index holds references into a
    store of objects, addressed by position. *)
Abbreviation Addr := nat.

(** The external [HDF5Reader] hoc object, by the calls the manager makes
    on it.  The dataset of a cell is named ["a%d" % gid]: it is given by
    the gid here.  [loadData] is called with the gid or with the name. *)
Record HDF5Reader := mkHDF5Reader {
  checkVersion : Z;
  loadData_gid : Z → Z;
  loadData_name : Z → Z;
  numberofrows : Z → nat;
  getData : Z → nat → nat → float }.

(** What the manager reads and never writes: the reader it opened, the
    number of synapse files, the version [checkVersion] reported, the
    integration step [ND.dt] and the content of a row of a fresh array. *)
Record Env := mkEnv {
  _synapse_reader : HDF5Reader;
  _n_synapse_files : Z;
  _nrn_version : Z;
  dt : float;
  fresh_row : SynapseParameters }.

(** A manager together with the objects it refers to and the log. *)
Record State := mkState {
  heap : list Connection;
  _connections_map : OrderedDefaultDict Addr;
  _disabled_conns : OrderedDefaultDict Addr;
  _syn_params : list (Z * list SynapseParameters);
  _circuit_target : option (Z → bool);
  _synapse_mode : SynapseMode;
  logs : list LogRecord }.

(** [_ConnectionManagerBase.__init__], once the synapse file is open. *)
Definition empty_manager (objects : list Connection) : State :=
  {| heap := objects; _connections_map := []; _disabled_conns := [];
     _syn_params := []; _circuit_target := None; _synapse_mode := DualSyns;
     logs := [] |}.

Definition set_heap (h : list Connection) (s : State) : State :=
  {| heap := h; _connections_map := _connections_map s;
     _disabled_conns := _disabled_conns s; _syn_params := _syn_params s;
     _circuit_target := _circuit_target s; _synapse_mode := _synapse_mode s;
     logs := logs s |}.

Definition set_logs (l : list LogRecord) (s : State) : State :=
  {| heap := heap s; _connections_map := _connections_map s;
     _disabled_conns := _disabled_conns s; _syn_params := _syn_params s;
     _circuit_target := _circuit_target s; _synapse_mode := _synapse_mode s;
     logs := l |}.

Definition set_syn_params (c : list (Z * list SynapseParameters)) (s : State) : State :=
  {| heap := heap s; _connections_map := _connections_map s;
     _disabled_conns := _disabled_conns s; _syn_params := c;
     _circuit_target := _circuit_target s; _synapse_mode := _synapse_mode s;
     logs := logs s |}.

(** The two indices: [self._connections_map] and [self._disabled_conns]. *)
Inductive Index := Active | Disabled.

Definition conn_map (w : Index) (s : State) : OrderedDefaultDict Addr :=
  match w with Active => _connections_map s | Disabled => _disabled_conns s end.

Definition set_conn_map (w : Index) (d : OrderedDefaultDict Addr) (s : State) : State :=
  match w with
  | Active =>
      {| heap := heap s; _connections_map := d;
         _disabled_conns := _disabled_conns s; _syn_params := _syn_params s;
         _circuit_target := _circuit_target s; _synapse_mode := _synapse_mode s;
         logs := logs s |}
  | Disabled =>
      {| heap := heap s; _connections_map := _connections_map s;
         _disabled_conns := d; _syn_params := _syn_params s;
         _circuit_target := _circuit_target s; _synapse_mode := _synapse_mode s;
         logs := logs s |}
  end.

Definition null_connection : Connection :=
  Connection_init 0 0 0%float None None 0%float DualSyns None.

(** Reading an object through a reference. *)
Definition deref (s : State) (a : Addr) : Connection :=
  default null_connection (heap s !! a).

(** [logging.<level>(msg, *args)] *)
Definition logging (lvl : Level) (msg : string) (args : list Z) : Py State unit :=
  modify (λ s, set_logs (logs s ++ [Log lvl msg args]) s).

(** [conn_map[tgid]]: the bucket; a missing key gets a fresh empty one. *)
Definition map_getitem (w : Index) (tg : Z) : Py State (list Addr) :=
  λ s, let '(b, d) := od_getitem (conn_map w s) tg in Ret b (set_conn_map w d s).

(** The present content of a bucket list already held by the map. *)
Definition bucket (w : Index) (tg : Z) (s : State) : list Addr :=
  default [] (od_lookup (conn_map w s) tg).

(** Mutation of the bucket list of [tg] in place. *)
Definition bucket_assign (w : Index) (tg : Z) (b : list Addr) : Py State unit :=
  modify (λ s, set_conn_map w (od_update (conn_map w s) tg b) s).

(** [del lst[idx]] on the bucket list of [tg]. *)
Definition bucket_del (w : Index) (tg : Z) (idx : nat) : Py State unit :=
  s ← get_state;
  match list_pop idx (bucket w tg s) with
  | Some (_, l) => bucket_assign w tg l
  | None => raise IndexError
  end.

(** [lst.pop(idx)] on the bucket list of [tg]. *)
Definition bucket_pop (w : Index) (tg : Z) (idx : nat) : Py State Addr :=
  s ← get_state;
  match list_pop idx (bucket w tg s) with
  | Some (c, l) => bucket_assign w tg l;; mret c
  | None => raise IndexError
  end.

(** [lst.append(c)] on the bucket list of [tg]. *)
Definition bucket_append (w : Index) (tg : Z) (c : Addr) : Py State unit :=
  s ← get_state; bucket_assign w tg (bucket w tg s ++ [c]).

(** Calling a method that mutates the Connection object at [a]. *)
Definition call_method (a : Addr) (f : Connection → Connection) : Py State unit :=
  modify (λ s, set_heap (alter f a (heap s)) s).

(** [Connection(...)]: a new object. *)
Definition new_connection (c : Connection) : Py State Addr :=
  λ s, Ret (length (heap s)) (set_heap (heap s ++ [c]) s).

(** [_find_connection]: the bucket list (its content now; the list itself
    is the one of [tg]) and the index. *)
Definition _find_connection (sg tg : Z) (exact : bool)
    : Py State (list Addr * option nat) :=
  cell_conns ← map_getitem Active tg;
  s ← get_state;
  let pos := if bool_decide (cell_conns = []) then 0%nat
             else bin_search cell_conns sg (λ x, sgid (deref s x)) in
  if exact then
    if bool_decide (pos = length cell_conns) then mret (cell_conns, None)
    else
      c ← getitem cell_conns pos;
      if bool_decide (sgid (deref s c) ≠ sg) then mret (cell_conns, None)
      else mret (cell_conns, Some pos)
  else mret (cell_conns, Some pos).

Definition get_connection (sg tg : Z) : Py State (option Addr) :=
  '(conn_lst, idx) ← _find_connection sg tg true;
  match idx with
  | None => mret None
  | Some idx => c ← getitem conn_lst idx; mret (Some c)
  end.

Definition store_connection (conn : Addr) : Py State unit :=
  s ← get_state;
  let c := deref s conn in
  '(cell_conns, pos) ← _find_connection (sgid c) (tgid c) false;
  match pos with
  | None => raise TypeError
  | Some pos =>
      exists_ ←
        (if bool_decide (pos < length cell_conns)%nat then
           x ← getitem cell_conns pos;
           mret (bool_decide (sgid (deref s x) = sgid c))
         else mret false);
      if exists_ : bool then
        logging ERROR "Attempt to store existing connection: %d->%d" [sgid c; tgid c]
      else
        bucket_assign Active (tgid c) (list_insert_at pos conn cell_conns)
  end.

(** [chain.from_iterable(self._connections_map.values())] *)
Definition all_connections (s : State) : list Addr :=
  concat (od_values (_connections_map s)).

Definition all_disabled (s : State) : list Addr :=
  concat (od_values (_disabled_conns s)).

Definition get_connections (target_gid : Z) : Py State (list Addr) :=
  map_getitem Active target_gid.

(** [chain.from_iterable(c.synapse_params for c in conns)], read out. *)
Definition get_synapse_params_gid (target_gid : Z)
    : Py State (list (Point * SynapseParameters * nat)) :=
  conns ← map_getitem Active target_gid;
  s ← get_state;
  mret (concat ((λ c, synapse_params (deref s c)) <$> conns)).

Definition get_disabled (post_gid : Z) : Py State (list Addr) :=
  map_getitem Disabled post_gid.

Definition delete (sg tg : Z) : Py State unit :=
  '(conn_lst, idx) ← _find_connection sg tg true;
  match idx with
  | None => logging WARNING "Non-existing connection to disable: %d->%d" [sg; tg]
  | Some idx => bucket_del Active tg idx
  end.

Definition disable (sg tg : Z) (also_zero_conductance : bool) : Py State unit :=
  '(conn_lst, idx) ← _find_connection sg tg true;
  match idx with
  | None => logging WARNING "Non-existing connection to disable: %d->%d" [sg; tg]
  | Some idx =>
      c ← bucket_pop Active tg idx;
      map_getitem Disabled tg;;
      bucket_append Disabled tg c;;
      call_method c (Connection_set_disabled true)
  end.

(** The [for ... else] of [enable]: the body leaves the loop right after
    it changed the list, so the loop runs over the list as it found it. *)
Fixpoint enable_loop (sg tg : Z) (i : nat) (rest : list Addr) : Py State unit :=
  match rest with
  | [] => logging WARNING "Non-existing connection to enable: %d->%d" [sg; tg]
  | c :: rest' =>
      s ← get_state;
      if bool_decide (sgid (deref s c) = sg) then
        store_connection c;;
        bucket_del Disabled tg i;;
        call_method c (Connection_set_disabled false)
      else enable_loop sg tg (S i) rest'
  end.

Definition enable (sg tg : Z) : Py State unit :=
  tgid_conns ← map_getitem Disabled tg;
  enable_loop sg tg 0 tgid_conns.

(** [x in gids] for an optional filter; [None] matches every gid. *)
Definition matches (gids : option (list Z)) (x : Z) : bool :=
  match gids with
  | None => true
  | Some l => bool_decide (x ∈ l)
  end.

(** The generator [_find_group_in] together with the loop that consumes
    it.  The generator is lazy: [body] runs between two steps of
    [enumerate(conns)], on the very list the generator walks.  A list
    iterator keeps an index and stops when the index reaches the present
    length of the list, so each step reads the bucket as it is then.
    [fuel] bounds the number of steps. *)
Fixpoint _find_group_in_conns (fuel : nat) (w : Index) (tg : Z)
    (pre_gids : option (list Z)) (body : Addr → Z → nat → Py State unit)
    (i : nat) : Py State unit :=
  match fuel with
  | O => λ _, OutOfFuel
  | S fuel' =>
      s ← get_state;
      match bucket w tg s !! i with
      | None => mret tt
      | Some c =>
          (if matches pre_gids (sgid (deref s c)) then body c tg i else mret tt);;
          _find_group_in_conns fuel' w tg pre_gids body (S i)
      end
  end.

(** The outer loop over [conn_map.items()]; no body adds a key to the
    dictionary being walked, so its keys are those found at the start. *)
Fixpoint _find_group_in_items (w : Index) (items : list Z)
    (post_gids pre_gids : option (list Z))
    (body : Addr → Z → nat → Py State unit) : Py State unit :=
  match items with
  | [] => mret tt
  | tg :: items' =>
      (if matches post_gids tg then
         s ← get_state;
         _find_group_in_conns (S (length (bucket w tg s))) w tg pre_gids body 0
       else mret tt);;
      _find_group_in_items w items' post_gids pre_gids body
  end.

Definition _find_group_in (w : Index) (post_gids pre_gids : option (list Z))
    (body : Addr → Z → nat → Py State unit) : Py State unit :=
  s ← get_state;
  _find_group_in_items w (od_keys (conn_map w s)) post_gids pre_gids body.

Definition delete_group (post_gids pre_gids : option (list Z)) : Py State unit :=
  _find_group_in Active post_gids pre_gids
    (λ _ lst idx, bucket_del Active lst idx).

Definition disable_group (post_gids pre_gids : option (list Z))
    (also_zero_conductance : bool) : Py State unit :=
  _find_group_in Active post_gids pre_gids
    (λ conn lst idx,
       s ← get_state;
       let tg := tgid (deref s conn) in
       map_getitem Disabled tg;;
       c ← bucket_pop Active lst idx;
       bucket_append Disabled tg c;;
       call_method conn (Connection_set_disabled true)).

Definition enable_group (post_gids pre_gids : option (list Z)) : Py State unit :=
  _find_group_in Disabled post_gids pre_gids
    (λ conn lst idx,
       c ← bucket_pop Disabled lst idx;
       store_connection c;;
       call_method conn (Connection_set_disabled false)).

(** One pass of the row loop of [get_synapse_parameters]. *)
Definition read_row (env : Env) (gid : Z) (i : nat) : SynapseParameters :=
  let reader := _synapse_reader env in
  {| sp_sgid := getData reader gid i 0;
     sp_delay := getData reader gid i 1;
     sp_isec := getData reader gid i 2;
     sp_ipt := getData reader gid i 3;
     sp_offset := getData reader gid i 4;
     sp_weight := getData reader gid i 8;
     sp_U := getData reader gid i 9;
     sp_D := getData reader gid i 10;
     sp_F := getData reader gid i 11;
     sp_DTC := getData reader gid i 12;
     sp_synType := getData reader gid i 13;
     sp_nrrp := if bool_decide (_nrn_version env > 4) then getData reader gid i 17
                else (-1)%float |}.

Definition set_delay (d : float) (p : SynapseParameters) : SynapseParameters :=
  {| sp_sgid := sp_sgid p; sp_delay := d; sp_isec := sp_isec p;
     sp_ipt := sp_ipt p; sp_offset := sp_offset p; sp_weight := sp_weight p;
     sp_U := sp_U p; sp_D := sp_D p; sp_F := sp_F p; sp_DTC := sp_DTC p;
     sp_synType := sp_synType p; sp_nrrp := sp_nrrp p |}.

(** [params[1] = int(params[1] / dt + 1e-5) * dt] *)
Definition patch_delay (dt : float) (p : SynapseParameters) : Exn + SynapseParameters :=
  match int_of_float (sp_delay p / dt + 1e-5)%float with
  | inl e => inl e
  | inr n => inr (set_delay (float_of_int n * dt)%float p)
  end.

(** [for i in range(nrow)]: the rows are written into the array that the
    cache already holds, so a raise leaves the rows filled so far. *)
Fixpoint fill_rows (env : Env) (gid : Z) (range : list nat)
    (arr : list SynapseParameters) : Exn * list SynapseParameters + list SynapseParameters :=
  match range with
  | [] => inr arr
  | i :: range' =>
      let params := read_row env gid i in
      match patch_delay (dt env) params with
      | inl e => inl (e, <[i := params]> arr)
      | inr params' => fill_rows env gid range' (<[i := params']> arr)
      end
  end.

Fixpoint dict_get {V} (d : list (Z * V)) (k : Z) : option V :=
  match d with
  | [] => None
  | (k', v) :: d' => if bool_decide (k' = k) then Some v else dict_get d' k
  end.

Fixpoint dict_set {V} (d : list (Z * V)) (k : Z) (v : V) : list (Z * V) :=
  match d with
  | [] => [(k, v)]
  | (k', v') :: d' =>
      if bool_decide (k' = k) then (k', v) :: d' else (k', v') :: dict_set d' k v
  end.

Definition cache_assign (gid : Z) (rows : list SynapseParameters) : Py State unit :=
  modify (λ s, set_syn_params (dict_set (_syn_params s) gid rows) s).

Definition get_synapse_parameters (env : Env) (gid : Z)
    : Py State (list SynapseParameters) :=
  s ← get_state;
  match dict_get (_syn_params s) gid with
  | Some cached => mret cached
  | None =>
      let reader := _synapse_reader env in
      let ret := if bool_decide (_n_synapse_files env > 1)
                 then loadData_gid reader gid else loadData_name reader gid in
      if bool_decide (ret < 0) then
        logging DEBUG "No synapses for post-gid %d. Skipping" [gid];;
        cache_assign gid [];;
        mret []
      else
        let nrow := numberofrows reader gid in
        match fill_rows env gid (seq 0 nrow) (replicate nrow (fresh_row env)) with
        | inl (e, arr) => cache_assign gid arr;; raise e
        | inr arr => cache_assign gid arr;; mret arr
        end
  end.

(** The body of the row loop of [connect_all] for a row that is not
    skipped: [sg] is [int(syn_params.sgid)]; the result is the new value
    of [cur_conn] and of [gid_created_conns]. *)
Definition connect_row (tg : Z) (weight_factor : float) (i : nat) (sg : Z)
    (syn_params : SynapseParameters) (cur_conn : option Addr)
    (gid_created_conns : Z) : Py State (Addr * Z) :=
  s ← get_state;
  let fresh := match cur_conn with
               | None => true
               | Some c => bool_decide (sgid (deref s c) ≠ sg)
               end in
  '(cur_conn', created) ←
    (if fresh then
       c ← new_connection
             (Connection_init sg tg weight_factor None (Some NO_STDP)
                0%float (_synapse_mode s) None);
       store_connection c;;
       mret (c, gid_created_conns + 1)
     else mret (default 0%nat cur_conn, gid_created_conns));
  let point := locationToPoint tg (sp_isec syn_params) (sp_ipt syn_params)
                 (sp_offset syn_params) in
  call_method cur_conn' (Connection_add_synapse point syn_params i);;
  mret (cur_conn', created).

(** The row loop of [connect_all] for one post-gid: [cur_conn] and
    [gid_created_conns] are its local variables. *)
Fixpoint connect_all_rows (tg : Z) (weight_factor : float) (i : nat)
    (rows : list SynapseParameters) (cur_conn : option Addr)
    (gid_created_conns : Z) : Py State Z :=
  match rows with
  | [] => mret gid_created_conns
  | syn_params :: rows' =>
      match int_of_float (sp_sgid syn_params) with
      | inl e => raise e
      | inr sg =>
          s ← get_state;
          let skip := match _circuit_target s with
                      | Some completeContains => negb (completeContains sg)
                      | None => false
                      end in
          if skip then
            connect_all_rows tg weight_factor (S i) rows' cur_conn gid_created_conns
          else
            '(cur_conn', created) ←
              connect_row tg weight_factor i sg syn_params cur_conn gid_created_conns;
            connect_all_rows tg weight_factor (S i) rows' (Some cur_conn') created
      end
  end.



(** *** States of the index *)

(** The key of the binary search: [lambda x: x.sgid]. *)
Definition key_of (s : State) (a : Addr) : Z := sgid (deref s a).

(** The pair (sg, tg) is present in an index. *)
Definition present (w : Index) (s : State) (sg tg : Z) : Prop :=
  ∃ a, a ∈ bucket w tg s ∧ key_of s a = sg.

(** Every connection of a bucket has the bucket's gid as its [tgid]. *)
Definition consistent (s : State) (d : OrderedDefaultDict Addr) : Prop :=
  Forall (λ e, Forall (λ a, tgid (deref s a) = e.1) e.2) d.

(** The state of a manager is well formed when no gid has two buckets,
    the buckets of the active index are in ascending order of [sgid],
    and every connection sits in the bucket of its [tgid]. *)
Record well_formed (s : State) : Prop := mk_well_formed {
  wf_keys_active : NoDup (od_keys (_connections_map s));
  wf_keys_disabled : NoDup (od_keys (_disabled_conns s));
  wf_ascending : Forall (λ e, ascending (key_of s) e.2) (_connections_map s);
  wf_consistent_active : consistent s (_connections_map s);
  wf_consistent_disabled : consistent s (_disabled_conns s) }.

(** A sequence of [store_connection] calls. *)
Fixpoint store_all (conns : list Addr) : Py State unit :=
  match conns with
  | [] => mret tt
  | conn :: conns' => store_connection conn;; store_all conns'
  end.

(** The state after [d[tg]] was evaluated on index [w]. *)
Definition touched (w : Index) (tg : Z) (s : State) : State :=
  set_conn_map w (od_getitem (conn_map w s) tg).2 s.

(** The insertion point [_find_connection] computes in a bucket. *)
Definition position (s : State) (sg tg : Z) : nat :=
  bin_search (bucket Active tg s) sg (key_of s).

(** The index an exact search reports. *)
Definition exact_index (s : State) (sg tg : Z) : option nat :=
  match bucket Active tg s !! position s sg tg with
  | Some c => if bool_decide (key_of s c = sg) then Some (position s sg tg) else None
  | None => None
  end.

(** The state [store_connection] leaves when it inserts [conn]. *)
Definition stored (conn : Addr) (s : State) : State :=
  let tg := tgid (deref s conn) in
  set_conn_map Active
    (od_update (od_getitem (_connections_map s) tg).2 tg
       (list_insert_at (position s (key_of s conn) tg) conn (bucket Active tg s)))
    s.

(** The state after the bucket list of [tg] was given the content [b]. *)
Definition with_bucket (w : Index) (tg : Z) (b : list Addr) (s : State) : State :=
  set_conn_map w (od_update (conn_map w s) tg b) s.

(** The state after a method changed the object at [a]. *)
Definition with_object (a : Addr) (f : Connection → Connection) (s : State) : State :=
  set_heap (alter f a (heap s)) s.

(** A method that leaves the identifying pair of the object alone. *)
Definition preserves_ids (f : Connection → Connection) : Prop :=
  ∀ c, sgid (f c) = sgid c ∧ tgid (f c) = tgid c.

(** The state after a new object was made. *)
Definition allocated (c : Connection) (s : State) : State :=
  set_heap (heap s ++ [c]) s.

(** Every reference held by the two indices points to an object. *)
Definition closed (s : State) : Prop :=
  ∀ w, Forall (λ e, Forall (λ a, (a < length (heap s))%nat) e.2) (conn_map w s).

(** The rows the loop of [connect_all] does not skip, each with its
    index and its source id; an exception if a source id is no integer. *)
Fixpoint kept_rows (target : option (Z → bool)) (i : nat)
    (rows : list SynapseParameters) : Exn + list (nat * Z * SynapseParameters) :=
  match rows with
  | [] => inr []
  | syn_params :: rows' =>
      match int_of_float (sp_sgid syn_params) with
      | inl e => inl e
      | inr sg =>
          let skip := match target with
                      | Some completeContains => negb (completeContains sg)
                      | None => false
                      end in
          match kept_rows target (S i) rows' with
          | inl e => inl e
          | inr k => inr (if skip then k else (i, sg, syn_params) :: k)
          end
      end
  end.

(** The placement [connect_all] appends for a row of post-gid [tg]. *)
Definition placement (tg : Z) (e : nat * Z * SynapseParameters)
    : Point * SynapseParameters * nat :=
  (locationToPoint tg (sp_isec e.2) (sp_ipt e.2) (sp_offset e.2), e.2, e.1.1).

(** [cur_conn.add_synapse(point, syn_params, i)] for such a row. *)
Definition add_placement (tg : Z) (e : nat * Z * SynapseParameters)
    : Connection → Connection :=
  Connection_add_synapse
    (locationToPoint tg (sp_isec e.2) (sp_ipt e.2) (sp_offset e.2)) e.2 e.1.1.

(** The row loop of [connect_all] over the rows it does not skip; it
    also returns the last value of [cur_conn]. *)
Fixpoint connect_kept (tg : Z) (weight_factor : float)
    (krows : list (nat * Z * SynapseParameters)) (cur_conn : option Addr)
    (gid_created_conns : Z) : Py State (option Addr * Z) :=
  match krows with
  | [] => mret (cur_conn, gid_created_conns)
  | (i, sg, syn_params) :: krows' =>
      '(cur_conn', created) ←
        connect_row tg weight_factor i sg syn_params cur_conn gid_created_conns;
      connect_kept tg weight_factor krows' (Some cur_conn') created
  end.




(** How the row loop of post-gid [tg] may have changed a state [s] into
    [s'] while it went through rows of source ids [sgs], [cur] and
    [cur'] being [cur_conn] before and after: the state stays well
    formed; objects are only added; an older object is changed only if
    it was the current connection at the start, and never in its
    identifying pair; buckets only gain connections, all of them new
    objects of a source id among [sgs], in the bucket of [tg]; the log
    only grows. *)
Record grows (tg : Z) (cur : option Addr) (sgs : list Z) (s : State)
    (cur' : option Addr) (s' : State) : Prop := mk_grows {
  g_wf : well_formed s';
  g_closed : closed s';
  g_target : _circuit_target s' = _circuit_target s;
  g_heap : (length (heap s) ≤ length (heap s'))%nat;
  g_cur_valid : ∀ c, cur' = Some c → (c < length (heap s'))%nat;
  g_cur_old : ∀ c, cur' = Some c → (c < length (heap s))%nat → cur = Some c;
  g_cur_key : (cur' = cur ∧ sgs = []) ∨
              (∃ c sg, cur' = Some c ∧ last sgs = Some sg ∧ key_of s' c = sg);
  g_deref : ∀ a, (a < length (heap s))%nat → cur ≠ Some a → deref s' a = deref s a;
  g_ids : ∀ a, (a < length (heap s))%nat →
               key_of s' a = key_of s a ∧ tgid (deref s' a) = tgid (deref s a);
  g_mono : ∀ tg' a, a ∈ bucket Active tg' s → a ∈ bucket Active tg' s';
  g_new : ∀ tg' a, a ∈ bucket Active tg' s' →
                   a ∈ bucket Active tg' s ∨
                   ((length (heap s) ≤ a)%nat ∧ tg' = tg ∧ key_of s' a ∈ sgs);
  g_logs : ∀ l, l ∈ logs s → l ∈ logs s' }.

(** The state after one more record was logged. *)
Definition logged (lvl : Level) (msg : string) (args : list Z) (s : State) : State :=
  set_logs (logs s ++ [Log lvl msg args]) s.

(** What is left of a bucket when the consumer of [_find_group_in]
    removes every entry the generator yields: after the entry under the
    iterator was removed the next one has taken its index, and the
    iterator steps over it. *)
Fixpoint swept {A} (p : A → bool) (l : list A) : list A :=
  match l with
  | [] => []
  | x :: l' =>
      if p x then
        match l' with
        | [] => []
        | y :: l'' => y :: swept p l''
        end
      else x :: swept p l'
  end.

(** The entries such a consumer was given, in the order of the visits. *)
Fixpoint visited {A} (p : A → bool) (l : list A) : list A :=
  match l with
  | [] => []
  | x :: l' =>
      if p x then
        x :: match l' with
             | [] => []
             | y :: l'' => visited p l''
             end
      else visited p l'
  end.

(** The states a consumer of [_find_group_in] goes through: [T tg x s s']
    relates the states before and after its body ran on the connection
    [x] of the bucket of [tg]. *)
Inductive visits (T : Z → Addr → State → State → Prop)
    : list (Z * Addr) → State → State → Prop :=
| visits_nil s : visits T [] s s
| visits_cons tg x l s s1 s2 :
    T tg x s s1 → visits T l s1 s2 → visits T ((tg, x) :: l) s s2.

(** *** [GapJunctionManager] *)

(** The offsets as the spec words them: [offset[0] = 0] and
    [offset[i] = offset[i-1] + 2*size[i-1]]. *)
Fixpoint spec_gj_offsets (start : Z) (sizes : list Z) : list Z :=
  match sizes with
  | [] => []
  | size :: sizes' => start :: spec_gj_offsets (start + 2 * size) sizes'
  end.

(** The local variable [gj_sum] and [self._gj_offsets] while
    [GapJunctionManager.__init__] reads [gjinfo.txt]. *)
Record GapJunctionOffsets := mkGapJunctionOffsets {
  _gj_offsets : list float;
  gj_sum : PyVal }.

Definition lift {S A} (x : Exn + A) : Py S A :=
  match x with
  | inl e => raise e
  | inr a => mret a
  end.

(** The body of [for line in open(gjfname)]. *)
Definition gj_read_line (line : string) : Py GapJunctionOffsets unit :=
  match str_split line with
  | [gid; offset] =>
      st ← get_state;
      x ← lift (as_double (gj_sum st));
      put_state {| _gj_offsets := _gj_offsets st ++ [x]; gj_sum := gj_sum st |};;
      twice ← lift (py_mul (PyInt 2) (PyStr offset));
      total ← lift (py_add (gj_sum st) twice);
      modify (λ st, {| _gj_offsets := _gj_offsets st; gj_sum := total |})
  | _ => raise ValueError
  end.

Fixpoint gj_read_lines (lines : list string) : Py GapJunctionOffsets unit :=
  match lines with
  | [] => mret tt
  | line :: lines' => gj_read_line line;; gj_read_lines lines'
  end.

(** [GapJunctionManager.__init__], after the base class constructor:
    [lines] are the lines of [gjinfo.txt]. *)
Definition GapJunctionManager_init (lines : list string)
    : Outcome GapJunctionOffsets unit :=
  gj_read_lines lines {| _gj_offsets := []; gj_sum := PyInt 0 |}.

End connection_manager.


(** ** numpy record arrays, as [synapse_reader.py] uses them *)

Module numpy.

(** A record array: the field names of its dtype (all fields are [f8])
    and its records, each a row of values in the order of the names. *)
Record recarray := mkrecarray {
  dtype_names : list string;
  records : list (list float) }.

Fixpoint index_of (names : list string) (name : string) : option nat :=
  match names with
  | [] => None
  | n :: names' =>
      if bool_decide (n = name) then Some O else S <$> index_of names' name
  end.

(** The column of a field, by position. *)
Definition column (j : nat) (a : recarray) : list float :=
  (λ r, default 0%float (r !! j)) <$> records a.

(** Writing a column: one value per record. *)
Definition set_column (j : nat) (col : list float) (a : recarray) : recarray :=
  {| dtype_names := dtype_names a;
     records := zip_with (λ r v, <[j := v]> r) (records a) col |}.

(** [a.name]: AttributeError when the dtype has no such field. *)
Definition getattr (a : recarray) (name : string) : Exn + list float :=
  match index_of (dtype_names a) name with
  | Some j => inr (column j a)
  | None => inl AttributeError
  end.

(** [a[name]]: ValueError when the dtype has no such field. *)
Definition getfield (a : recarray) (name : string) : Exn + list float :=
  match index_of (dtype_names a) name with
  | Some j => inr (column j a)
  | None => inl ValueError
  end.

(** [a[name] = col] and [a.name = col]: the values are broadcast to the
    length of the array, so [col] holds one value per record or a single
    value; ValueError otherwise, and when there is no such field. *)
Definition setfield (a : recarray) (name : string) (col : list float) : Exn + recarray :=
  match index_of (dtype_names a) name with
  | None => inl ValueError
  | Some j =>
      if bool_decide (length col = length (records a)) then inr (set_column j col a)
      else
        match col with
        | [v] => inr (set_column j (replicate (length (records a)) v) a)
        | _ => inl ValueError
        end
  end.

(** [a.name = v] for a scalar [v]. *)
Definition setfield_scalar (a : recarray) (name : string) (v : float) : Exn + recarray :=
  match index_of (dtype_names a) name with
  | None => inl ValueError
  | Some j => inr (set_column j (replicate (length (records a)) v) a)
  end.

(** [a[i][j] = v]: writing one value of record [i], by position. *)
Definition setitem (i j : nat) (v : float) (a : recarray) : recarray :=
  {| dtype_names := dtype_names a;
     records := alter (λ r, <[j := v]> r) i (records a) |}.

(** Every record has one value per field. *)
Definition well_shaped (a : recarray) : Prop :=
  Forall (λ r, length r = length (dtype_names a)) (records a).

End numpy.
Export numpy.


(** ** [neurodamus/io/synapse_reader.py] *)

Module synapse_reader.

(** The external [HDF5Reader] hoc object, by the calls the reader makes
    on it; the dataset ["a%d" % gid] of a cell is given by the gid. *)
Record HDF5Reader := mkHDF5Reader {
  checkVersion : Z;
  loadData_gid : Z → Z;
  loadData_name : Z → Z;
  numberofrows : Z → nat;
  getData : Z → nat → nat → float }.

(** What [SonataReader] keeps: the attribute names of the libsonata
    population it opened, and [self._data], the columns preloaded for
    each gid. *)
Record SonataReader := mkSonataReader {
  attribute_names : list string;
  _data : list (Z * list (string * list float)) }.

(** What [SynReaderNRN] keeps. *)
Record SynReaderNRN := mkSynReaderNRN {
  _n_synapse_files : Z;
  _syn_reader : HDF5Reader;
  nrn_version : Z }.

(** The attributes of the base class [SynapseReader], around those of
    the subclass, and the log. *)
Record SynapseReader (B : Type) := mkSynapseReader {
  self : B;
  _conn_type : Z;
  _ca_concentration : option float;
  _syn_params : list (Z * recarray);
  _uhill_property_avail : bool;
  _extra_fields : list string;
  _extra_scale_vars : list string;
  logs : list LogRecord }.
Arguments mkSynapseReader {B}.
Arguments self {B}.
Arguments _conn_type {B}.
Arguments _ca_concentration {B}.
Arguments _syn_params {B}.
Arguments _uhill_property_avail {B}.
Arguments _extra_fields {B}.
Arguments _extra_scale_vars {B}.
Arguments logs {B}.

Definition SYNAPSES : Z := 0.
Definition GAP_JUNCTIONS : Z := 1.

Definition _synapse_fields : list string :=
  ["sgid"; "delay"; "isec"; "ipt"; "offset"; "weight"; "U"; "D"; "F";
   "DTC"; "synType"; "nrrp"; "u_hill_coefficient"; "conductance_ratio";
   "maskValue"; "location"]%string.

Definition SYNAPSE_INDEX_NAMES : list string := ["synapse_index"]%string.

Fixpoint dict_get {K V} `{EqDecision K} (d : list (K * V)) (k : K) : option V :=
  match d with
  | [] => None
  | (k', v) :: d' => if bool_decide (k' = k) then Some v else dict_get d' k
  end.

Fixpoint dict_set {K V} `{EqDecision K} (d : list (K * V)) (k : K) (v : V)
    : list (K * V) :=
  match d with
  | [] => [(k, v)]
  | (k', v') :: d' =>
      if bool_decide (k' = k) then (k', v) :: d' else (k', v') :: dict_set d' k v
  end.

Definition set_logs {B} (l : list LogRecord) (r : SynapseReader B) : SynapseReader B :=
  {| self := self r; _conn_type := _conn_type r;
     _ca_concentration := _ca_concentration r; _syn_params := _syn_params r;
     _uhill_property_avail := _uhill_property_avail r;
     _extra_fields := _extra_fields r; _extra_scale_vars := _extra_scale_vars r;
     logs := l |}.

Definition set_syn_params {B} (c : list (Z * recarray)) (r : SynapseReader B)
    : SynapseReader B :=
  {| self := self r; _conn_type := _conn_type r;
     _ca_concentration := _ca_concentration r; _syn_params := c;
     _uhill_property_avail := _uhill_property_avail r;
     _extra_fields := _extra_fields r; _extra_scale_vars := _extra_scale_vars r;
     logs := logs r |}.

Definition set_self {B} (b : B) (r : SynapseReader B) : SynapseReader B :=
  {| self := b; _conn_type := _conn_type r;
     _ca_concentration := _ca_concentration r; _syn_params := _syn_params r;
     _uhill_property_avail := _uhill_property_avail r;
     _extra_fields := _extra_fields r; _extra_scale_vars := _extra_scale_vars r;
     logs := logs r |}.

Definition logging {B} (lvl : Level) (msg : string) (args : list Z)
    : Py (SynapseReader B) unit :=
  modify (λ r, set_logs (logs r ++ [Log lvl msg args]) r).

(** Lifting a result that may be an exception. *)
Definition lift {S A} (x : Exn + A) : Py S A :=
  match x with
  | inl e => raise e
  | inr a => mret a
  end.

Section reader.

(** [Nd.dt], the integration step of the simulation. *)
Variable Nd_dt : float.

(** The power function behind [**] on floats and on [f8] arrays. *)
Variable power : float → Z → float.

(** The content of the memory [np.recarray] hands out: the value found
    in record [i] at field [j]. *)
Variable uninitialized : nat → nat → float.

Definition _constrained_hill (K_half y : float) : float :=
  let K_half_fourth := power K_half 4 in
  let y_fourth := power y 4 in
  ((K_half_fourth + 16) / 16 * y_fourth / (K_half_fourth + y_fourth))%float.

(** [np.recarray(length, dtype)] for the dtype of a parameters class. *)
Definition np_recarray (length : nat) (fields : list string) : recarray :=
  {| dtype_names := fields;
     records := (λ i, (λ j, uninitialized i j) <$> seq 0 (List.length fields))
                  <$> seq 0 length |}.

(** [cls.create_array(length)] for a class whose fields are [fields]. *)
Definition create_array {S} (fields : list string) (length : nat) : Py S recarray :=
  let npa := np_recarray length fields in
  npa ← lift (setfield_scalar npa "conductance_ratio" (-1)%float);
  npa ← lift (setfield_scalar npa "maskValue" (-1)%float);
  npa ← lift (setfield_scalar npa "location" 0.5%float);
  mret npa.

(** [SynapseParameters.empty] *)
Definition empty : recarray := np_recarray 0 _synapse_fields.

(** The methods a subclass must provide. *)
Class Subclass (B : Type) := {
  has_nrrp : SynapseReader B → bool;
  has_property : string → Py (SynapseReader B) bool;
  _load_synapse_parameters : Z → Py (SynapseReader B) recarray }.

(** [records.delay = (records.delay / dt + 1e-5).astype('i4') * dt] on
    one value. *)
Definition patch_delay (d : float) : float :=
  (float_of_int (astype_i4 (d / Nd_dt + 1e-5)) * Nd_dt)%float.

Definition _patch_delay_fp_inaccuracies {S} (records_ : recarray) : Py S recarray :=
  if bool_decide (length (records records_) = 0%nat)
     || negb (bool_decide ("delay"%string ∈ dtype_names records_))
  then mret records_
  else
    delay ← lift (getattr records_ "delay");
    lift (setfield records_ "delay" (patch_delay <$> delay)).


(** The array [_patch_delay_fp_inaccuracies] leaves. *)
Definition patched (a : recarray) : recarray :=
  match index_of (dtype_names a) "delay" with
  | Some j =>
      if bool_decide (length (records a) = 0%nat) then a
      else set_column j (patch_delay <$> column j a) a
  | None => a
  end.

(** The array after the fields [names] were multiplied, one after the
    other, by [scale_factors]. *)
Definition mul_field (scale_factors : list float) (a : recarray) (name : string)
    : recarray :=
  match index_of (dtype_names a) name with
  | Some j => set_column j (zip_with (λ x k, x * k)%float (column j a) scale_factors) a
  | None => a
  end.

Definition mul_fields (names : list string) (scale_factors : list float)
    (a : recarray) : recarray :=
  foldl (mul_field scale_factors) a names.

(** The scale factors of an array for the calcium concentration [y]. *)
Definition scale_factors_of (y : float) (a : recarray) : list float :=
  match index_of (dtype_names a) "u_hill_coefficient" with
  | Some j => (λ k, _constrained_hill k y) <$> column j a
  | None => []
  end.

(** The records [get_synapse_parameters] returns when the backend read
    [raw]: patched, and scaled when the reader has the property and a
    concentration. *)
Definition normalized (avail : bool) (ca : option float) (extra_scale_vars : list string)
    (raw : recarray) : recarray :=
  match avail, ca with
  | true, Some y =>
      mul_fields ("U"%string :: extra_scale_vars)
        (scale_factors_of y (patched raw)) (patched raw)
  | _, _ => patched raw
  end.

(** [syn_params[name] *= scale_factors] *)
Definition imul_field {S} (syn_params : recarray) (name : string)
    (scale_factors : list float) (missing : Exn) : Py S recarray :=
  match index_of (dtype_names syn_params) name with
  | None => raise missing
  | Some j =>
      lift (setfield syn_params name
              (zip_with (λ x k, x * k)%float (column j syn_params) scale_factors))
  end.

Fixpoint scale_extra_vars {S} (syn_params : recarray) (extra_scale_vars : list string)
    (scale_factors : list float) : Py S recarray :=
  match extra_scale_vars with
  | [] => mret syn_params
  | scale_var :: rest =>
      syn_params ← imul_field syn_params scale_var scale_factors ValueError;
      scale_extra_vars syn_params rest scale_factors
  end.

Definition _scale_U_param {S} (syn_params : recarray)
    (extra_cellular_calcium : option float) (extra_scale_vars : list string)
    : Py S recarray :=
  if bool_decide (length (records syn_params) = 0%nat) then mret syn_params
  else
    match extra_cellular_calcium with
    | None => mret syn_params
    | Some y =>
        K ← lift (getattr syn_params "u_hill_coefficient");
        let scale_factors := (λ k, _constrained_hill k y) <$> K in
        syn_params ← imul_field syn_params "U" scale_factors AttributeError;
        scale_extra_vars syn_params extra_scale_vars scale_factors
    end.

Definition get_synapse_parameters {B} {backend : Subclass B} (gid : Z)
    : Py (SynapseReader B) recarray :=
  r ← get_state;
  match dict_get (_syn_params r) gid with
  | Some syn_params => mret syn_params
  | None =>
      syn_params ← _load_synapse_parameters gid;
      syn_params ← _patch_delay_fp_inaccuracies syn_params;
      r ← get_state;
      syn_params ←
        (if _uhill_property_avail r
         then _scale_U_param syn_params (_ca_concentration r) (_extra_scale_vars r)
         else mret syn_params);
      modify (λ r, set_syn_params (dict_set (_syn_params r) gid syn_params) r);;
      mret syn_params
  end.

(** [SynapseReader.__init__], once [_open_file] has built the
    attributes [b] of the subclass: [has_property] runs on the object
    before [_uhill_property_avail] is assigned. *)
Definition SynapseReader_init {B} {backend : Subclass B} (b : B) (conn_type : Z)
    (extracellular_calcium : option float) : Exn + SynapseReader B :=
  let r := {| self := b; _conn_type := conn_type;
              _ca_concentration := extracellular_calcium; _syn_params := [];
              _uhill_property_avail := false; _extra_fields := [];
              _extra_scale_vars := []; logs := [] |} in
  match has_property "u_hill_coefficient" r with
  | Ret avail r' =>
      inr {| self := self r'; _conn_type := _conn_type r';
             _ca_concentration := _ca_concentration r';
             _syn_params := _syn_params r';
             _uhill_property_avail := avail; _extra_fields := [];
             _extra_scale_vars := []; logs := logs r' |}
  | Raise e _ => inl e
  | OutOfFuel => inl RuntimeError
  end.

(** *** [SynReaderNRN] *)

Definition SynReaderNRN_has_nrrp (r : SynapseReader SynReaderNRN) : bool :=
  bool_decide (nrn_version (self r) > 4).

Definition SynReaderNRN_has_property (field_name : string)
    : Py (SynapseReader SynReaderNRN) bool :=
  logging WARNING "has_property() without SynapseReader returns always False" [];;
  mret false.

(** One pass of the row loop of [_load_synapse_parameters]. *)
Definition SynReaderNRN_fill_row (reader : HDF5Reader) (gid : Z) (has_nrrp : bool)
    (conn_syn_params : recarray) (i : nat) : recarray :=
  let a := conn_syn_params in
  let a := setitem i 0 (getData reader gid i 0) a in
  let a := setitem i 1 (getData reader gid i 1) a in
  let a := setitem i 2 (getData reader gid i 2) a in
  let a := setitem i 3 (getData reader gid i 3) a in
  let a := setitem i 4 (getData reader gid i 4) a in
  let a := setitem i 5 (getData reader gid i 8) a in
  let a := setitem i 6 (getData reader gid i 9) a in
  let a := setitem i 7 (getData reader gid i 10) a in
  let a := setitem i 8 (getData reader gid i 11) a in
  let a := setitem i 9 (getData reader gid i 12) a in
  let a := setitem i 10 (getData reader gid i 13) a in
  let a := setitem i 11 (if has_nrrp then getData reader gid i 17 else (-1)%float) a in
  let a := setitem i 12 (-1)%float a in
  let a := setitem i 13 (-1)%float a in
  a.

Definition SynReaderNRN_load_synapse_parameters (gid : Z)
    : Py (SynapseReader SynReaderNRN) recarray :=
  r ← get_state;
  let reader := _syn_reader (self r) in
  let ret := if bool_decide (_n_synapse_files (self r) > 1)
             then loadData_gid reader gid else loadData_name reader gid in
  if bool_decide (ret < 0) then mret empty
  else
    let nrow := numberofrows reader gid in
    if bool_decide (nrow = 0%nat) then mret empty
    else
      conn_syn_params ← create_array _synapse_fields nrow;
      let has_nrrp := SynReaderNRN_has_nrrp r in
      mret (foldl (SynReaderNRN_fill_row reader gid has_nrrp) conn_syn_params
              (seq 0 nrow)).

#[export] Instance SynReaderNRN_Subclass : Subclass SynReaderNRN := {|
  has_nrrp := SynReaderNRN_has_nrrp;
  has_property := SynReaderNRN_has_property;
  _load_synapse_parameters := SynReaderNRN_load_synapse_parameters |}.

(** [SynReaderNRN.__init__]: [found] tells whether the file (or its first
    numbered part) exists, [hdf5] is the reader [Nd.HDF5Reader] returns. *)
Definition SynReaderNRN_init (found : bool) (hdf5 : HDF5Reader) (conn_type : Z)
    (population : option string) (n_synapse_files : option Z)
    (extracellular_calcium : option float) : Exn + SynapseReader SynReaderNRN :=
  if negb found then inl RuntimeError
  else
    let n_files := match n_synapse_files with
                   | Some n => if bool_decide (n = 0) then 1 else n
                   | None => 1
                   end in
    match population with
    | Some (String _ _) => inl RuntimeError
    | _ =>
        SynapseReader_init
          {| _n_synapse_files := n_files; _syn_reader := hdf5;
             nrn_version := checkVersion hdf5 |}
          conn_type extracellular_calcium
    end.

(** The record of index [i] that [SynReaderNRN._load_synapse_parameters]
    returns, spelled out. *)
Definition SynReaderNRN_row (reader : HDF5Reader) (gid : Z) (has_nrrp : bool)
    (i : nat) : list float :=
  [getData reader gid i 0; getData reader gid i 1; getData reader gid i 2;
   getData reader gid i 3; getData reader gid i 4; getData reader gid i 8;
   getData reader gid i 9; getData reader gid i 10; getData reader gid i 11;
   getData reader gid i 12; getData reader gid i 13;
   if has_nrrp then getData reader gid i 17 else (-1)%float;
   (-1)%float; (-1)%float; (-1)%float; 0.5%float].

(** The number of records it returns for [gid]. *)
Definition SynReaderNRN_nrow (b : SynReaderNRN) (gid : Z) : nat :=
  let reader := _syn_reader b in
  let ret := if bool_decide (_n_synapse_files b > 1)
             then loadData_gid reader gid else loadData_name reader gid in
  if bool_decide (ret < 0) then 0%nat else numberofrows reader gid.

(** The values a pass of the row loop writes into record [i]. *)
Definition fill (reader : HDF5Reader) (gid : Z) (has_nrrp : bool) (i : nat)
    (r : list float) : list float :=
  <[13%nat := (-1)%float]> (<[12%nat := (-1)%float]>
  (<[11%nat := if has_nrrp then getData reader gid i 17 else (-1)%float]>
  (<[10%nat := getData reader gid i 13]> (<[9%nat := getData reader gid i 12]>
  (<[8%nat := getData reader gid i 11]> (<[7%nat := getData reader gid i 10]>
  (<[6%nat := getData reader gid i 9]> (<[5%nat := getData reader gid i 8]>
  (<[4%nat := getData reader gid i 4]> (<[3%nat := getData reader gid i 3]>
  (<[2%nat := getData reader gid i 2]> (<[1%nat := getData reader gid i 1]>
  (<[0%nat := getData reader gid i 0]> r))))))))))))).

(** The records of the legacy reader [b] for [gid] hold the [U] read
    from the file and the sentinel -1 in [u_hill_coefficient] and
    [conductance_ratio]. *)
Definition legacy_records (b : SynReaderNRN) (gid : Z) (a : recarray) : Prop :=
  let n := SynReaderNRN_nrow b gid in
  getattr a "U" = inr ((λ i, getData (_syn_reader b) gid i 9) <$> seq 0 n) ∧
  getattr a "u_hill_coefficient" = inr (replicate n (-1)%float) ∧
  getattr a "conductance_ratio" = inr (replicate n (-1)%float).

(** A legacy reader as its constructor and [get_synapse_parameters]
    leave it: the property is marked unavailable and the cache holds
    records of that kind. *)
Definition legacy_reader (r : SynapseReader SynReaderNRN) : Prop :=
  _uhill_property_avail r = false ∧
  ∀ gid a, dict_get (_syn_params r) gid = Some a → legacy_records (self r) gid a.

(** *** [SonataReader] *)

(** [preload_data] reads the population through libsonata and fills
    [self._data]; the library is outside this development. *)
Variable preload_data : list Z → Py (SynapseReader SonataReader) unit.

Definition SonataReader_has_nrrp (r : SynapseReader SonataReader) : bool := true.

Definition SonataReader_has_property (field_name : string)
    : Py (SynapseReader SonataReader) bool :=
  r ← get_state;
  if bool_decide (field_name ∈ SYNAPSE_INDEX_NAMES) then mret true
  else mret (bool_decide (field_name ∈ attribute_names (self r))).

(** [for name in names: conn_syn_params[name] = data[name]] *)
Fixpoint copy_fields {S} (data : list (string * list float)) (names : list string)
    (conn_syn_params : recarray) : Py S recarray :=
  match names with
  | [] => mret conn_syn_params
  | name :: names' =>
      match dict_get data name with
      | None => raise KeyError
      | Some col =>
          a ← lift (setfield conn_syn_params name col);
          copy_fields data names' a
      end
  end.

(** [l[1:-2]] *)
Definition slice_1_m2 {A} (l : list A) : list A :=
  take (length l - 2 - 1) (drop 1 l).

Definition SonataReader_load_synapse_parameters (gid : Z)
    : Py (SynapseReader SonataReader) recarray :=
  r ← get_state;
  (if bool_decide (is_Some (dict_get (_data (self r)) gid)) then mret tt
   else preload_data [gid]);;
  r ← get_state;
  match dict_get (_data (self r)) gid with
  | None => raise KeyError
  | Some data =>
      match dict_get data "sgid"%string with
      | None => raise KeyError
      | Some sgid =>
          let fields := match _extra_fields r with
                        | [] => _synapse_fields
                        | _ => _synapse_fields ++ _extra_fields r
                        end in
          conn_syn_params ← create_array fields (length sgid);
          conn_syn_params ← lift (setfield conn_syn_params "sgid" sgid);
          conn_syn_params ← copy_fields data (slice_1_m2 _synapse_fields) conn_syn_params;
          copy_fields data (_extra_fields r) conn_syn_params
      end
  end.

#[export] Instance SonataReader_Subclass : Subclass SonataReader := {|
  has_nrrp := SonataReader_has_nrrp;
  has_property := SonataReader_has_property;
  _load_synapse_parameters := SonataReader_load_synapse_parameters |}.

End reader.

End synapse_reader.


(** ** Concrete managers used to exercise the statements *)

Module examples.
Import connection_manager.

Definition conn (sg tg : Z) (w : float) : Connection :=
  Connection_init sg tg w None (Some NO_STDP) 0%float DualSyns None.

(** Five objects; the one at address 3 has the pair of the one at 0. *)
Definition objects : list Connection :=
  [conn 1 10 1; conn 2 10 1; conn 3 10 1; conn 1 10 2; conn 7 20 1]%float.

(** A manager that stored the connections at 0, 1 and 4. *)
Definition manager : State :=
  {| heap := objects;
     _connections_map := [(10, [0; 1]%nat); (20, [4%nat])];
     _disabled_conns := [];
     _syn_params := [];
     _circuit_target := None;
     _synapse_mode := DualSyns;
     logs := [] |}.

(** A manager whose connection 1->10 is disabled and whose connection
    2->10 is active. *)
Definition manager_disabled : State :=
  {| heap := objects;
     _connections_map := [(10, [1%nat])];
     _disabled_conns := [(10, [0%nat])];
     _syn_params := [];
     _circuit_target := None;
     _synapse_mode := DualSyns;
     logs := [] |}.

(** A legacy reader whose dataset of gid 10 has three rows, of source
    ids 1, 2 and 1; every delay is 0.875. *)
Definition reader_121 : HDF5Reader :=
  {| checkVersion := 5;
     loadData_gid := λ _, 0;
     loadData_name := λ _, 0;
     numberofrows := λ _, 3%nat;
     getData := λ _ i column,
       match column, i with
       | O, 1%nat => 2%float
       | O, _ => 1%float
       | 1%nat, _ => 0.875%float
       | _, _ => 0%float
       end |}.

Definition blank : SynapseParameters :=
  mkSynapseParameters 0 0 0 0 0 0 0 0 0 0 0 0.

Definition env_121 : Env :=
  {| _synapse_reader := reader_121; _n_synapse_files := 1; _nrn_version := 5;
     dt := 0.25%float; fresh_row := blank |}.

(** The row of [reader_121] at index [i], after the delay was patched. *)
Definition row_121 (i : nat) : SynapseParameters :=
  set_delay 0.75%float (read_row env_121 10 i).

(** The lines of the [gjinfo.txt] of the spec's example. *)
Definition gjinfo : list string := ["1 4"; "2 6"; "3 2"]%string.

End examples.

Module reader_examples.
Import synapse_reader.

(** A legacy file whose dataset of gid 10 has three rows, of source ids
    1, 2 and 1; every delay is 0.875 and every [U] is 0.5. *)
Definition hdf5 : HDF5Reader :=
  {| checkVersion := 5;
     loadData_gid := λ _, 0;
     loadData_name := λ _, 0;
     numberofrows := λ _, 3%nat;
     getData := λ _ i column,
       match column, i with
       | O, 1%nat => 2%float
       | O, _ => 1%float
       | 1%nat, _ => 0.875%float
       | 9%nat, _ => 0.5%float
       | _, _ => 0%float
       end |}.

(** The legacy reader on that file, with a calcium concentration of 2. *)
Definition nrn_reader : SynapseReader SynReaderNRN :=
  {| self := {| _n_synapse_files := 1; _syn_reader := hdf5; nrn_version := 5 |};
     _conn_type := SYNAPSES;
     _ca_concentration := Some 2%float;
     _syn_params := [];
     _uhill_property_avail := false;
     _extra_fields := [];
     _extra_scale_vars := [];
     logs := [] |}.

(** A power function for the examples: repeated multiplication. *)
Definition power (x : float) (n : Z) : float :=
  Nat.iter (Z.to_nat n) (λ acc, acc * x)%float 1%float.

Definition zeros (i j : nat) : float := 0%float.

(** A SONATA reader whose population has the [u_hill_coefficient]
    attribute, with the columns of gid 10 already loaded (two synapses),
    a calcium concentration of 2 and the extra scale variable
    [weight]. *)
Definition sonata_columns : list (string * list float) :=
  [("tgid", [10; 10]); ("sgid", [1; 1]); ("delay", [0.875; 1]);
   ("weight", [0.5; 0.25]); ("U", [0.5; 0.75]); ("D", [1; 1]); ("F", [1; 1]);
   ("DTC", [1; 1]); ("synType", [0; 0]); ("nrrp", [1; 1]);
   ("u_hill_coefficient", [2; 1]); ("conductance_ratio", [-1; -1]);
   ("synapse_index", [0; 1]); ("isec", [3; 4]); ("ipt", [-1; -1]);
   ("offset", [0.5; 0.5])]%string%float.

Definition sonata_reader : SynapseReader SonataReader :=
  {| self := {| attribute_names :=
                  ["delay"; "conductance"; "u_syn"; "depression_time";
                   "facilitation_time"; "decay_time"; "syn_type_id";
                   "n_rrp_vesicles"; "u_hill_coefficient";
                   "afferent_section_id"; "afferent_section_pos"]%string;
                _data := [(10, sonata_columns)] |};
     _conn_type := SYNAPSES;
     _ca_concentration := Some 2%float;
     _syn_params := [];
     _uhill_property_avail := true;
     _extra_fields := [];
     _extra_scale_vars := ["weight"%string];
     logs := [] |}.




(** The records the SONATA reader loads for gid 10. *)
Definition sonata_raw : recarray :=
  {| dtype_names := _synapse_fields;
     records :=
       [[1; 0.875; 3; -1; 0.5; 0.5; 0.5; 1; 1; 1; 0; 1; 2; -1; -1; 0.5];
        [1; 1; 4; -1; 0.5; 0.25; 0.75; 1; 1; 1; 0; 1; 1; -1; -1; 0.5]]%float |}.

End reader_examples.


(** * Properties *)

(** ** Binary search in a bucket ordered by key *)

Section bin_search_facts.
Context {A : Type} (keyf : A → Z).

Lemma ascending_lookup_lt (l : list A) (i j : nat) (x y : A) :
  ascending keyf l → l !! i = Some x → l !! j = Some y → (i < j)%nat →
  keyf x < keyf y.
Proof.
  unfold ascending. revert i j.
  induction l as [|a l IH]; intros i j Hs Hi Hj Hij; [done|].
  rewrite fmap_cons in Hs. apply StronglySorted_inv in Hs as [Hs Hall].
  destruct j as [|j]; [lia|]. simpl in Hj.
  destruct i as [|i]; simpl in Hi.
  - injection Hi as ->. rewrite Forall_forall in Hall. apply Hall.
    apply list_elem_of_fmap. exists y. split; [done|].
    by eapply list_elem_of_lookup_2.
  - eapply IH; eauto. lia.
Qed.

Lemma ascending_lookup_le (l : list A) (i j : nat) (x y : A) :
  ascending keyf l → l !! i = Some x → l !! j = Some y → (i ≤ j)%nat →
  keyf x ≤ keyf y.
Proof.
  intros Hs Hi Hj Hij. destruct (decide (i = j)) as [->|Hne].
  - rewrite Hi in Hj. injection Hj as ->. lia.
  - assert (keyf x < keyf y); [|lia].
    eapply ascending_lookup_lt; eauto. lia.
Qed.

Lemma ascending_keys_inj (l : list A) (x y : A) :
  ascending keyf l → x ∈ l → y ∈ l → keyf x = keyf y → x = y.
Proof.
  intros Hs [i Hi]%list_elem_of_lookup [j Hj]%list_elem_of_lookup Heq.
  destruct (Nat.lt_trichotomy i j) as [Hlt|[->|Hlt]].
  - pose proof (ascending_lookup_lt _ _ _ _ _ Hs Hi Hj Hlt). lia.
  - congruence.
  - pose proof (ascending_lookup_lt _ _ _ _ _ Hs Hj Hi Hlt). lia.
Qed.

Lemma half_between (low high : nat) :
  (low < high)%nat → (low ≤ (low + high) / 2 < high)%nat.
Proof.
  intros H. split.
  - apply Nat.div_le_lower_bound; lia.
  - apply Nat.Div0.div_lt_upper_bound; lia.
Qed.

(** The loop keeps: everything left of [low] is below the key, everything
    from [high] on is not. *)
Lemma bin_search_loop_spec (l : list A) (key : Z) (fuel low high : nat) :
  ascending keyf l →
  (high - low ≤ fuel)%nat → (low ≤ high ≤ length l)%nat →
  (∀ i x, (i < low)%nat → l !! i = Some x → keyf x < key) →
  (∀ i x, (high ≤ i)%nat → l !! i = Some x → key ≤ keyf x) →
  let p := bin_search_loop fuel l key keyf low high in
  (low ≤ p ≤ high)%nat ∧
  (∀ i x, (i < p)%nat → l !! i = Some x → keyf x < key) ∧
  (∀ i x, (p ≤ i)%nat → l !! i = Some x → key ≤ keyf x).
Proof.
  intros Hs. revert low high.
  induction fuel as [|fuel IH]; intros low high Hfuel Hrange Hlow Hhigh;
    cbn [bin_search_loop].
  - assert (low = high) as -> by lia. eauto with lia.
  - case_bool_decide as Hlt; [|assert (low = high) as -> by lia; eauto with lia].
    pose proof (half_between low high Hlt) as Hmid.
    set (mid := ((low + high) / 2)%nat) in *.
    destruct (lookup_lt_is_Some_2 l mid) as [x Hx]; [lia|].
    rewrite Hx. case_bool_decide as Hcmp.
    + destruct (IH (S mid) high) as (? & ? & ?); [lia|lia| |done|].
      * intros i y Hi Hy.
        pose proof (ascending_lookup_le l i mid y x Hs Hy Hx). lia.
      * split_and!; [lia|lia|done|done].
    + destruct (IH low mid) as (? & ? & ?); [lia|lia|done| |].
      * intros i y Hi Hy.
        pose proof (ascending_lookup_le l mid i x y Hs Hx Hy). lia.
      * split_and!; [lia|lia|done|done].
Qed.

(** [bin_search] returns the insertion point: the keys before it are
    below the key, the keys from it on are not. *)
Lemma bin_search_spec (l : list A) (key : Z) :
  ascending keyf l →
  let p := bin_search l key keyf in
  (p ≤ length l)%nat ∧
  (∀ i x, (i < p)%nat → l !! i = Some x → keyf x < key) ∧
  (∀ i x, (p ≤ i)%nat → l !! i = Some x → key ≤ keyf x).
Proof.
  intros Hs. unfold bin_search.
  destruct (bin_search_loop_spec l key (length l) 0 (length l)) as (? & ? & ?);
    [done|lia|lia| | |].
  - intros; lia.
  - intros i x Hi Hx. apply lookup_lt_Some in Hx. lia.
  - split_and!; [lia|done|done].
Qed.

(** The insertion point is where the key is, when the key is there. *)
Lemma bin_search_found (l : list A) (x : A) (key : Z) :
  ascending keyf l → x ∈ l → keyf x = key →
  l !! bin_search l key keyf = Some x.
Proof.
  intros Hs [i Hi]%list_elem_of_lookup Hkey.
  destruct (bin_search_spec l key Hs) as (Hlen & Hbelow & Habove).
  set (p := bin_search l key keyf) in *.
  destruct (Nat.lt_trichotomy i p) as [Hlt|[->|Hlt]]; [|done|].
  - pose proof (Hbelow i x Hlt Hi). lia.
  - destruct (lookup_lt_is_Some_2 l p) as [y Hy].
    { apply lookup_lt_Some in Hi. lia. }
    pose proof (Habove p y (Nat.le_refl _) Hy).
    pose proof (ascending_lookup_lt l p i y x Hs Hy Hi Hlt). lia.
Qed.

(** When no element has the key, the element at the insertion point, if
    any, has a larger key. *)
Lemma bin_search_absent (l : list A) (key : Z) (y : A) :
  ascending keyf l → (∀ x, x ∈ l → keyf x ≠ key) →
  l !! bin_search l key keyf = Some y → key < keyf y.
Proof.
  intros Hs Hno Hy.
  destruct (bin_search_spec l key Hs) as (_ & _ & Habove).
  pose proof (Habove _ y (Nat.le_refl _) Hy).
  assert (keyf y ≠ key); [|lia].
  apply Hno. by eapply list_elem_of_lookup_2.
Qed.

Lemma ascending_app (l1 l2 : list A) :
  ascending keyf (l1 ++ l2) ↔
  ascending keyf l1 ∧ ascending keyf l2 ∧ ∀ x y, x ∈ l1 → y ∈ l2 → keyf x < keyf y.
Proof.
  unfold ascending. rewrite fmap_app, StronglySorted_app. split.
  - intros (H3 & H1 & H2). split_and!; [done|done|].
    intros x y Hx Hy. apply H3; apply list_elem_of_fmap; eauto.
  - intros (H1 & H2 & H3). split_and!; [|done|done].
    intros a b (x & -> & Hx)%list_elem_of_fmap (y & -> & Hy)%list_elem_of_fmap.
    by apply H3.
Qed.

Lemma ascending_cons (x : A) (l : list A) :
  ascending keyf (x :: l) ↔ ascending keyf l ∧ ∀ y, y ∈ l → keyf x < keyf y.
Proof.
  change (x :: l) with ([x] ++ l). rewrite ascending_app. split.
  - intros (_ & H2 & H3). split; [done|]. intros y Hy. apply H3; [|done].
    by apply list_elem_of_singleton.
  - intros (H2 & H3). split_and!; [|done|].
    + unfold ascending. simpl. repeat constructor.
    + intros a y ->%list_elem_of_singleton Hy. by apply H3.
Qed.

(** Inserting at the insertion point keeps the bucket in order. *)
Lemma insert_ascending (l : list A) (x : A) :
  ascending keyf l → (∀ y, y ∈ l → keyf y ≠ keyf x) →
  ascending keyf (list_insert_at (bin_search l (keyf x) keyf) x l).
Proof.
  intros Hs Hno.
  destruct (bin_search_spec l (keyf x) Hs) as (Hlen & Hbelow & Habove).
  set (p := bin_search l (keyf x) keyf) in *. unfold list_insert_at.
  rewrite <- (take_drop p l) in Hs. apply ascending_app in Hs as (H1 & H2 & H3).
  apply ascending_app. split_and!; [done| |].
  - apply ascending_cons. split; [done|].
    intros y Hy. pose proof Hy as [i Hi]%list_elem_of_lookup.
    rewrite lookup_drop in Hi. pose proof (Habove (p + i)%nat y ltac:(lia) Hi).
    assert (keyf y ≠ keyf x); [|lia].
    apply Hno. by eapply list_elem_of_lookup_2.
  - intros a b Ha Hb. pose proof Ha as [i Hi]%list_elem_of_lookup.
    apply lookup_take_Some in Hi as [Hi Hip].
    pose proof (Hbelow i a Hip Hi).
    apply elem_of_cons in Hb as [->|Hb]; [done|].
    pose proof (H3 a b Ha Hb). lia.
Qed.

Lemma delete_ascending (l : list A) (i : nat) :
  ascending keyf l → ascending keyf (delete i l).
Proof.
  revert i. induction l as [|a l IH]; intros i Hs; [done|].
  apply ascending_cons in Hs as [Hs Ha].
  destruct i as [|i]; [done|]. simpl.
  apply ascending_cons. split; [by apply IH|].
  intros y Hy. apply Ha. by eapply list_elem_of_delete_inv.
Qed.

(** Taking an element out of an ordered bucket and storing it again at
    the insertion point gives the bucket back. *)
Lemma insert_delete (l : list A) (i : nat) (x : A) :
  ascending keyf l → l !! i = Some x →
  list_insert_at (bin_search (delete i l) (keyf x) keyf) x (delete i l) = l.
Proof.
  intros Hs Hi.
  pose proof (delete_ascending l i Hs) as Hs'.
  destruct (bin_search_spec (delete i l) (keyf x) Hs') as (Hlen & Hbelow & Habove).
  set (p := bin_search (delete i l) (keyf x) keyf) in *.
  pose proof (lookup_lt_Some _ _ _ Hi) as Hil.
  assert (p = i) as ->.
  { destruct (Nat.lt_trichotomy p i) as [Hlt|[->|Hlt]]; [|done|].
    - destruct (lookup_lt_is_Some_2 l p) as [y Hy]; [lia|].
      assert (delete i l !! p = Some y) as Hy' by (by rewrite list_lookup_delete_lt).
      pose proof (Habove p y (Nat.le_refl _) Hy').
      pose proof (ascending_lookup_lt l p i y x Hs Hy Hi Hlt). lia.
    - rewrite length_delete in Hlen by eauto.
      destruct (lookup_lt_is_Some_2 l (S i)) as [y Hy]; [lia|].
      assert (delete i l !! i = Some y) as Hy' by (by rewrite list_lookup_delete_ge).
      pose proof (Hbelow i y Hlt Hy').
      pose proof (ascending_lookup_lt l i (S i) x y Hs Hi Hy ltac:(lia)). lia. }
  unfold list_insert_at. rewrite delete_take_drop.
  rewrite take_app_length' by (rewrite length_take; lia).
  rewrite drop_app_length' by (rewrite length_take; lia).
  rewrite <- (take_drop_middle l i x Hi) at 3. done.
Qed.

End bin_search_facts.

(** ** The ordered dictionary *)

Section od_facts.
Context {V : Type}.
Implicit Types (d : OrderedDefaultDict V) (k : Z) (b : list V).

Lemma od_lookup_None d k : od_lookup d k = None ↔ k ∉ od_keys d.
Proof.
  unfold od_keys. induction d as [|[k' b'] d IH]; simpl.
  - split; [intros _; apply not_elem_of_nil | done].
  - rewrite not_elem_of_cons. case_bool_decide as Hk.
    + split; [done|]. by intros [? _].
    + rewrite IH. split; [by intros ?; split; [congruence|]|by intros [_ ?]].
Qed.

Lemma od_lookup_middle d1 d2 k b :
  k ∉ od_keys d1 → od_lookup (d1 ++ (k, b) :: d2) k = Some b.
Proof.
  unfold od_keys. induction d1 as [|[k' b'] d1 IH]; simpl; intros Hk.
  - by rewrite bool_decide_eq_true_2.
  - apply not_elem_of_cons in Hk as [? ?].
    rewrite bool_decide_eq_false_2 by done. by apply IH.
Qed.

Lemma od_lookup_Some_split d k b :
  od_lookup d k = Some b → ∃ d1 d2, d = d1 ++ (k, b) :: d2 ∧ k ∉ od_keys d1.
Proof.
  unfold od_keys. induction d as [|[k' b'] d IH]; simpl; [done|].
  case_bool_decide as Hk.
  - intros [= ->]. subst k'. exists [], d. split; [done|]. apply not_elem_of_nil.
  - intros (d1 & d2 & -> & Hd1)%IH. exists ((k', b') :: d1), d2.
    split; [done|]. simpl. by apply not_elem_of_cons.
Qed.

Lemma od_lookup_elem_of d k b : od_lookup d k = Some b → (k, b) ∈ d.
Proof.
  intros (d1 & d2 & -> & _)%od_lookup_Some_split.
  apply elem_of_app. right. by left.
Qed.

Lemma od_elem_of_lookup d k b :
  NoDup (od_keys d) → (k, b) ∈ d → od_lookup d k = Some b.
Proof.
  unfold od_keys. induction d as [|[k' b'] d IH]; simpl; intros Hnd Hin.
  - by apply elem_of_nil in Hin.
  - apply NoDup_cons in Hnd as [Hk' Hnd].
    apply elem_of_cons in Hin as [[= -> ->]|Hin].
    + by rewrite bool_decide_eq_true_2.
    + rewrite bool_decide_eq_false_2; [by apply IH|].
      intros ->. apply Hk'. apply list_elem_of_fmap. by exists (k, b).
Qed.

Lemma od_update_middle d1 d2 k b b' :
  k ∉ od_keys d1 →
  od_update (d1 ++ (k, b) :: d2) k b' = d1 ++ (k, b') :: d2.
Proof.
  unfold od_keys. induction d1 as [|[k' b''] d1 IH]; simpl; intros Hk.
  - by rewrite bool_decide_eq_true_2.
  - apply not_elem_of_cons in Hk as [? ?].
    rewrite bool_decide_eq_false_2 by done. by rewrite IH.
Qed.

Lemma od_update_absent d k b : od_lookup d k = None → od_update d k b = d.
Proof.
  induction d as [|[k' b'] d IH]; simpl; [done|].
  case_bool_decide; [done|]. intros ?. by rewrite IH.
Qed.

Lemma od_update_id d k b : od_lookup d k = Some b → od_update d k b = d.
Proof.
  intros (d1 & d2 & -> & Hd1)%od_lookup_Some_split. by apply od_update_middle.
Qed.

Lemma od_keys_update d k b : od_keys (od_update d k b) = od_keys d.
Proof.
  unfold od_keys. induction d as [|[k' b'] d IH]; simpl; [done|].
  case_bool_decide; simpl; [done|]. f_equal. apply IH.
Qed.

Lemma od_lookup_update_eq d k b :
  is_Some (od_lookup d k) → od_lookup (od_update d k b) k = Some b.
Proof.
  intros [b0 (d1 & d2 & -> & Hd1)%od_lookup_Some_split].
  rewrite od_update_middle by done. by apply od_lookup_middle.
Qed.

Lemma od_lookup_update_ne d k k' b :
  k ≠ k' → od_lookup (od_update d k b) k' = od_lookup d k'.
Proof.
  intros Hne. induction d as [|[k0 b0] d IH]; simpl; [done|].
  case_bool_decide as H0; simpl.
  - subst k0. by rewrite !bool_decide_eq_false_2.
  - case_bool_decide; [done|]. apply IH.
Qed.

Lemma od_update_update d k b b' :
  od_update (od_update d k b) k b' = od_update d k b'.
Proof.
  induction d as [|[k0 b0] d IH]; simpl; [done|].
  case_bool_decide as H0; simpl.
  - by rewrite bool_decide_eq_true_2.
  - rewrite bool_decide_eq_false_2 by done. by rewrite IH.
Qed.

Lemma od_lookup_snoc d k k' b :
  od_lookup (d ++ [(k, b)]) k' =
  match od_lookup d k' with
  | Some x => Some x
  | None => if bool_decide (k = k') then Some b else None
  end.
Proof.
  induction d as [|[k0 b0] d IH]; simpl; [done|].
  destruct (bool_decide (k0 = k')); [done|apply IH].
Qed.

(** After [d[k]] the key is there, with the bucket that was returned. *)
Lemma od_getitem_lookup d k :
  od_lookup (od_getitem d k).2 k = Some (od_getitem d k).1.
Proof.
  unfold od_getitem. destruct (od_lookup d k) eqn:Hl; simpl; [done|].
  by rewrite od_lookup_snoc, Hl, bool_decide_eq_true_2.
Qed.

Lemma od_getitem_lookup_ne d k k' :
  k ≠ k' → od_lookup (od_getitem d k).2 k' = od_lookup d k'.
Proof.
  intros Hne. unfold od_getitem. destruct (od_lookup d k) eqn:Hl; simpl; [done|].
  rewrite od_lookup_snoc. destruct (od_lookup d k'); [done|].
  by rewrite bool_decide_eq_false_2.
Qed.

Lemma od_getitem_fst d k : (od_getitem d k).1 = default [] (od_lookup d k).
Proof. unfold od_getitem. by destruct (od_lookup d k). Qed.

Lemma od_getitem_present d k :
  is_Some (od_lookup d k) → (od_getitem d k).2 = d.
Proof. intros [b Hb]. unfold od_getitem. by rewrite Hb. Qed.

Lemma od_getitem_absent d k :
  od_lookup d k = None → (od_getitem d k).2 = d ++ [(k, [])].
Proof. intros Hb. unfold od_getitem. by rewrite Hb. Qed.

Lemma od_values_getitem d k :
  concat (od_values (od_getitem d k).2) = concat (od_values d).
Proof.
  unfold od_getitem, od_values. destruct (od_lookup d k); simpl; [done|].
  rewrite fmap_app, concat_app. simpl. by rewrite app_nil_r.
Qed.

Lemma od_keys_getitem_NoDup d k :
  NoDup (od_keys d) → NoDup (od_keys (od_getitem d k).2).
Proof.
  intros Hnd. unfold od_getitem. destruct (od_lookup d k) eqn:Hl; simpl; [done|].
  unfold od_keys. rewrite fmap_app. simpl. apply NoDup_app. split_and!; [done| |].
  - intros x Hx ->%list_elem_of_singleton. by apply od_lookup_None in Hl.
  - apply NoDup_singleton.
Qed.

Lemma od_getitem_Forall (P : Z * list V → Prop) d k :
  P (k, []) → Forall P d → Forall P (od_getitem d k).2.
Proof.
  intros HP Hd. unfold od_getitem. destruct (od_lookup d k); simpl; [done|].
  apply Forall_app. split; [done|]. by constructor.
Qed.

Lemma od_update_Forall (P : Z * list V → Prop) d k b :
  P (k, b) → Forall P d → Forall P (od_update d k b).
Proof.
  intros HP. induction d as [|[k0 b0] d IH]; simpl; [done|].
  intros [H0 Hd]%Forall_cons. case_bool_decide.
  - subst k0. by constructor.
  - constructor; [done|]. by apply IH.
Qed.

(** Replacing a bucket by a permutation of itself plus one element adds
    that element to the values of the dictionary. *)
Lemma od_values_update_cons d k b b' x :
  od_lookup d k = Some b → b' ≡ₚ x :: b →
  concat (od_values (od_update d k b')) ≡ₚ x :: concat (od_values d).
Proof.
  intros (d1 & d2 & -> & Hd1)%od_lookup_Some_split Hp.
  rewrite od_update_middle by done. unfold od_values.
  rewrite !fmap_app, !concat_app. simpl. rewrite Hp. simpl.
  symmetry. apply Permutation_middle.
Qed.

End od_facts.

(** ** The connection index *)

Section manager_facts.
Import connection_manager.

#[local] Arguments touched : simpl never.
#[local] Arguments bucket : simpl never.
#[local] Arguments stored : simpl never.
#[local] Arguments logged : simpl never.
#[local] Arguments position : simpl never.
#[local] Arguments with_bucket : simpl never.
#[local] Arguments with_object : simpl never.
#[local] Arguments allocated : simpl never.
#[local] Arguments connect_row : simpl never.
#[local] Arguments map_getitem : simpl never.
#[local] Arguments bucket_assign : simpl never.
#[local] Arguments bucket_del : simpl never.
#[local] Arguments bucket_pop : simpl never.
#[local] Arguments bucket_append : simpl never.
#[local] Arguments call_method : simpl never.
#[local] Arguments new_connection : simpl never.
#[local] Arguments store_connection : simpl never.
#[local] Arguments _find_connection : simpl never.

Ltac py_unfold :=
  unfold mbind, mret, Py_bind, Py_ret, py_bind, py_ret, get_state, put_state,
    modify, raise, connection_manager.logging in *.

Ltac py_step := cbv beta iota zeta.

Lemma set_conn_map_id w s : set_conn_map w (conn_map w s) s = s.
Proof. by destruct w, s. Qed.

Lemma conn_map_set w d s : conn_map w (set_conn_map w d s) = d.
Proof. by destruct w. Qed.

Lemma conn_map_set_ne w w' d s :
  w ≠ w' → conn_map w' (set_conn_map w d s) = conn_map w' s.
Proof. by destruct w, w'. Qed.

Lemma set_conn_map_set w d d' s :
  set_conn_map w d' (set_conn_map w d s) = set_conn_map w d' s.
Proof. by destruct w. Qed.

Lemma heap_set_conn_map w d s : heap (set_conn_map w d s) = heap s.
Proof. by destruct w. Qed.

Lemma logs_set_conn_map w d s : logs (set_conn_map w d s) = logs s.
Proof. by destruct w. Qed.

Lemma deref_set_conn_map w d s a : deref (set_conn_map w d s) a = deref s a.
Proof. by destruct w. Qed.

Lemma key_of_set_conn_map w d s : key_of (set_conn_map w d s) = key_of s.
Proof. by destruct w. Qed.

Lemma touched_present w tg s :
  is_Some (od_lookup (conn_map w s) tg) → touched w tg s = s.
Proof.
  intros H. unfold touched. rewrite od_getitem_present by done.
  apply set_conn_map_id.
Qed.

Lemma bucket_touched w tg s : bucket w tg (touched w tg s) = bucket w tg s.
Proof.
  unfold bucket, touched. rewrite conn_map_set, od_getitem_lookup.
  by rewrite od_getitem_fst.
Qed.

Lemma bucket_touched_ne w tg tg' s :
  tg ≠ tg' → bucket w tg' (touched w tg s) = bucket w tg' s.
Proof.
  intros. unfold bucket, touched. by rewrite conn_map_set, od_getitem_lookup_ne.
Qed.

Lemma map_getitem_run w tg s :
  map_getitem w tg s = Ret (bucket w tg s) (touched w tg s).
Proof.
  unfold map_getitem, touched, bucket. rewrite <- od_getitem_fst.
  by destruct (od_getitem (conn_map w s) tg).
Qed.

Lemma bin_search_nil {A} (key : Z) (keyf : A → Z) : bin_search [] key keyf = 0%nat.
Proof. done. Qed.

Lemma find_connection_run sg tg (exact : bool) s :
  ascending (key_of s) (bucket Active tg s) →
  _find_connection sg tg exact s =
  Ret (bucket Active tg s,
       if exact then exact_index s sg tg else Some (position s sg tg))
      (touched Active tg s).
Proof.
  intros Hasc. unfold _find_connection. py_unfold.
  rewrite map_getitem_run.
  assert (Hpos : (if bool_decide (bucket Active tg s = []) then 0%nat
          else bin_search (bucket Active tg s) sg
                 (λ x, sgid (deref (touched Active tg s) x))) = position s sg tg).
  { unfold position. case_bool_decide as Hb; [by rewrite Hb|done]. }
  rewrite Hpos. clear Hpos. destruct exact; [|done].
  unfold exact_index.
  destruct (bin_search_spec (key_of s) (bucket Active tg s) sg Hasc) as (Hlen & _).
  fold (position s sg tg) in Hlen.
  case_bool_decide as Heq.
  - rewrite lookup_ge_None_2 by lia. done.
  - unfold getitem. destruct (lookup_lt_is_Some_2 (bucket Active tg s) (position s sg tg))
      as [c Hc]; [lia|].
    rewrite Hc. py_unfold. change (sgid (deref (touched Active tg s) c)) with (key_of s c).
    case_bool_decide; [by rewrite bool_decide_eq_false_2|by rewrite bool_decide_eq_true_2].
Qed.

Lemma bucket_lookup w tg s b :
  od_lookup (conn_map w s) tg = Some b → bucket w tg s = b.
Proof. unfold bucket. by intros ->. Qed.

Lemma bucket_nonempty_lookup w tg s a :
  a ∈ bucket w tg s → od_lookup (conn_map w s) tg = Some (bucket w tg s).
Proof.
  unfold bucket. destruct (od_lookup (conn_map w s) tg); simpl; [done|].
  by intros ?%elem_of_nil.
Qed.

Lemma bucket_elem_of_map w tg s a :
  a ∈ bucket w tg s → (tg, bucket w tg s) ∈ conn_map w s.
Proof. intros H%bucket_nonempty_lookup. by apply od_lookup_elem_of. Qed.

Lemma ascending_nil {A} (keyf : A → Z) : ascending keyf [].
Proof. constructor. Qed.

Lemma wf_bucket_ascending s tg :
  well_formed s → ascending (key_of s) (bucket Active tg s).
Proof.
  intros Hwf. unfold bucket. simpl.
  destruct (od_lookup (_connections_map s) tg) as [b|] eqn:Hb; simpl.
  - apply od_lookup_elem_of in Hb.
    pose proof (wf_ascending s Hwf) as Hall. rewrite Forall_forall in Hall.
    by apply (Hall (tg, b)).
  - apply ascending_nil.
Qed.

Lemma consistent_bucket s w tg a :
  consistent s (conn_map w s) → a ∈ bucket w tg s → tgid (deref s a) = tg.
Proof.
  intros Hc Ha. pose proof (bucket_elem_of_map _ _ _ _ Ha) as Hin.
  unfold consistent in Hc. rewrite Forall_forall in Hc.
  specialize (Hc _ Hin). simpl in Hc. rewrite Forall_forall in Hc. by apply Hc.
Qed.

Lemma wf_bucket_tgid s w tg a :
  well_formed s → a ∈ bucket w tg s → tgid (deref s a) = tg.
Proof.
  intros Hwf. apply consistent_bucket.
  destruct w; [apply (wf_consistent_active s Hwf)|apply (wf_consistent_disabled s Hwf)].
Qed.

(** In an ordered bucket the pair is present exactly when the element at
    the insertion point carries the key. *)
Lemma present_position s sg tg :
  ascending (key_of s) (bucket Active tg s) →
  present Active s sg tg ↔
  ∃ x, bucket Active tg s !! position s sg tg = Some x ∧ key_of s x = sg.
Proof.
  intros Hasc. split.
  - intros (a & Ha & Hk). exists a. split; [|done].
    by apply bin_search_found.
  - intros (x & Hx & Hk). exists x. split; [|done].
    by eapply list_elem_of_lookup_2.
Qed.

Lemma exact_index_present s sg tg a :
  ascending (key_of s) (bucket Active tg s) →
  a ∈ bucket Active tg s → key_of s a = sg →
  exact_index s sg tg = Some (position s sg tg) ∧
  bucket Active tg s !! position s sg tg = Some a.
Proof.
  intros Hasc Ha Hk. unfold exact_index.
  pose proof (bin_search_found (key_of s) _ a sg Hasc Ha Hk) as Hp.
  fold (position s sg tg) in Hp. rewrite Hp.
  by rewrite bool_decide_eq_true_2.
Qed.

Lemma exact_index_absent s sg tg :
  ¬ present Active s sg tg → exact_index s sg tg = None.
Proof.
  intros Hno. unfold exact_index.
  destruct (bucket Active tg s !! position s sg tg) as [c|] eqn:Hc; [|done].
  case_bool_decide as Hk; [|done].
  destruct Hno. exists c. split; [|done]. by eapply list_elem_of_lookup_2.
Qed.

(** [store_connection] of a pair that is not in the index inserts it. *)
Lemma store_connection_fresh_run conn s :
  let sg := key_of s conn in
  let tg := tgid (deref s conn) in
  ascending (key_of s) (bucket Active tg s) →
  ¬ present Active s sg tg →
  store_connection conn s = Ret tt (stored conn s).
Proof.
  intros sg tg Hasc Hno. unfold store_connection. py_unfold.
  fold tg. change (sgid (deref s conn)) with sg.
  rewrite find_connection_run by done. simpl.
  assert (Hdup : ∀ x, bucket Active tg s !! position s sg tg = Some x →
                      key_of s x ≠ sg).
  { intros x Hx Hk. apply Hno. apply present_position; eauto. }
  assert (Hfinal : bucket_assign Active tg
            (list_insert_at (position s sg tg) conn (bucket Active tg s))
            (touched Active tg s) = Ret tt (stored conn s)).
  { unfold bucket_assign, stored, touched. py_unfold. simpl. done. }
  case_bool_decide as Hlt.
  - unfold getitem.
    destruct (lookup_lt_is_Some_2 _ _ Hlt) as [x Hx]. rewrite Hx. py_unfold.
    change (sgid (deref s x)) with (key_of s x).
    rewrite bool_decide_eq_false_2 by eauto. apply Hfinal.
  - apply Hfinal.
Qed.

(** [store_connection] of a pair that is in the index only logs. *)
Lemma store_connection_dup_run conn s :
  let sg := key_of s conn in
  let tg := tgid (deref s conn) in
  ascending (key_of s) (bucket Active tg s) →
  present Active s sg tg →
  store_connection conn s =
  Ret tt (logged ERROR "Attempt to store existing connection: %d->%d" [sg; tg] s).
Proof.
  intros sg tg Hasc Hyes. unfold store_connection. py_unfold.
  fold tg. change (sgid (deref s conn)) with sg.
  rewrite find_connection_run by done. simpl.
  pose proof Hyes as (x & Hx & Hk)%present_position; [|done].
  pose proof (lookup_lt_Some _ _ _ Hx) as Hlt.
  rewrite bool_decide_eq_true_2 by done.
  unfold getitem. rewrite Hx. py_unfold.
  change (sgid (deref s x)) with (key_of s x).
  rewrite bool_decide_eq_true_2 by done.
  rewrite touched_present; [done|].
  apply list_elem_of_lookup_2 in Hx. apply bucket_nonempty_lookup in Hx.
  rewrite Hx. eauto.
Qed.

Lemma list_insert_at_perm {A} (p : nat) (x : A) (l : list A) :
  list_insert_at p x l ≡ₚ x :: l.
Proof.
  unfold list_insert_at. rewrite <- Permutation_middle. by rewrite take_drop.
Qed.

Lemma key_of_heap s s' : heap s = heap s' → key_of s = key_of s'.
Proof. unfold key_of, deref. by intros ->. Qed.

Lemma deref_heap s s' a : heap s = heap s' → deref s a = deref s' a.
Proof. unfold deref. by intros ->. Qed.

Lemma consistent_heap s s' d : heap s = heap s' → consistent s d → consistent s' d.
Proof. unfold consistent, deref. by intros ->. Qed.

Lemma heap_stored conn s : heap (stored conn s) = heap s.
Proof. done. Qed.

Lemma logs_stored conn s : logs (stored conn s) = logs s.
Proof. done. Qed.

Lemma disabled_stored conn s : _disabled_conns (stored conn s) = _disabled_conns s.
Proof. done. Qed.

Lemma bucket_stored conn s :
  let tg := tgid (deref s conn) in
  bucket Active tg (stored conn s) =
  list_insert_at (position s (key_of s conn) tg) conn (bucket Active tg s).
Proof.
  intros tg. unfold stored, bucket at 1. fold tg. simpl.
  rewrite od_lookup_update_eq; [done|].
  rewrite od_getitem_lookup. eauto.
Qed.

Lemma bucket_stored_ne conn s tg' :
  tgid (deref s conn) ≠ tg' → bucket Active tg' (stored conn s) = bucket Active tg' s.
Proof.
  intros Hne. unfold stored, bucket. simpl.
  by rewrite od_lookup_update_ne, od_getitem_lookup_ne.
Qed.

Lemma bucket_disabled_stored conn s tg' :
  bucket Disabled tg' (stored conn s) = bucket Disabled tg' s.
Proof. done. Qed.

(** Storing adds the connection, and only it, to what [all_connections]
    yields. *)
Lemma all_connections_stored conn s :
  all_connections (stored conn s) ≡ₚ conn :: all_connections s.
Proof.
  unfold all_connections, stored. simpl.
  rewrite <- (od_values_getitem (_connections_map s) (tgid (deref s conn))).
  eapply od_values_update_cons; [apply od_getitem_lookup|].
  rewrite od_getitem_fst. apply list_insert_at_perm.
Qed.

Lemma well_formed_stored conn s :
  well_formed s →
  ¬ present Active s (key_of s conn) (tgid (deref s conn)) →
  well_formed (stored conn s).
Proof.
  intros Hwf Hno. set (tg := tgid (deref s conn)) in *.
  pose proof (wf_bucket_ascending s tg Hwf) as Hasc.
  assert (Hb : (od_getitem (_connections_map s) tg).1 = bucket Active tg s)
    by apply od_getitem_fst.
  destruct Hwf as [Hk1 Hk2 Has Hc1 Hc2].
  split; unfold stored; fold tg; simpl.
  - rewrite od_keys_update. by apply od_keys_getitem_NoDup.
  - done.
  - apply od_update_Forall; simpl.
    + apply insert_ascending; [done|].
      intros y Hy Hk. apply Hno. by exists y.
    + apply od_getitem_Forall; [apply ascending_nil|done].
  - apply od_update_Forall; simpl.
    + apply Forall_forall. intros a Ha.
      rewrite list_insert_at_perm in Ha. apply elem_of_cons in Ha as [->|Ha]; [done|].
      by eapply (consistent_bucket s Active).
    + apply od_getitem_Forall; [by constructor|done].
  - done.
Qed.

Lemma present_stored_other conn s sg tg :
  present Active s sg tg → present Active (stored conn s) sg tg.
Proof.
  intros (a & Ha & Hk). exists a. split; [|done].
  destruct (decide (tgid (deref s conn) = tg)) as [<-|Hne].
  - rewrite bucket_stored, list_insert_at_perm. by right.
  - by rewrite bucket_stored_ne.
Qed.

(** A run of [store_connection] over connections whose pairs are new
    and pairwise distinct stores them all. *)
Lemma store_all_fresh conns : ∀ s,
  well_formed s →
  NoDup ((λ a, (key_of s a, tgid (deref s a))) <$> conns) →
  (∀ a, a ∈ conns → ¬ present Active s (key_of s a) (tgid (deref s a))) →
  ∃ s', store_all conns s = Ret tt s' ∧ well_formed s' ∧
        all_connections s' ≡ₚ all_connections s ++ conns ∧
        heap s' = heap s ∧ logs s' = logs s ∧
        _disabled_conns s' = _disabled_conns s.
Proof.
  induction conns as [|conn conns IH]; intros s Hwf Hnd Hnew; simpl.
  - exists s. rewrite app_nil_r. by split_and!.
  - rewrite fmap_cons in Hnd. apply NoDup_cons in Hnd as [Hconn Hnd].
    assert (Hno : ¬ present Active s (key_of s conn) (tgid (deref s conn))).
    { apply Hnew. by left. }
    py_unfold. rewrite store_connection_fresh_run;
      [|by apply wf_bucket_ascending|done].
    destruct (IH (stored conn s)) as (s' & Hrun & Hwf' & Hperm & Hh & Hl & Hd).
    + by apply well_formed_stored.
    + done.
    + intros a Ha (x & Hx & Hk). change (key_of (stored conn s)) with (key_of s) in Hk.
      change (deref (stored conn s) a) with (deref s a) in Hx.
      destruct (decide (tgid (deref s conn) = tgid (deref s a))) as [Htg|Htg].
      * rewrite <- Htg, bucket_stored, list_insert_at_perm in Hx.
        apply elem_of_cons in Hx as [->|Hx].
        -- apply Hconn. apply list_elem_of_fmap. exists a.
           split; [by rewrite Hk, Htg|done].
        -- apply (Hnew a); [by right|]. exists x. by rewrite <- Htg.
      * rewrite bucket_stored_ne in Hx by done.
        apply (Hnew a); [by right|]. by exists x.
    + exists s'. split_and!; [done|done| |done|done|done].
      rewrite Hperm, all_connections_stored. simpl.
      by rewrite <- Permutation_middle.
Qed.

Lemma well_formed_empty objects : well_formed (empty_manager objects).
Proof. split; simpl; by constructor. Qed.

(** C1.  Starting from an empty manager, any sequence of
    [store_connection] calls whose (sgid, tgid) pairs are pairwise
    distinct returns normally, logs nothing, and leaves an index whose
    [all_connections()] yields every stored connection exactly once (it
    is a permutation of the sequence) and whose buckets are in strictly
    ascending order of [sgid], each connection in the bucket of its
    [tgid]. *)
Theorem store_all_once_and_ascending (objects : list Connection) (conns : list Addr) :
  NoDup ((λ a, (key_of (empty_manager objects) a,
                tgid (deref (empty_manager objects) a))) <$> conns) →
  ∃ s', store_all conns (empty_manager objects) = Ret tt s' ∧
        all_connections s' ≡ₚ conns ∧
        Forall (λ e, ascending (key_of s') e.2) (_connections_map s') ∧
        well_formed s' ∧ logs s' = [] ∧ heap s' = objects.
Proof.
  intros Hnd.
  destruct (store_all_fresh conns (empty_manager objects))
    as (s' & Hrun & Hwf & Hperm & Hh & Hl & _).
  - apply well_formed_empty.
  - done.
  - intros a _ (x & Hx & _). by apply elem_of_nil in Hx.
  - exists s'. split_and!; [done|done|apply (wf_ascending s' Hwf)|done|done|done].
Qed.

(** C2.  In a well-formed state, [store_connection] of a connection
    whose (sgid, tgid) pair is already in the active index returns
    normally and changes nothing but the log, which gets one error
    record: both indices (hence the size of the bucket and the object it
    holds for the pair) and the objects are as before. *)
Theorem store_duplicate_noop (s : State) (conn : Addr) :
  well_formed s →
  present Active s (key_of s conn) (tgid (deref s conn)) →
  ∃ s', store_connection conn s = Ret tt s' ∧
        _connections_map s' = _connections_map s ∧
        _disabled_conns s' = _disabled_conns s ∧
        heap s' = heap s ∧
        logs s' = logs s ++ [Log ERROR "Attempt to store existing connection: %d->%d"
                                [key_of s conn; tgid (deref s conn)]].
Proof.
  intros Hwf Hyes. eexists. split.
  - apply store_connection_dup_run; [by apply wf_bucket_ascending|done].
  - done.
Qed.

Lemma well_formed_examples_manager : well_formed examples.manager.
Proof.
  split; simpl.
  - apply (bool_decide_unpack _). by vm_compute.
  - constructor.
  - repeat constructor; apply (bool_decide_unpack _); by vm_compute.
  - repeat constructor.
  - constructor.
Qed.

Lemma store_duplicate_noop_witness :
  ∃ s', store_connection 3%nat examples.manager = Ret tt s' ∧
        _connections_map s' = _connections_map examples.manager ∧
        _disabled_conns s' = _disabled_conns examples.manager ∧
        heap s' = heap examples.manager ∧
        logs s' = logs examples.manager ++
                  [Log ERROR "Attempt to store existing connection: %d->%d" [1; 10]].
Proof.
  apply (store_duplicate_noop examples.manager 3%nat).
  - apply well_formed_examples_manager.
  - exists 0%nat. split; [by left|reflexivity].
Defined.

Lemma bucket_assign_run w tg b s :
  bucket_assign w tg b s = Ret tt (with_bucket w tg b s).
Proof. done. Qed.

Lemma bucket_del_run w tg i a s :
  bucket w tg s !! i = Some a →
  bucket_del w tg i s = Ret tt (with_bucket w tg (base.delete i (bucket w tg s)) s).
Proof. intros Ha. unfold bucket_del, list_pop. py_unfold. by rewrite Ha. Qed.

Lemma bucket_pop_run w tg i a s :
  bucket w tg s !! i = Some a →
  bucket_pop w tg i s = Ret a (with_bucket w tg (base.delete i (bucket w tg s)) s).
Proof. intros Ha. unfold bucket_pop, list_pop. py_unfold. by rewrite Ha. Qed.

Lemma bucket_append_run w tg c s :
  bucket_append w tg c s = Ret tt (with_bucket w tg (bucket w tg s ++ [c]) s).
Proof. done. Qed.

Lemma call_method_run a f s : call_method a f s = Ret tt (with_object a f s).
Proof. done. Qed.

Lemma logging_run lvl msg args s :
  connection_manager.logging lvl msg args s = Ret tt (logged lvl msg args s).
Proof. done. Qed.

Lemma bucket_with_bucket w tg b s :
  is_Some (od_lookup (conn_map w s) tg) → bucket w tg (with_bucket w tg b s) = b.
Proof.
  intros H. unfold bucket, with_bucket.
  by rewrite conn_map_set, od_lookup_update_eq.
Qed.

Lemma bucket_with_bucket_ne w tg tg' b s :
  tg ≠ tg' → bucket w tg' (with_bucket w tg b s) = bucket w tg' s.
Proof.
  intros H. unfold bucket, with_bucket.
  by rewrite conn_map_set, od_lookup_update_ne.
Qed.

Lemma bucket_with_bucket_other w w' tg tg' b s :
  w ≠ w' → bucket w' tg' (with_bucket w tg b s) = bucket w' tg' s.
Proof. intros H. unfold bucket, with_bucket. by rewrite conn_map_set_ne. Qed.

Lemma conn_map_with_bucket_other w w' tg b s :
  w ≠ w' → conn_map w' (with_bucket w tg b s) = conn_map w' s.
Proof. intros H. unfold with_bucket. by rewrite conn_map_set_ne. Qed.

Lemma with_bucket_with_bucket w tg b b' s :
  with_bucket w tg b' (with_bucket w tg b s) = with_bucket w tg b' s.
Proof.
  unfold with_bucket. by rewrite conn_map_set, od_update_update, set_conn_map_set.
Qed.

Lemma with_bucket_id w tg s :
  with_bucket w tg (bucket w tg s) s = s.
Proof.
  unfold with_bucket, bucket.
  destruct (od_lookup (conn_map w s) tg) as [b|] eqn:Hb; simpl.
  - rewrite od_update_id by done. apply set_conn_map_id.
  - rewrite od_update_absent by done. apply set_conn_map_id.
Qed.

Lemma heap_with_bucket w tg b s : heap (with_bucket w tg b s) = heap s.
Proof. apply heap_set_conn_map. Qed.

Lemma logs_with_bucket w tg b s : logs (with_bucket w tg b s) = logs s.
Proof. apply logs_set_conn_map. Qed.

Lemma key_of_with_bucket w tg b s : key_of (with_bucket w tg b s) = key_of s.
Proof. apply key_of_set_conn_map. Qed.

Lemma deref_with_bucket w tg b s a : deref (with_bucket w tg b s) a = deref s a.
Proof. apply deref_set_conn_map. Qed.

Lemma stored_with_bucket conn s :
  let tg := tgid (deref s conn) in
  stored conn s =
  with_bucket Active tg
    (list_insert_at (position s (key_of s conn) tg) conn (bucket Active tg s))
    (touched Active tg s).
Proof. done. Qed.

Lemma heap_touched w tg s : heap (touched w tg s) = heap s.
Proof. apply heap_set_conn_map. Qed.

Lemma logs_touched w tg s : logs (touched w tg s) = logs s.
Proof. apply logs_set_conn_map. Qed.

Lemma conn_map_touched_other w w' tg s :
  w ≠ w' → conn_map w' (touched w tg s) = conn_map w' s.
Proof. intros. unfold touched. by rewrite conn_map_set_ne. Qed.

Lemma all_connections_touched tg s :
  all_connections (touched Active tg s) = all_connections s.
Proof. unfold all_connections, touched. simpl. apply od_values_getitem. Qed.

Lemma bucket_touched_any w tg tg' s :
  bucket w tg' (touched w tg s) = bucket w tg' s.
Proof.
  destruct (decide (tg = tg')) as [->|Hne];
    [apply bucket_touched|by apply bucket_touched_ne].
Qed.

(** [delete] of a pair that is not in the index: a warning, and the
    state that looking its bucket up leaves. *)
Lemma delete_absent_run sg tg s :
  ascending (key_of s) (bucket Active tg s) →
  ¬ present Active s sg tg →
  delete sg tg s =
  Ret tt (logged WARNING "Non-existing connection to disable: %d->%d" [sg; tg]
            (touched Active tg s)).
Proof.
  intros Hasc Hno. unfold delete. py_unfold.
  rewrite find_connection_run by done. simpl.
  by rewrite exact_index_absent.
Qed.

(** C8 (as amended).  In a well-formed state, [delete] of a pair that is
    not in the active index returns normally and logs one warning; the
    objects, the disabled index, the content of every bucket and what
    [all_connections()] yields are unchanged.  The active dictionary is
    unchanged when the gid already has a bucket; otherwise looking the
    bucket up has added an empty one for the gid. *)
Theorem delete_absent_keeps_connections (s : State) (sg tg : Z) :
  well_formed s →
  ¬ present Active s sg tg →
  ∃ s', delete sg tg s = Ret tt s' ∧
        heap s' = heap s ∧
        _disabled_conns s' = _disabled_conns s ∧
        logs s' = logs s ++ [Log WARNING "Non-existing connection to disable: %d->%d"
                               [sg; tg]] ∧
        all_connections s' = all_connections s ∧
        (∀ t, bucket Active t s' = bucket Active t s) ∧
        _connections_map s' =
          match od_lookup (_connections_map s) tg with
          | Some _ => _connections_map s
          | None => _connections_map s ++ [(tg, [])]
          end.
Proof.
  intros Hwf Hno. eexists. split.
  - apply delete_absent_run; [by apply wf_bucket_ascending|done].
  - split_and!; try done.
    + apply all_connections_touched.
    + intros t. apply (bucket_touched_any Active).
    + unfold logged, touched, od_getitem. simpl.
      by destruct (od_lookup (_connections_map s) tg).
Qed.

(** *** Objects changed through a reference *)

Lemma conn_map_with_object w a f s : conn_map w (with_object a f s) = conn_map w s.
Proof. by destruct w. Qed.

Lemma bucket_with_object w tg a f s : bucket w tg (with_object a f s) = bucket w tg s.
Proof. by destruct w. Qed.

Lemma logs_with_object a f s : logs (with_object a f s) = logs s.
Proof. done. Qed.

Lemma heap_with_object a f s : heap (with_object a f s) = alter f a (heap s).
Proof. done. Qed.

Lemma deref_with_object_sgid a b s a' :
  sgid (deref (with_object a (Connection_set_disabled b) s) a') = sgid (deref s a').
Proof.
  unfold deref. rewrite heap_with_object.
  destruct (decide (a = a')) as [->|Hne].
  - rewrite list_lookup_alter_eq. destruct (heap s !! a'); reflexivity.
  - by rewrite list_lookup_alter_ne.
Qed.

Lemma deref_with_object_tgid a b s a' :
  tgid (deref (with_object a (Connection_set_disabled b) s) a') = tgid (deref s a').
Proof.
  unfold deref. rewrite heap_with_object.
  destruct (decide (a = a')) as [->|Hne].
  - rewrite list_lookup_alter_eq. destruct (heap s !! a'); reflexivity.
  - by rewrite list_lookup_alter_ne.
Qed.

Lemma key_of_with_object a b s a' :
  key_of (with_object a (Connection_set_disabled b) s) a' = key_of s a'.
Proof. apply deref_with_object_sgid. Qed.

Lemma ascending_ext {A} (f g : A → Z) (l : list A) :
  (∀ x, f x = g x) → ascending f l → ascending g l.
Proof.
  intros Hfg. unfold ascending.
  by rewrite (list_fmap_ext f g l) by (intros; apply Hfg).
Qed.

Lemma alter_set_disabled_twice a b b' (h : list Connection) :
  alter (Connection_set_disabled b') a (alter (Connection_set_disabled b) a h) =
  alter (Connection_set_disabled b') a h.
Proof.
  rewrite list_alter_alter_eq. by apply list_alter_ext.
Qed.

Lemma alter_set_disabled_same a (h : list Connection) :
  disabled (default null_connection (h !! a)) = false →
  alter (Connection_set_disabled false) a h = h.
Proof.
  intros Hd. apply list_eq. intros j.
  destruct (decide (a = j)) as [->|Hne].
  - rewrite list_lookup_alter_eq. destruct (h !! j) as [c|]; [|done].
    simpl in *. destruct c. simpl in Hd. by subst.
  - by rewrite list_lookup_alter_ne.
Qed.

(** Without the element at [i], no key of an ordered bucket is its key. *)
Lemma ascending_delete_key {A} (keyf : A → Z) (l : list A) (i : nat) (x y : A) :
  ascending keyf l → l !! i = Some x → y ∈ base.delete i l → keyf y ≠ keyf x.
Proof.
  intros Hasc Hx [j Hj]%list_elem_of_lookup.
  destruct (decide (j < i)%nat) as [Hlt|Hge].
  - rewrite list_lookup_delete_lt in Hj by done.
    pose proof (ascending_lookup_lt keyf l j i y x Hasc Hj Hx Hlt). lia.
  - rewrite list_lookup_delete_ge in Hj by lia.
    pose proof (ascending_lookup_lt keyf l i (S j) x y Hasc Hx Hj ltac:(lia)). lia.
Qed.

(** The loop of [enable] passes over the connections of other sources. *)
Lemma enable_loop_skip sg tg (pre rest : list Addr) : ∀ (i : nat) s,
  (∀ c, c ∈ pre → key_of s c ≠ sg) →
  enable_loop sg tg i (pre ++ rest) s = enable_loop sg tg (i + length pre) rest s.
Proof.
  induction pre as [|c pre IH]; intros i s Hpre; simpl.
  - by rewrite Nat.add_0_r.
  - py_unfold. change (sgid (deref s c)) with (key_of s c).
    rewrite bool_decide_eq_false_2 by (apply Hpre; by left).
    rewrite IH by (intros; apply Hpre; by right). f_equal. lia.
Qed.

(** C3 (as amended).  In a well-formed state in which the connection [a]
    of the pair (sg, tg) is in the active index and the pair is not in
    the disabled index, [disable] followed by [enable] return normally;
    in between the pair is in the disabled index and not in the active
    one; at the end the active dictionary is the one before, [a] is back
    in its bucket, the pair is not in the disabled index (whose buckets
    hold what they held), nothing was logged, and the objects are as
    before except that the disabled flag of [a] is cleared, so they are
    exactly as before when [a] was not flagged. *)
Theorem disable_then_enable_restores (s : State) (sg tg : Z) (a : Addr) (z : bool) :
  well_formed s →
  a ∈ bucket Active tg s → key_of s a = sg →
  ¬ present Disabled s sg tg →
  ∃ s1 s2,
    disable sg tg z s = Ret tt s1 ∧
    ¬ present Active s1 sg tg ∧ a ∈ bucket Disabled tg s1 ∧
    enable sg tg s1 = Ret tt s2 ∧
    _connections_map s2 = _connections_map s ∧
    a ∈ bucket Active tg s2 ∧
    ¬ present Disabled s2 sg tg ∧
    (∀ t, bucket Disabled t s2 = bucket Disabled t s) ∧
    heap s2 = alter (Connection_set_disabled false) a (heap s) ∧
    (disabled (deref s a) = false → heap s2 = heap s) ∧
    logs s2 = logs s.
Proof.
  intros Hwf Ha Hk Hno.
  pose proof (wf_bucket_ascending s tg Hwf) as Hasc.
  pose proof (wf_bucket_tgid s Active tg a Hwf Ha) as Htg.
  destruct (exact_index_present s sg tg a Hasc Ha Hk) as [Hidx Hpos].
  set (i := position s sg tg) in *.
  set (b := bucket Active tg s) in *.
  set (bd := bucket Disabled tg s) in *.
  pose proof (bucket_nonempty_lookup _ _ _ _ Ha) as Hlook. fold b in Hlook.
  (* the run of [disable] *)
  set (s2 := with_bucket Active tg (base.delete i b) s).
  set (s3 := touched Disabled tg s2).
  set (s4 := with_bucket Disabled tg (bd ++ [a]) s3).
  set (s5 := with_object a (Connection_set_disabled true) s4).
  assert (Hdis : disable sg tg z s = Ret tt s5).
  { unfold disable. py_unfold. rewrite find_connection_run by done.
    py_step. rewrite Hidx. rewrite touched_present by (rewrite Hlook; eauto).
    rewrite (bucket_pop_run Active tg i a) by done. py_step.
    rewrite map_getitem_run. py_step. rewrite bucket_append_run. py_step.
    rewrite call_method_run. rewrite bucket_touched.
    by rewrite (bucket_with_bucket_other Active Disabled). }
  assert (Hkey5 : ∀ x, key_of s5 x = key_of s x).
  { intros x. unfold s5. by rewrite key_of_with_object. }
  assert (Hact5 : bucket Active tg s5 = base.delete i b).
  { unfold s5, s4, s3. rewrite bucket_with_object.
    rewrite (bucket_with_bucket_other Disabled Active) by done.
    unfold touched. unfold bucket at 1. rewrite conn_map_set_ne by done.
    change (bucket Active tg s2 = base.delete i b).
    unfold s2. rewrite bucket_with_bucket; [done|]. rewrite Hlook. eauto. }
  assert (Hdis5 : bucket Disabled tg s5 = bd ++ [a]).
  { unfold s5, s4. rewrite bucket_with_object.
    rewrite bucket_with_bucket; [done|].
    unfold s3, touched. rewrite conn_map_set, od_getitem_lookup. eauto. }
  assert (Hasc5 : ascending (key_of s5) b).
  { eapply ascending_ext; [|exact Hasc]. intros x. by rewrite Hkey5. }
  assert (Hfresh : ∀ y, y ∈ base.delete i b → key_of s5 y ≠ key_of s5 a).
  { intros y Hy. by eapply ascending_delete_key. }
  (* the run of [enable] *)
  set (s6 := with_bucket Active tg b s5).
  set (s7 := with_bucket Disabled tg bd s6).
  set (s8 := with_object a (Connection_set_disabled false) s7).
  assert (Htg5 : tgid (deref s5 a) = tg).
  { unfold s5. by rewrite deref_with_object_tgid. }
  assert (Hact5' : is_Some (od_lookup (conn_map Active s5) tg)).
  { unfold s5, s4, s3, s2. rewrite conn_map_with_object.
    rewrite conn_map_with_bucket_other, conn_map_touched_other by done.
    unfold with_bucket. rewrite conn_map_set.
    rewrite od_lookup_update_eq; [eauto|]. rewrite Hlook. eauto. }
  assert (Hstore : store_connection a s5 = Ret tt s6).
  { rewrite store_connection_fresh_run.
    - rewrite stored_with_bucket. rewrite Htg5.
      rewrite touched_present by done. rewrite Hact5.
      unfold position. rewrite Hact5.
      by rewrite (insert_delete (key_of s5) b i a Hasc5 Hpos).
    - rewrite Htg5, Hact5. by apply delete_ascending.
    - rewrite Htg5. intros (y & Hy & Hky). rewrite Hact5 in Hy.
      by apply (Hfresh y). }
  assert (Hen : enable sg tg s5 = Ret tt s8).
  { unfold enable. py_unfold. rewrite map_getitem_run.
    rewrite touched_present.
    2:{ unfold s5, s4. rewrite conn_map_with_object. unfold with_bucket.
        rewrite conn_map_set. rewrite od_lookup_update_eq; [eauto|].
        unfold s3, touched. rewrite conn_map_set, od_getitem_lookup. eauto. }
    rewrite Hdis5. rewrite enable_loop_skip.
    2:{ intros c Hc Hkc. apply Hno. exists c. split; [done|]. by rewrite <- Hkey5. }
    simpl. py_unfold. change (sgid (deref s5 a)) with (key_of s5 a).
    rewrite bool_decide_eq_true_2 by (by rewrite Hkey5).
    rewrite Hstore.
    rewrite (bucket_del_run Disabled tg (length bd) a).
    2:{ unfold s6. rewrite (bucket_with_bucket_other Active Disabled) by done.
        rewrite Hdis5. by rewrite lookup_app_r, Nat.sub_diag by done. }
    rewrite call_method_run. unfold s6 at 1.
    rewrite (bucket_with_bucket_other Active Disabled) by done.
    rewrite Hdis5. fold s6.
    replace (base.delete (length bd) (bd ++ [a])) with bd; [done|].
    rewrite delete_take_drop, take_app_length'  by done.
    rewrite (drop_ge (bd ++ [a])) by (rewrite length_app; simpl; lia).
    by rewrite app_nil_r. }
  assert (Hmap8 : _connections_map s8 = _connections_map s).
  { unfold s8, s7, s6, s5, s4, s3, s2, with_object, with_bucket, touched. simpl.
    rewrite od_update_update. by apply od_update_id. }
  assert (Hd8 : _disabled_conns s8 = (od_getitem (_disabled_conns s) tg).2).
  { unfold s8, s7, s6, s5, s4, s3, s2, with_object, with_bucket, touched. simpl.
    rewrite od_update_update. apply od_update_id.
    rewrite od_getitem_lookup. by rewrite od_getitem_fst. }
  assert (Hbd8 : ∀ t, bucket Disabled t s8 = bucket Disabled t s).
  { intros t. unfold bucket.
    change (conn_map Disabled s8) with (_disabled_conns s8). rewrite Hd8.
    change (conn_map Disabled s) with (_disabled_conns s).
    destruct (decide (tg = t)) as [->|Hne].
    - by rewrite od_getitem_lookup, od_getitem_fst.
    - by rewrite od_getitem_lookup_ne. }
  assert (Hheap8 : heap s8 = alter (Connection_set_disabled false) a (heap s)).
  { unfold s8, s7, s6, s5, s4, s3, s2, with_object, with_bucket, touched. simpl.
    apply alter_set_disabled_twice. }
  exists s5, s8. split_and!; try done.
  - intros (y & Hy & Hky). rewrite Hact5 in Hy. apply (Hfresh y Hy).
    by rewrite Hky, Hkey5.
  - rewrite Hdis5. apply elem_of_app. right. by left.
  - unfold bucket. change (conn_map Active s8) with (_connections_map s8).
    rewrite Hmap8. by apply Ha.
  - intros (y & Hy & Hky). apply Hno. exists y. rewrite Hbd8 in Hy.
    split; [done|]. rewrite <- Hky. unfold s8, s7, s6.
    by rewrite key_of_with_object, !key_of_with_bucket, Hkey5.
  - intros Hflag. rewrite Hheap8. by apply alter_set_disabled_same.
Qed.

Lemma disable_then_enable_restores_witness :
  ∃ s1 s2,
    disable 1 10 false examples.manager = Ret tt s1 ∧
    ¬ present Active s1 1 10 ∧ 0%nat ∈ bucket Disabled 10 s1 ∧
    enable 1 10 s1 = Ret tt s2 ∧
    _connections_map s2 = _connections_map examples.manager ∧
    0%nat ∈ bucket Active 10 s2 ∧
    ¬ present Disabled s2 1 10 ∧
    (∀ t, bucket Disabled t s2 = bucket Disabled t examples.manager) ∧
    heap s2 = alter (Connection_set_disabled false) 0%nat (heap examples.manager) ∧
    (disabled (deref examples.manager 0%nat) = false → heap s2 = heap examples.manager) ∧
    logs s2 = logs examples.manager.
Proof.
  apply (disable_then_enable_restores examples.manager 1 10 0%nat false).
  - apply well_formed_examples_manager.
  - by left.
  - reflexivity.
  - intros (a & Ha & _). by apply elem_of_nil in Ha.
Defined.

(** C3 (counterexample).  Store the connection at address 0 for the pair
    (1, 10), disable it, and store the connection at address 3 for the
    same pair: [store_connection] does not look at the disabled index,
    so the pair is now in both.  In that state the pair is in the active
    index, yet [disable] followed by [enable] brings back the connection
    at 0, not the one at 3 that was active, and the pair is still in the
    disabled index. *)
Lemma disable_enable_wrong_connection :
  ∃ s, (store_connection 0%nat;; disable 1 10 false;; store_connection 3%nat)
         (empty_manager examples.objects) = Ret tt s ∧
       bucket Active 10 s = [3%nat] ∧ key_of s 3%nat = 1 ∧
       bucket Disabled 10 s = [0%nat] ∧ key_of s 0%nat = 1 ∧
       ∃ s', (disable 1 10 false;; enable 1 10) s = Ret tt s' ∧
             bucket Active 10 s' = [0%nat] ∧
             bucket Disabled 10 s' = [3%nat] ∧
             key_of s' 0%nat = 1 ∧ key_of s' 3%nat = 1 ∧
             weight_factor (deref s 3%nat) = 2%float ∧
             weight_factor (deref s' 0%nat) = 1%float.
Proof.
  eexists. split; [vm_compute; reflexivity|].
  split_and!; try reflexivity.
  eexists. split; [vm_compute; reflexivity|].
  split_and!; reflexivity.
Qed.

Lemma store_all_once_and_ascending_witness :
  ∃ s', store_all [2; 0; 4; 1]%nat (empty_manager examples.objects) = Ret tt s' ∧
        all_connections s' ≡ₚ [2; 0; 4; 1]%nat ∧
        Forall (λ e, ascending (key_of s') e.2) (_connections_map s') ∧
        well_formed s' ∧ logs s' = [] ∧ heap s' = examples.objects.
Proof.
  apply (store_all_once_and_ascending examples.objects [2; 0; 4; 1]%nat).
  apply (bool_decide_unpack _). by vm_compute.
Defined.

Lemma delete_absent_keeps_connections_witness :
  ∃ s', delete 5 10 examples.manager = Ret tt s' ∧
        heap s' = heap examples.manager ∧
        _disabled_conns s' = _disabled_conns examples.manager ∧
        logs s' = logs examples.manager ++
                  [Log WARNING "Non-existing connection to disable: %d->%d" [5; 10]] ∧
        all_connections s' = all_connections examples.manager ∧
        (∀ t, bucket Active t s' = bucket Active t examples.manager) ∧
        _connections_map s' =
          match od_lookup (_connections_map examples.manager) 10 with
          | Some _ => _connections_map examples.manager
          | None => _connections_map examples.manager ++ [(10, [])]
          end.
Proof.
  apply (delete_absent_keeps_connections examples.manager 5 10).
  - apply well_formed_examples_manager.
  - intros (a & Ha & Hk). vm_compute in Ha.
    repeat (apply elem_of_cons in Ha as [->|Ha]; [by vm_compute in Hk|]).
    by apply elem_of_nil in Ha.
Defined.

(** C8 (counterexample).  On an empty manager the pair (1, 10) is not in
    the index, and [delete 1 10] leaves an active dictionary that has a
    bucket for gid 10: the state of the index is not the one before. *)
Lemma delete_absent_changes_dictionary :
  ¬ present Active (empty_manager []) 1 10 ∧
  ∃ s', delete 1 10 (empty_manager []) = Ret tt s' ∧
        _connections_map s' = [(10, [])] ∧
        _connections_map s' ≠ _connections_map (empty_manager []).
Proof.
  split.
  - intros (a & Ha & _). by apply elem_of_nil in Ha.
  - eexists. split; [reflexivity|]. split; [reflexivity|]. discriminate.
Qed.

(** *** Objects made and changed while connections are created *)

Lemma preserves_ids_set_disabled b : preserves_ids (Connection_set_disabled b).
Proof. by intros []. Qed.

Lemma preserves_ids_add_synapse point params i :
  preserves_ids (Connection_add_synapse point params i).
Proof. by intros []. Qed.

Lemma deref_with_object_ne a f s a' :
  a ≠ a' → deref (with_object a f s) a' = deref s a'.
Proof.
  intros Hne. unfold deref. by rewrite heap_with_object, list_lookup_alter_ne.
Qed.

Lemma deref_with_object_eq a f s :
  (a < length (heap s))%nat → deref (with_object a f s) a = f (deref s a).
Proof.
  intros [c Hc]%lookup_lt_is_Some_2. unfold deref.
  by rewrite heap_with_object, list_lookup_alter_eq, Hc.
Qed.

Lemma length_heap_with_object a f s :
  length (heap (with_object a f s)) = length (heap s).
Proof. by rewrite heap_with_object, length_alter. Qed.

Lemma key_of_with_object_ids a f s a' :
  preserves_ids f → key_of (with_object a f s) a' = key_of s a'.
Proof.
  intros Hf. unfold key_of, deref. rewrite heap_with_object.
  destruct (decide (a = a')) as [->|Hne].
  - rewrite list_lookup_alter_eq. destruct (heap s !! a'); simpl; [apply Hf|done].
  - by rewrite list_lookup_alter_ne.
Qed.

Lemma tgid_with_object_ids a f s a' :
  preserves_ids f → tgid (deref (with_object a f s) a') = tgid (deref s a').
Proof.
  intros Hf. unfold deref. rewrite heap_with_object.
  destruct (decide (a = a')) as [->|Hne].
  - rewrite list_lookup_alter_eq. destruct (heap s !! a'); simpl; [apply Hf|done].
  - by rewrite list_lookup_alter_ne.
Qed.

Lemma ascending_ext_in {A} (f g : A → Z) (l : list A) :
  (∀ x, x ∈ l → f x = g x) → ascending f l → ascending g l.
Proof.
  intros Hfg. unfold ascending.
  rewrite (list_fmap_ext f g l); [done|].
  intros i x Hx. apply Hfg. by eapply list_elem_of_lookup_2.
Qed.

Lemma well_formed_with_object a f s :
  preserves_ids f → well_formed s → well_formed (with_object a f s).
Proof.
  intros Hf [Hk1 Hk2 Has Hc1 Hc2]. split; try done.
  - eapply Forall_impl; [exact Has|]. intros e He.
    eapply ascending_ext; [|exact He]. intros x.
    by rewrite key_of_with_object_ids.
  - eapply Forall_impl; [exact Hc1|]. intros e He.
    eapply Forall_impl; [exact He|]. intros x Hx. simpl in *.
    by rewrite tgid_with_object_ids.
  - eapply Forall_impl; [exact Hc2|]. intros e He.
    eapply Forall_impl; [exact He|]. intros x Hx. simpl in *.
    by rewrite tgid_with_object_ids.
Qed.

Lemma closed_with_object a f s : closed s → closed (with_object a f s).
Proof.
  intros Hc w. rewrite conn_map_with_object.
  eapply Forall_impl; [apply Hc|]. intros e He.
  eapply Forall_impl; [exact He|]. intros x Hx. cbv beta in *.
  by rewrite length_heap_with_object.
Qed.

Lemma closed_bucket s w tg a : closed s → a ∈ bucket w tg s → (a < length (heap s))%nat.
Proof.
  intros Hc Ha. pose proof (bucket_elem_of_map _ _ _ _ Ha) as Hin.
  specialize (Hc w). rewrite Forall_forall in Hc.
  specialize (Hc _ Hin). simpl in Hc. rewrite Forall_forall in Hc. by apply Hc.
Qed.

Lemma new_connection_run c s :
  new_connection c s = Ret (length (heap s)) (allocated c s).
Proof. done. Qed.

Lemma conn_map_allocated w c s : conn_map w (allocated c s) = conn_map w s.
Proof. by destruct w. Qed.

Lemma bucket_allocated w tg c s : bucket w tg (allocated c s) = bucket w tg s.
Proof. by destruct w. Qed.

Lemma length_heap_allocated c s :
  length (heap (allocated c s)) = S (length (heap s)).
Proof. unfold allocated. simpl. rewrite length_app. simpl. lia. Qed.

Lemma deref_allocated_old c s a :
  (a < length (heap s))%nat → deref (allocated c s) a = deref s a.
Proof. intros Ha. unfold deref, allocated. simpl. by rewrite lookup_app_l. Qed.

Lemma deref_allocated_new c s : deref (allocated c s) (length (heap s)) = c.
Proof.
  unfold deref, allocated. simpl.
  by rewrite lookup_app_r, Nat.sub_diag by done.
Qed.

Lemma closed_allocated c s : closed s → closed (allocated c s).
Proof.
  intros Hc w. rewrite conn_map_allocated.
  eapply Forall_impl; [apply Hc|]. intros e He.
  eapply Forall_impl; [exact He|]. intros x Hx. cbv beta in *.
  rewrite length_heap_allocated. lia.
Qed.

Lemma well_formed_allocated c s :
  well_formed s → closed s → well_formed (allocated c s).
Proof.
  intros [Hk1 Hk2 Has Hc1 Hc2] Hcl. split; try done.
  - pose proof (Hcl Active) as Hv. simpl in Hv.
    change (_connections_map (allocated c s)) with (_connections_map s).
    rewrite Forall_forall in *. intros e He.
    eapply ascending_ext_in; [|by apply Has]. intros x Hx. unfold key_of.
    rewrite deref_allocated_old; [done|].
    specialize (Hv e He). rewrite Forall_forall in Hv. by apply Hv.
  - pose proof (Hcl Active) as Hv. simpl in Hv.
    change (_connections_map (allocated c s)) with (_connections_map s).
    unfold consistent in *. rewrite Forall_forall in *. intros e He.
    specialize (Hv e He). specialize (Hc1 e He). rewrite Forall_forall in *.
    intros x Hx. rewrite deref_allocated_old; [by apply Hc1|by apply Hv].
  - pose proof (Hcl Disabled) as Hv. simpl in Hv.
    change (_disabled_conns (allocated c s)) with (_disabled_conns s).
    unfold consistent in *. rewrite Forall_forall in *. intros e He.
    specialize (Hv e He). specialize (Hc2 e He). rewrite Forall_forall in *.
    intros x Hx. rewrite deref_allocated_old; [by apply Hc2|by apply Hv].
Qed.

Lemma closed_stored conn s :
  closed s → (conn < length (heap s))%nat → closed (stored conn s).
Proof.
  intros Hc Hconn [|]; [|apply (Hc Disabled)].
  unfold stored. simpl. apply od_update_Forall; simpl.
  - apply Forall_forall. intros a Ha. rewrite list_insert_at_perm in Ha.
    apply elem_of_cons in Ha as [->|Ha]; [done|]. by eapply closed_bucket.
  - apply od_getitem_Forall; [by constructor|apply (Hc Active)].
Qed.

Lemma well_formed_logged lvl msg args s : well_formed s → well_formed (logged lvl msg args s).
Proof. by intros []. Qed.

Lemma closed_logged lvl msg args s : closed s → closed (logged lvl msg args s).
Proof. intros Hc [|]; [apply (Hc Active)|apply (Hc Disabled)]. Qed.

(** What [store_connection] does in a well-formed state. *)
Lemma store_connection_run conn s :
  let sg := key_of s conn in
  let tg := tgid (deref s conn) in
  ascending (key_of s) (bucket Active tg s) →
  store_connection conn s =
  Ret tt (match exact_index s sg tg with
          | Some _ =>
              logged ERROR "Attempt to store existing connection: %d->%d" [sg; tg] s
          | None => stored conn s
          end).
Proof.
  intros sg tg Hasc.
  destruct (exact_index s sg tg) as [i|] eqn:Hidx.
  - apply store_connection_dup_run; [done|].
    unfold exact_index in Hidx.
    destruct (bucket Active tg s !! position s sg tg) as [x|] eqn:Hx; [|done].
    case_bool_decide as Hk; [|done].
    exists x. split; [by eapply list_elem_of_lookup_2|done].
  - apply store_connection_fresh_run; [done|].
    intros (x & Hx & Hk).
    destruct (exact_index_present s sg tg x Hasc Hx Hk) as [Hsome _]. congruence.
Qed.

(** The body of the row loop when the row starts a new run: a new
    object is made and offered to the index, and gets the placement. *)
Lemma connect_row_fresh_run tg w i sg p cur created s :
  well_formed s → closed s →
  (∀ c, cur = Some c → key_of s c ≠ sg) →
  let c := length (heap s) in
  let s1 := allocated (Connection_init sg tg w None (Some NO_STDP) 0%float
                         (_synapse_mode s) None) s in
  let s2 := match exact_index s1 sg tg with
            | Some _ =>
                logged ERROR "Attempt to store existing connection: %d->%d" [sg; tg] s1
            | None => stored c s1
            end in
  connect_row tg w i sg p cur created s =
  Ret (c, created + 1) (with_object c (add_placement tg (i, sg, p)) s2).
Proof.
  intros Hwf Hcl Hcur c s1 s2. unfold connect_row. py_unfold.
  assert (Hfresh : match cur with
                   | Some c0 => bool_decide (sgid (deref s c0) ≠ sg)
                   | None => true
                   end = true).
  { destruct cur as [c0|]; [|done]. apply bool_decide_eq_true_2. by apply Hcur. }
  rewrite Hfresh. rewrite new_connection_run. fold s1 c.
  assert (Hc : deref s1 c = Connection_init sg tg w None (Some NO_STDP) 0%float
                              (_synapse_mode s) None) by apply deref_allocated_new.
  rewrite store_connection_run.
  - unfold key_of. rewrite Hc. cbn [sgid tgid Connection_init]. fold s2.
    by rewrite call_method_run.
  - rewrite Hc. cbn [tgid Connection_init].
    apply wf_bucket_ascending. by apply well_formed_allocated.
Qed.

(** The body of the row loop when the row continues the run of the
    current connection: only the placement is appended. *)
Lemma connect_row_same_run tg w i sg p c created s :
  key_of s c = sg →
  connect_row tg w i sg p (Some c) created s =
  Ret (c, created) (with_object c (add_placement tg (i, sg, p)) s).
Proof.
  intros Hk. unfold connect_row. py_unfold.
  change (sgid (deref s c)) with (key_of s c).
  rewrite bool_decide_eq_false_2 by (intros ?; done). py_step.
  by rewrite call_method_run.
Qed.

Lemma exact_index_None_absent s sg tg :
  ascending (key_of s) (bucket Active tg s) →
  exact_index s sg tg = None → ¬ present Active s sg tg.
Proof.
  intros Hasc Hnone (x & Hx & Hk).
  destruct (exact_index_present s sg tg x Hasc Hx Hk) as [Hsome _]. congruence.
Qed.

Lemma grows_refl tg cur s :
  well_formed s → closed s →
  (∀ c, cur = Some c → (c < length (heap s))%nat) →
  grows tg cur [] s cur s.
Proof. intros. split; eauto. Qed.

Lemma grows_trans tg cur cur1 cur2 sgs1 sgs2 s s1 s2 :
  grows tg cur sgs1 s cur1 s1 → grows tg cur1 sgs2 s1 cur2 s2 →
  grows tg cur (sgs1 ++ sgs2) s cur2 s2.
Proof.
  intros G1 G2. split.
  - apply G2.
  - apply G2.
  - rewrite (g_target _ _ _ _ _ _ G2). apply G1.
  - pose proof (g_heap _ _ _ _ _ _ G1). pose proof (g_heap _ _ _ _ _ _ G2). lia.
  - apply G2.
  - intros c Hc Hlt. apply (g_cur_old _ _ _ _ _ _ G1); [|done].
    apply (g_cur_old _ _ _ _ _ _ G2); [done|].
    pose proof (g_heap _ _ _ _ _ _ G1). lia.
  - destruct (g_cur_key _ _ _ _ _ _ G2) as [[-> ->]|(c & sg & -> & Hlast & Hk)].
    + rewrite app_nil_r. destruct (g_cur_key _ _ _ _ _ _ G1) as [?|(c & sg & ? & ? & Hk)].
      * by left.
      * right. exists c, sg. split_and!; [done|done|].
        rewrite <- Hk. apply (g_ids _ _ _ _ _ _ G2).
        by apply (g_cur_valid _ _ _ _ _ _ G1).
    + right. exists c, sg. split_and!; [done| |done].
      destruct sgs2 as [|x sgs2]; [done|].
      by rewrite last_app_cons.
  - intros a Ha Hcur. pose proof (g_heap _ _ _ _ _ _ G1).
    rewrite (g_deref _ _ _ _ _ _ G2); [by apply (g_deref _ _ _ _ _ _ G1)|lia|].
    intros Hc1. apply Hcur. by apply (g_cur_old _ _ _ _ _ _ G1).
  - intros a Ha. pose proof (g_heap _ _ _ _ _ _ G1).
    destruct (g_ids _ _ _ _ _ _ G1 a Ha) as [Hk1 Ht1].
    destruct (g_ids _ _ _ _ _ _ G2 a ltac:(lia)) as [Hk2 Ht2].
    split; congruence.
  - intros tg' a Ha. apply (g_mono _ _ _ _ _ _ G2), (g_mono _ _ _ _ _ _ G1), Ha.
  - intros tg' a Ha. pose proof (g_heap _ _ _ _ _ _ G1).
    destruct (g_new _ _ _ _ _ _ G2 tg' a Ha) as [Ha1|(Hlen & -> & Hin)].
    + destruct (g_new _ _ _ _ _ _ G1 tg' a Ha1) as [?|(Hlen & -> & Hin)]; [by left|].
      right. split_and!; [done|done|]. apply elem_of_app. left.
      pose proof (closed_bucket _ _ _ _ (g_closed _ _ _ _ _ _ G1) Ha1) as Hv.
      by rewrite (proj1 (g_ids _ _ _ _ _ _ G2 a Hv)).
    + right. split_and!; [lia|done|]. apply elem_of_app. by right.
  - intros l Hl. apply (g_logs _ _ _ _ _ _ G2), (g_logs _ _ _ _ _ _ G1), Hl.
Qed.

Lemma grows_with_object tg c sg f s :
  preserves_ids f → well_formed s → closed s →
  (c < length (heap s))%nat → key_of s c = sg →
  grows tg (Some c) [sg] s (Some c) (with_object c f s).
Proof.
  intros Hf Hwf Hcl Hc Hk. split.
  - by apply well_formed_with_object.
  - by apply closed_with_object.
  - done.
  - by rewrite length_heap_with_object.
  - intros c' [= <-]. by rewrite length_heap_with_object.
  - by intros c' [= <-] _.
  - right. exists c, sg. split_and!; [done|done|].
    by rewrite key_of_with_object_ids.
  - intros a Ha Hne. apply deref_with_object_ne. congruence.
  - intros a Ha. by rewrite key_of_with_object_ids, tgid_with_object_ids.
  - intros tg' a. by rewrite bucket_with_object.
  - intros tg' a. rewrite bucket_with_object. by left.
  - done.
Qed.

(** A pass of the row loop that starts a new run: no older object
    changes; the new object is stored with the placement of the row when
    its pair is not in the index, and an error is logged when it is. *)
Lemma connect_row_fresh_grows tg w i sg p cur created s :
  well_formed s → closed s →
  (∀ c, cur = Some c → key_of s c ≠ sg) →
  ∃ s',
    connect_row tg w i sg p cur created s = Ret (length (heap s), created + 1) s' ∧
    grows tg None [sg] s (Some (length (heap s))) s' ∧
    (present Active s sg tg →
       Log ERROR "Attempt to store existing connection: %d->%d" [sg; tg] ∈ logs s') ∧
    (¬ present Active s sg tg →
       length (heap s) ∈ bucket Active tg s' ∧
       synapse_params (deref s' (length (heap s))) = [placement tg (i, sg, p)]).
Proof.
  intros Hwf Hcl Hfresh.
  eexists. split; [by apply connect_row_fresh_run|].
  set (c := length (heap s)).
  set (s1 := allocated (Connection_init sg tg w None (Some NO_STDP) 0%float
                          (_synapse_mode s) None) s).
  assert (Hwf1 : well_formed s1) by (by apply well_formed_allocated).
  assert (Hcl1 : closed s1) by (by apply closed_allocated).
  assert (Hc1 : deref s1 c = Connection_init sg tg w None (Some NO_STDP) 0%float
                               (_synapse_mode s) None) by apply deref_allocated_new.
  assert (Hlen1 : length (heap s1) = S c) by apply length_heap_allocated.
  assert (Hkc : key_of s1 c = sg) by (unfold key_of; by rewrite Hc1).
  assert (Htc : tgid (deref s1 c) = tg) by (by rewrite Hc1).
  assert (Hasc1 : ascending (key_of s1) (bucket Active tg s1))
    by (by apply wf_bucket_ascending).
  assert (Hpres : present Active s1 sg tg ↔ present Active s sg tg).
  { assert (Hold : ∀ a, a ∈ bucket Active tg s → key_of s1 a = key_of s a).
    { intros a Ha. unfold key_of, s1. rewrite deref_allocated_old; [done|].
      by eapply closed_bucket. }
    split; intros (a & Ha & Hk); exists a; (split; [done|]).
    - rewrite <- Hk. symmetry. by apply Hold.
    - rewrite <- Hk. by apply Hold. }
  set (s2 := match exact_index s1 sg tg with
             | Some _ => logged ERROR "Attempt to store existing connection: %d->%d"
                           [sg; tg] s1
             | None => stored c s1
             end).
  assert (H2 : well_formed s2 ∧ closed s2 ∧ heap s2 = heap s1 ∧
               _circuit_target s2 = _circuit_target s ∧
               (∀ tg' a, a ∈ bucket Active tg' s → a ∈ bucket Active tg' s2) ∧
               (∀ tg' a, a ∈ bucket Active tg' s2 →
                         a ∈ bucket Active tg' s ∨ (a = c ∧ tg' = tg)) ∧
               (∀ l, l ∈ logs s → l ∈ logs s2) ∧
               (present Active s sg tg →
                  Log ERROR "Attempt to store existing connection: %d->%d" [sg; tg]
                    ∈ logs s2) ∧
               (¬ present Active s sg tg → c ∈ bucket Active tg s2)).
  { unfold s2. destruct (exact_index s1 sg tg) as [j|] eqn:Hidx.
    - split_and!.
      + by apply well_formed_logged.
      + by apply closed_logged.
      + done.
      + done.
      + done.
      + intros tg' a Ha. by left.
      + intros l Hl. unfold logged. simpl. apply elem_of_app. by left.
      + intros _. unfold logged. simpl. apply elem_of_app. right. by left.
      + intros Hno. rewrite <- Hpres in Hno.
        by rewrite (exact_index_absent _ _ _ Hno) in Hidx.
    - pose proof (exact_index_None_absent _ _ _ Hasc1 Hidx) as Hno1.
      split_and!.
      + apply well_formed_stored; [done|]. by rewrite Hkc, Htc.
      + apply closed_stored; [done|lia].
      + done.
      + done.
      + intros tg' a Ha.
        change (bucket Active tg' s) with (bucket Active tg' s1) in Ha.
        destruct (decide (tgid (deref s1 c) = tg')) as [<-|Hne].
        * rewrite bucket_stored, list_insert_at_perm. by right.
        * by rewrite bucket_stored_ne.
      + intros tg' a Ha. destruct (decide (tgid (deref s1 c) = tg')) as [<-|Hne].
        * rewrite bucket_stored, list_insert_at_perm in Ha.
          apply elem_of_cons in Ha as [->|Ha]; [by right|]. by left.
        * rewrite bucket_stored_ne in Ha by done. by left.
      + done.
      + intros Hyes. by apply Hpres in Hyes.
      + intros _. rewrite <- Htc, bucket_stored, list_insert_at_perm. by left. }
  destruct H2 as (Hwf2 & Hcl2 & Hh2 & Ht2 & Hmono2 & Hnew2 & Hlogs2 & Herr2 & Hin2).
  assert (Hd2 : ∀ a, deref s2 a = deref s1 a).
  { intros a. unfold deref. by rewrite Hh2. }
  split_and!.
  - split.
    + by apply well_formed_with_object, Hwf2.
    + by apply closed_with_object.
    + done.
    + rewrite length_heap_with_object, Hh2, Hlen1. lia.
    + intros c' [= <-]. rewrite length_heap_with_object, Hh2, Hlen1. lia.
    + intros c' [= <-] Hlt. fold c in Hlt. lia.
    + right. exists c, sg. split_and!; [done|done|].
      rewrite key_of_with_object_ids by apply preserves_ids_add_synapse.
      unfold key_of. by rewrite Hd2, Hc1.
    + intros a Ha Hne. rewrite deref_with_object_ne by (fold c in Ha; lia).
      rewrite Hd2. by apply deref_allocated_old.
    + intros a Ha.
      rewrite key_of_with_object_ids, tgid_with_object_ids
        by apply preserves_ids_add_synapse.
      unfold key_of. rewrite Hd2. unfold s1. by rewrite deref_allocated_old.
    + intros tg' a Ha. rewrite bucket_with_object. by apply Hmono2.
    + intros tg' a Ha. rewrite bucket_with_object in Ha.
      destruct (Hnew2 tg' a Ha) as [?|[-> ->]]; [by left|]. right.
      split_and!; [done|done|].
      rewrite key_of_with_object_ids by apply preserves_ids_add_synapse.
      unfold key_of. rewrite Hd2, Hc1. by left.
    + intros l Hl. by apply Hlogs2.
  - intros Hyes. rewrite logs_with_object. by apply Herr2.
  - intros Hno. split.
    + rewrite bucket_with_object. by apply Hin2.
    + rewrite deref_with_object_eq by (rewrite Hh2, Hlen1; fold c; lia).
      by rewrite Hd2, Hc1.
Qed.

(** What started from no current connection may as well have started
    from any, when the current connection at the end is a new object. *)
Lemma grows_from_any tg cur sgs s c s' :
  grows tg None sgs s (Some c) s' → (length (heap s) ≤ c)%nat →
  grows tg cur sgs s (Some c) s'.
Proof.
  intros G Hc. split; try apply G.
  - intros c' [= <-] Hlt. lia.
  - destruct (g_cur_key _ _ _ _ _ _ G) as [[? _]|?]; [done|by right].
  - intros a Ha _. by apply (g_deref _ _ _ _ _ _ G).
Qed.

(** One pass of the row loop. *)
Lemma connect_row_grows tg w i sg p cur created s :
  well_formed s → closed s →
  (∀ c, cur = Some c → (c < length (heap s))%nat) →
  ∃ c' created' s',
    connect_row tg w i sg p cur created s = Ret (c', created') s' ∧
    grows tg cur [sg] s (Some c') s'.
Proof.
  intros Hwf Hcl Hcur.
  assert (Hcase : (∃ c, cur = Some c ∧ key_of s c = sg) ∨
                  (∀ c, cur = Some c → key_of s c ≠ sg)).
  { destruct cur as [c|]; [|by right].
    destruct (decide (key_of s c = sg)) as [Hk|Hk]; [left; eauto|].
    right. by intros c' [= <-]. }
  destruct Hcase as [(c & -> & Hk)|Hfresh].
  - eexists _, _, _. split; [by apply connect_row_same_run|].
    apply grows_with_object; eauto using preserves_ids_add_synapse.
  - destruct (connect_row_fresh_grows tg w i sg p cur created s Hwf Hcl Hfresh)
      as (s' & Hrun & G & _).
    eexists _, _, _. split; [exact Hrun|]. by apply grows_from_any.
Qed.

(** The row loop, over any rows. *)
Lemma connect_kept_grows tg w krows : ∀ cur created s,
  well_formed s → closed s →
  (∀ c, cur = Some c → (c < length (heap s))%nat) →
  ∃ cur' created' s',
    connect_kept tg w krows cur created s = Ret (cur', created') s' ∧
    grows tg cur (krows.*1.*2) s cur' s'.
Proof.
  induction krows as [|[[i sg] p] krows IH]; intros cur created s Hwf Hcl Hcur.
  - exists cur, created, s. split; [done|]. by apply grows_refl.
  - destruct (connect_row_grows tg w i sg p cur created s Hwf Hcl Hcur)
      as (c1 & created1 & s1 & Hrun1 & G1).
    destruct (IH (Some c1) created1 s1) as (cur2 & created2 & s2 & Hrun2 & G2);
      [apply G1..|].
    exists cur2, created2, s2. split.
    + simpl. py_unfold. by rewrite Hrun1.
    + apply (grows_trans _ _ _ _ [sg] _ _ _ _ G1 G2).
Qed.


(** The loop of [connect_all] is the loop over the rows it keeps. *)
Lemma connect_all_rows_kept tg w rows : ∀ i cur created s k,
  well_formed s → closed s →
  (∀ c, cur = Some c → (c < length (heap s))%nat) →
  kept_rows (_circuit_target s) i rows = inr k →
  connect_all_rows tg w i rows cur created s =
  match connect_kept tg w k cur created s with
  | Ret (_, created') s' => Ret created' s'
  | Raise e s' => Raise e s'
  | OutOfFuel => OutOfFuel
  end.
Proof.
  induction rows as [|p rows IH]; intros i cur created s k Hwf Hcl Hcur Hk.
  - by injection Hk as <-.
  - simpl in *. destruct (int_of_float (sp_sgid p)) as [e|sg]; [done|].
    destruct (kept_rows (_circuit_target s) (S i) rows) as [e|k'] eqn:Hk'; [done|].
    injection Hk as <-. py_unfold.
    destruct (match _circuit_target s with
              | Some completeContains => negb (completeContains sg)
              | None => false
              end).
    + by apply IH.
    + simpl.
      destruct (connect_row_grows tg w i sg p cur created s Hwf Hcl Hcur)
        as (c1 & created1 & s1 & Hrun1 & G1).
      py_unfold. rewrite Hrun1. apply IH; [apply G1..|].
      by rewrite (g_target _ _ _ _ _ _ G1).
Qed.











(** *** The group operations *)

(** C4 (the code at a failing input).  The active index holds the
    connections 1->10 and 2->10 in the bucket of gid 10 and 7->20 in the
    bucket of gid 20; both filters are [None], so every connection
    matches.  [delete_group] returns normally and the connection 2->10
    is still in the index: deleting the entry at index 0 moved it to
    index 0, and the iterator of [_find_group_in] went on to index 1. *)
Theorem delete_group_skips_a_match :
  ∃ s', delete_group None None examples.manager = Ret tt s' ∧
        _connections_map s' = [(10, [1%nat]); (20, [])] ∧
        all_connections s' = [1%nat] ∧
        matches None (key_of s' 1%nat) = true ∧
        matches None (tgid (deref s' 1%nat)) = true.
Proof. eexists. split; [vm_compute; reflexivity|]. by split_and!. Qed.

(** [disable_group] and [enable_group] walk the same generator: with
    three connections in one bucket and no filter, [disable_group] leaves
    the middle one active, and [enable_group] on a bucket of two disabled
    connections leaves the second one disabled. *)
Lemma disable_enable_group_skip_a_match :
  ∃ s1, (store_all [0; 1; 2]%nat;; disable_group None None false)
          (empty_manager examples.objects) = Ret tt s1 ∧
        bucket Active 10 s1 = [1%nat] ∧
        bucket Disabled 10 s1 = [0; 2]%nat ∧
        ∃ s2, enable_group None None s1 = Ret tt s2 ∧
              bucket Active 10 s2 = [0; 1]%nat ∧
              bucket Disabled 10 s2 = [2%nat].
Proof.
  eexists. split; [vm_compute; reflexivity|]. split_and!; try reflexivity.
  eexists. split; [vm_compute; reflexivity|]. by split_and!.
Qed.

(** *** The gap-junction offsets *)

(** The constructor stops at the first line that holds two words: the
    offset 0 has been appended, and [gj_sum += 2 * offset] adds a string
    (the second word, twice) to the integer [gj_sum]. *)
Lemma gj_read_lines_first_line (line gid offset : string) (lines : list string) :
  str_split line = [gid; offset] →
  GapJunctionManager_init (line :: lines) =
  Raise TypeError {| _gj_offsets := [0%float]; gj_sum := PyInt 0 |}.
Proof.
  intros Hsplit. unfold GapJunctionManager_init. simpl.
  unfold mbind, Py_bind, py_bind, gj_read_line. by rewrite Hsplit.
Qed.

(** C5 (the code at the spec's example).  For the lines "1 4", "2 6",
    "3 2" the spec's formula gives the offsets 0, 8 and 20; the
    constructor raises TypeError while it reads the first line, having
    appended the offset 0 only: [offset] is the string "4", never
    converted to a number. *)
Theorem gap_junction_offsets_type_error :
  spec_gj_offsets 0 [4; 6; 2] = [0; 8; 20] ∧
  str_split "1 4" = ["1"; "4"]%string ∧
  py_mul (PyInt 2) (PyStr "4") = inr (PyStr "44") ∧
  py_add (PyInt 0) (PyStr "44") = inl TypeError ∧
  GapJunctionManager_init examples.gjinfo =
  Raise TypeError {| _gj_offsets := [0%float]; gj_sum := PyInt 0 |}.
Proof. by split_and!. Qed.

(** *** Rows that honour the order of source ids *)

Lemma ascending_NoDup {A} (keyf : A → Z) (l : list A) : ascending keyf l → NoDup l.
Proof.
  intros Hasc. apply NoDup_alt. intros i j x Hi Hj.
  destruct (Nat.lt_trichotomy i j) as [Hlt|[->|Hlt]]; [|done|].
  - pose proof (ascending_lookup_lt keyf _ _ _ _ _ Hasc Hi Hj Hlt). lia.
  - pose proof (ascending_lookup_lt keyf _ _ _ _ _ Hasc Hj Hi Hlt). lia.
Qed.

Lemma key_of_stored conn s : key_of (stored conn s) = key_of s.
Proof. done. Qed.

Lemma bin_search_past_end {A} (keyf : A → Z) (l : list A) (key : Z) :
  ascending keyf l → (∀ x, x ∈ l → keyf x < key) →
  bin_search l key keyf = length l.
Proof.
  intros Hasc Hlt.
  destruct (bin_search_spec keyf l key Hasc) as (Hle & _ & Hge).
  destruct (decide (bin_search l key keyf = length l)) as [|Hne]; [done|].
  destruct (lookup_lt_is_Some_2 l (bin_search l key keyf)) as [x Hx]; [lia|].
  pose proof (Hge _ x (le_n _) Hx).
  pose proof (Hlt x (list_elem_of_lookup_2 _ _ _ Hx)). lia.
Qed.

Local Abbreviation params_of s l :=
  (concat ((λ c, synapse_params (deref s c)) <$> l)).

(** A row that starts a new run whose source id is above every source id
    of the bucket: the new connection goes to the end of the bucket. *)
Lemma connect_row_append tg w i sg p cur created s :
  well_formed s → closed s →
  (∀ c, cur = Some c → key_of s c ≠ sg) →
  (∀ a, a ∈ bucket Active tg s → key_of s a < sg) →
  ∃ s',
    connect_row tg w i sg p cur created s = Ret (length (heap s), created + 1) s' ∧
    well_formed s' ∧ closed s' ∧
    bucket Active tg s' = bucket Active tg s ++ [length (heap s)] ∧
    (∀ t, t ≠ tg → bucket Active t s' = bucket Active t s) ∧
    (∀ a, (a < length (heap s))%nat → deref s' a = deref s a) ∧
    key_of s' (length (heap s)) = sg ∧
    synapse_params (deref s' (length (heap s))) = [placement tg (i, sg, p)] ∧
    logs s' = logs s.
Proof.
  intros Hwf Hcl Hfresh Hbelow.
  eexists. split; [by apply connect_row_fresh_run|].
  set (c := length (heap s)).
  set (s1 := allocated (Connection_init sg tg w None (Some NO_STDP) 0%float
                          (_synapse_mode s) None) s).
  assert (Hwf1 : well_formed s1) by (by apply well_formed_allocated).
  assert (Hcl1 : closed s1) by (by apply closed_allocated).
  assert (Hc1 : deref s1 c = Connection_init sg tg w None (Some NO_STDP) 0%float
                               (_synapse_mode s) None) by apply deref_allocated_new.
  assert (Hlen1 : length (heap s1) = S c) by apply length_heap_allocated.
  assert (Hkc : key_of s1 c = sg) by (unfold key_of; by rewrite Hc1).
  assert (Htc : tgid (deref s1 c) = tg) by (by rewrite Hc1).
  assert (Hold : ∀ a, a ∈ bucket Active tg s → key_of s1 a = key_of s a).
  { intros a Ha. unfold key_of, s1. rewrite deref_allocated_old; [done|].
    by eapply closed_bucket. }
  assert (Hbelow1 : ∀ a, a ∈ bucket Active tg s1 → key_of s1 a < sg).
  { intros a Ha. rewrite Hold by done. by apply Hbelow. }
  assert (Hno1 : ¬ present Active s1 sg tg).
  { intros (a & Ha & Hk). specialize (Hbelow1 a Ha). lia. }
  rewrite (exact_index_absent _ _ _ Hno1).
  assert (Hpos : position s1 sg tg = length (bucket Active tg s)).
  { unfold position. rewrite bin_search_past_end; [done| |done].
    by apply wf_bucket_ascending. }
  assert (Hwf2 : well_formed (stored c s1)).
  { apply well_formed_stored; [done|]. by rewrite Hkc, Htc. }
  assert (Hcl2 : closed (stored c s1)) by (apply closed_stored; [done|lia]).
  assert (Hlen2 : (c < length (heap (stored c s1)))%nat).
  { rewrite heap_stored. lia. }
  split_and!.
  - by apply well_formed_with_object; [apply preserves_ids_add_synapse|].
  - by apply closed_with_object.
  - rewrite bucket_with_object. rewrite <- Htc at 1. rewrite bucket_stored.
    rewrite Hkc, Htc, Hpos. unfold list_insert_at.
    change (bucket Active tg s1) with (bucket Active tg s).
    by rewrite take_ge, drop_ge by done.
  - intros t Hne. rewrite bucket_with_object.
    rewrite bucket_stored_ne by (by rewrite Htc). done.
  - intros a Ha. rewrite deref_with_object_ne by lia.
    rewrite (deref_heap (stored c s1) s1) by apply heap_stored.
    by apply deref_allocated_old.
  - rewrite key_of_with_object_ids by apply preserves_ids_add_synapse.
    by rewrite key_of_stored.
  - rewrite deref_with_object_eq by done.
    rewrite (deref_heap (stored c s1) s1) by apply heap_stored.
    by rewrite Hc1.
  - by rewrite logs_with_object, logs_stored.
Qed.

Lemma params_of_ext s s' (l : list Addr) :
  (∀ a, a ∈ l → deref s' a = deref s a) → params_of s' l = params_of s l.
Proof.
  intros H. f_equal. apply list_fmap_ext. intros i a Ha.
  by rewrite H by (by eapply list_elem_of_lookup_2).
Qed.

(** The row loop on rows whose source ids never decrease, when every
    connection of the bucket lies below them (the current one may be at
    their level): the placements of all rows are appended, in order. *)
Lemma connect_kept_sorted tg w krows : ∀ cur created s,
  well_formed s → closed s →
  StronglySorted Z.le (krows.*1.*2) →
  match cur with
  | None => ∀ a sg, a ∈ bucket Active tg s → sg ∈ krows.*1.*2 → key_of s a < sg
  | Some c => (∃ B0, bucket Active tg s = B0 ++ [c]) ∧
              ∀ sg, sg ∈ krows.*1.*2 → key_of s c ≤ sg
  end →
  ∃ cur' created' s',
    connect_kept tg w krows cur created s = Ret (cur', created') s' ∧
    well_formed s' ∧ closed s' ∧
    params_of s' (bucket Active tg s') =
      params_of s (bucket Active tg s) ++ (placement tg <$> krows) ∧
    (∀ sg, present Active s' sg tg ↔ present Active s sg tg ∨ sg ∈ krows.*1.*2) ∧
    created' - created =
      Z.of_nat (length (bucket Active tg s')) - Z.of_nat (length (bucket Active tg s)) ∧
    (∀ t, t ≠ tg → bucket Active t s' = bucket Active t s) ∧
    logs s' = logs s.
Proof.
  induction krows as [|[[i sg] p] krows IH]; intros cur created s Hwf Hcl Hsorted Hinv.
  - exists cur, created, s. split_and!; try done.
    + by rewrite app_nil_r.
    + intros sg. split; [by left|]. intros [?|?%elem_of_nil]; done.
    + lia.
  - simpl in Hsorted. apply StronglySorted_inv in Hsorted as [Hsorted Hhead].
    rewrite Forall_forall in Hhead.
    pose proof (wf_bucket_ascending s tg Hwf) as Hasc.
    assert (Hcase : (∃ c, cur = Some c ∧ key_of s c = sg) ∨
                    (∀ c, cur = Some c → key_of s c ≠ sg)).
    { destruct cur as [c|]; [|by right].
      destruct (decide (key_of s c = sg)) as [Hk|Hk]; [left; eauto|].
      right. by intros c' [= <-]. }
    destruct Hcase as [(c & -> & Hk)|Hfresh].
    + (* the row continues the run of the current connection *)
      destruct Hinv as [[B0 HB] Hle].
      assert (Hc : c ∈ bucket Active tg s).
      { rewrite HB. apply elem_of_app. right. by left. }
      pose proof (closed_bucket _ _ _ _ Hcl Hc) as Hlt.
      set (s1 := with_object c (add_placement tg (i, sg, p)) s).
      assert (Hk1 : ∀ a, key_of s1 a = key_of s a).
      { intros a. unfold s1.
        by rewrite key_of_with_object_ids by apply preserves_ids_add_synapse. }
      destruct (IH (Some c) created s1) as
        (cur' & created' & s' & Hrun & Hwf' & Hcl' & Hpar & Hpres & Hcnt & Hoth & Hlog).
      * by apply well_formed_with_object; [apply preserves_ids_add_synapse|].
      * by apply closed_with_object.
      * done.
      * split; [exists B0; unfold s1; by rewrite bucket_with_object|].
        intros sg' Hsg'. rewrite Hk1, Hk. by apply Hhead.
      * exists cur', created', s'. split_and!; try done.
        -- simpl. py_unfold. by rewrite connect_row_same_run.
        -- rewrite Hpar. unfold s1 at 2. rewrite bucket_with_object.
           change (placement tg <$> (i, sg, p) :: krows)
             with ([placement tg (i, sg, p)] ++ (placement tg <$> krows)).
           rewrite app_assoc. f_equal.
           rewrite HB, !fmap_app, !concat_app. simpl. rewrite !app_nil_r.
           rewrite <- app_assoc. f_equal.
           ++ apply params_of_ext. intros a Ha. unfold s1.
              apply deref_with_object_ne. intros ->.
              apply ascending_NoDup in Hasc. rewrite HB in Hasc.
              apply NoDup_app in Hasc as (_ & Hcross & _).
              apply (Hcross a Ha). by left.
           ++ unfold s1. by rewrite deref_with_object_eq.
        -- intros sg'. rewrite Hpres. simpl.
           assert (Hp1 : present Active s1 sg' tg ↔ present Active s sg' tg).
           { unfold present. split; intros (a & Ha & Hka); exists a.
             - unfold s1 in Ha. rewrite bucket_with_object in Ha.
               by rewrite Hk1 in Hka.
             - unfold s1. rewrite bucket_with_object. by rewrite Hk1. }
           rewrite Hp1, elem_of_cons. split; [tauto|].
           intros [?|[->|?]]; [tauto| |tauto]. left. by exists c.
    + (* the row starts a new run *)
      assert (Hbelow : ∀ a, a ∈ bucket Active tg s → key_of s a < sg).
      { intros a Ha. destruct cur as [c|].
        - destruct Hinv as [[B0 HB] Hle].
          assert (key_of s c < sg).
          { pose proof (Hle sg (list_elem_of_here _ _)).
            pose proof (Hfresh c eq_refl). lia. }
          rewrite HB in Ha. apply elem_of_app in Ha as [Ha|Ha%list_elem_of_singleton];
            [|by subst].
          rewrite HB in Hasc. apply ascending_app in Hasc as (_ & _ & Hcross).
          pose proof (Hcross a c Ha (list_elem_of_here _ _)). lia.
        - apply Hinv; [done|]. by left. }
      destruct (connect_row_append tg w i sg p cur created s Hwf Hcl Hfresh Hbelow)
        as (s1 & Hrun1 & Hwf1 & Hcl1 & Hb1 & Hoth1 & Hd1 & Hk1 & Hp1 & Hl1).
      set (c := length (heap s)) in *.
      destruct (IH (Some c) (created + 1) s1) as
        (cur' & created' & s' & Hrun & Hwf' & Hcl' & Hpar & Hpres & Hcnt & Hoth & Hlog);
        [done|done|done| |].
      * split; [by eexists|]. intros sg' Hsg'. rewrite Hk1. by apply Hhead.
      * exists cur', created', s'. split_and!; try done.
        -- simpl. py_unfold. by rewrite Hrun1.
        -- rewrite Hpar, Hb1, fmap_app, concat_app. simpl. rewrite app_nil_r, Hp1.
           change (placement tg (i, sg, p) :: (placement tg <$> krows))
             with ([placement tg (i, sg, p)] ++ (placement tg <$> krows)).
           rewrite <- app_assoc. f_equal.
           apply params_of_ext. intros a Ha. apply Hd1. by eapply closed_bucket.
        -- intros sg'. rewrite Hpres. simpl. rewrite elem_of_cons.
           assert (Hp : present Active s1 sg' tg ↔ present Active s sg' tg ∨ sg' = sg).
           { unfold present. rewrite Hb1. split.
             - intros (a & [Ha|Ha%list_elem_of_singleton]%elem_of_app & Hka).
               + left. exists a. split; [done|]. rewrite <- Hka. unfold key_of.
                 rewrite Hd1; [done|]. by eapply closed_bucket.
               + right. subst a. by rewrite <- Hka.
             - intros [(a & Ha & Hka)| ->].
               + exists a. split; [apply elem_of_app; by left|].
                 rewrite <- Hka. unfold key_of. rewrite Hd1; [done|].
                 by eapply closed_bucket.
               + exists c. split; [|done]. apply elem_of_app. right. by left. }
           rewrite Hp. tauto.
        -- rewrite Hb1, length_app in Hcnt. simpl in Hcnt. lia.
        -- intros t Hne. by rewrite Hoth, Hoth1.
        -- by rewrite Hlog.
Qed.

(** When the rows of a post-gid honour the data contract, their source
    ids never decreasing, [connect_all] files every row.  Starting from
    a well-formed manager with no connection to that gid, the row loop
    returns normally and logs nothing; the gid has a connection from a
    source exactly when a kept row names that source, the count it
    returns is the number of connections in the bucket, and
    [get_synapse_params_gid] yields the placements of all kept rows in
    the order of the rows. *)
Theorem connect_all_sorted_rows (s : State) (tg : Z) (w : float)
    (rows : list SynapseParameters) (k : list (nat * Z * SynapseParameters)) :
  well_formed s → closed s →
  bucket Active tg s = [] →
  kept_rows (_circuit_target s) 0 rows = inr k →
  StronglySorted Z.le (k.*1.*2) →
  ∃ created s',
    connect_all_rows tg w 0 rows None 0 s = Ret created s' ∧
    well_formed s' ∧
    (∃ s'', get_synapse_params_gid tg s' = Ret (placement tg <$> k) s'') ∧
    (∀ sg, present Active s' sg tg ↔ sg ∈ k.*1.*2) ∧
    created = Z.of_nat (length (bucket Active tg s')) ∧
    (∀ t, t ≠ tg → bucket Active t s' = bucket Active t s) ∧
    logs s' = logs s.
Proof.
  intros Hwf Hcl Hempty Hk Hsorted.
  rewrite (connect_all_rows_kept tg w rows 0 None 0 s _ Hwf Hcl) by done.
  destruct (connect_kept_sorted tg w k None 0 s Hwf Hcl Hsorted)
    as (cur' & created & s' & Hrun & Hwf' & Hcl' & Hpar & Hpres & Hcnt & Hoth & Hlog).
  { intros a sg Ha. rewrite Hempty in Ha. by apply elem_of_nil in Ha. }
  rewrite Hrun. exists created, s'. split_and!; try done.
  - eexists. unfold get_synapse_params_gid. py_unfold.
    rewrite map_getitem_run. py_step. f_equal.
    change (params_of s' (bucket Active tg s') = placement tg <$> k).
    by rewrite Hpar, Hempty.
  - intros sg. rewrite Hpres. split; [|by right].
    intros [(a & Ha & _)|?]; [|done]. rewrite Hempty in Ha. by apply elem_of_nil in Ha.
  - rewrite Hempty in Hcnt. simpl in Hcnt. lia.
Qed.

Lemma connect_all_sorted_rows_witness :
  let rows := examples.row_121 <$> [0; 1]%nat in
  let k := [(0%nat, 1, examples.row_121 0); (1%nat, 2, examples.row_121 1)] in
  ∃ created s',
    connect_all_rows 10 1 0 rows None 0 (empty_manager []) = Ret created s' ∧
    well_formed s' ∧
    (∃ s'', get_synapse_params_gid 10 s' = Ret (placement 10 <$> k) s'') ∧
    (∀ sg, present Active s' sg 10 ↔ sg ∈ k.*1.*2) ∧
    created = Z.of_nat (length (bucket Active 10 s')) ∧
    (∀ t, t ≠ 10 → bucket Active t s' = bucket Active t (empty_manager [])) ∧
    logs s' = logs (empty_manager []).
Proof.
  apply (connect_all_sorted_rows (empty_manager []) 10 1
           (examples.row_121 <$> [0; 1]%nat)
           [(0%nat, 1, examples.row_121 0); (1%nat, 2, examples.row_121 1)]).
  - apply well_formed_empty.
  - intros []; constructor.
  - reflexivity.
  - reflexivity.
  - simpl. repeat constructor; lia.
Defined.

(** *** The rows [get_synapse_parameters] hands out *)

Lemma manager_dict_get_set {V} (d : list (Z * V)) (k : Z) (v : V) :
  dict_get (dict_set d k v) k = Some v.
Proof.
  induction d as [|[k' v'] d IH]; simpl.
  - by rewrite bool_decide_eq_true_2.
  - case_bool_decide as Hk; simpl.
    + by rewrite bool_decide_eq_true_2.
    + by rewrite bool_decide_eq_false_2.
Qed.

Lemma length_fill_rows env gid range : ∀ arr,
  length (match fill_rows env gid range arr with
          | inl (_, a) => a
          | inr a => a
          end) = length arr.
Proof.
  induction range as [|i range IH]; intros arr; simpl; [done|].
  destruct (patch_delay (dt env) (read_row env gid i)) as [e|p'].
  - by rewrite length_insert.
  - by rewrite IH, length_insert.
Qed.

Lemma fill_rows_ok env gid (r : nat → SynapseParameters) range : ∀ arr,
  (∀ i, i ∈ range → patch_delay (dt env) (read_row env gid i) = inr (r i)) →
  fill_rows env gid range arr = inr (foldl (λ a i, <[i := r i]> a) arr range).
Proof.
  induction range as [|i range IH]; intros arr Hok; simpl; [done|].
  rewrite Hok by (by left). apply IH. intros j Hj. apply Hok. by right.
Qed.

Lemma foldl_insert_seq {A} (r : nat → A) (m : nat) : ∀ (k : nat) (arr : list A) (j : nat),
  (k + m ≤ length arr)%nat →
  foldl (λ a i, <[i := r i]> a) arr (seq k m) !! j =
  if bool_decide (k ≤ j < k + m)%nat then Some (r j) else arr !! j.
Proof.
  induction m as [|m IH]; intros k arr j Hlen; simpl.
  - by rewrite bool_decide_eq_false_2 by lia.
  - rewrite IH by (rewrite length_insert; lia).
    destruct (decide (j = k)) as [->|Hne].
    + rewrite list_lookup_insert_eq by lia.
      case_bool_decide; by rewrite bool_decide_eq_true_2 by lia.
    + rewrite list_lookup_insert_ne by done.
      case_bool_decide; [by rewrite bool_decide_eq_true_2 by lia|].
      by rewrite bool_decide_eq_false_2 by lia.
Qed.

Lemma foldl_insert_all {A} (r : nat → A) (n : nat) (x : A) :
  foldl (λ a i, <[i := r i]> a) (replicate n x) (seq 0 n) = r <$> seq 0 n.
Proof.
  apply list_eq. intros j.
  rewrite foldl_insert_seq by (by rewrite length_replicate).
  rewrite list_lookup_fmap. case_bool_decide as Hj.
  - by rewrite lookup_seq_lt by lia.
  - rewrite (lookup_ge_None_2 (replicate n x)) by (rewrite length_replicate; lia).
    by rewrite lookup_seq_ge by lia.
Qed.

(** The rows of a post-gid that is not cached yet.  When the reader has
    a dataset for the gid and every delay converts, the manager's
    [get_synapse_parameters] returns one row per row of the dataset, in
    order: row [i] holds the columns 0, 1, 2, 3, 4, 8, 9, 10, 11, 12 and
    13 of dataset row [i], then column 17 (-1 for a file of version 4
    or older), with the delay replaced by the integer part of
    [delay / dt + 1e-5] times [dt]; the rows are put in the cache under
    the gid, and nothing else changes. *)
Theorem get_synapse_parameters_reads_rows (env : Env) (gid : Z) (s : State)
    (n : nat → Z) :
  dict_get (_syn_params s) gid = None →
  0 ≤ (if bool_decide (_n_synapse_files env > 1)
       then loadData_gid (_synapse_reader env) gid
       else loadData_name (_synapse_reader env) gid) →
  (∀ i, (i < numberofrows (_synapse_reader env) gid)%nat →
        trunc (getData (_synapse_reader env) gid i 1 / dt env + 1e-5)%float
        = Some (n i)) →
  let rows :=
    (λ i, {| sp_sgid := getData (_synapse_reader env) gid i 0;
             sp_delay := (float_of_int (n i) * dt env)%float;
             sp_isec := getData (_synapse_reader env) gid i 2;
             sp_ipt := getData (_synapse_reader env) gid i 3;
             sp_offset := getData (_synapse_reader env) gid i 4;
             sp_weight := getData (_synapse_reader env) gid i 8;
             sp_U := getData (_synapse_reader env) gid i 9;
             sp_D := getData (_synapse_reader env) gid i 10;
             sp_F := getData (_synapse_reader env) gid i 11;
             sp_DTC := getData (_synapse_reader env) gid i 12;
             sp_synType := getData (_synapse_reader env) gid i 13;
             sp_nrrp := if bool_decide (_nrn_version env > 4)
                        then getData (_synapse_reader env) gid i 17
                        else (-1)%float |})
      <$> seq 0 (numberofrows (_synapse_reader env) gid) in
  get_synapse_parameters env gid s =
  Ret rows (set_syn_params (dict_set (_syn_params s) gid rows) s).
Proof.
  intros Hmiss Hret Hconv rows.
  unfold get_synapse_parameters. py_unfold. rewrite Hmiss.
  rewrite bool_decide_eq_false_2 by lia.
  rewrite (fill_rows_ok env gid
             (λ i, set_delay (float_of_int (n i) * dt env)%float (read_row env gid i))).
  - rewrite foldl_insert_all. done.
  - intros i Hi%elem_of_seq. unfold patch_delay, int_of_float.
    change (sp_delay (read_row env gid i)) with (getData (_synapse_reader env) gid i 1).
    rewrite Hconv by lia. done.
Qed.

Lemma get_synapse_parameters_reads_rows_witness :
  let env := examples.env_121 in
  let rows :=
    (λ i, {| sp_sgid := getData (_synapse_reader env) 10 i 0;
             sp_delay := (float_of_int 3 * dt env)%float;
             sp_isec := getData (_synapse_reader env) 10 i 2;
             sp_ipt := getData (_synapse_reader env) 10 i 3;
             sp_offset := getData (_synapse_reader env) 10 i 4;
             sp_weight := getData (_synapse_reader env) 10 i 8;
             sp_U := getData (_synapse_reader env) 10 i 9;
             sp_D := getData (_synapse_reader env) 10 i 10;
             sp_F := getData (_synapse_reader env) 10 i 11;
             sp_DTC := getData (_synapse_reader env) 10 i 12;
             sp_synType := getData (_synapse_reader env) 10 i 13;
             sp_nrrp := if bool_decide (_nrn_version env > 4)
                        then getData (_synapse_reader env) 10 i 17
                        else (-1)%float |})
      <$> seq 0 (numberofrows (_synapse_reader env) 10) in
  get_synapse_parameters env 10 (empty_manager []) =
  Ret rows (set_syn_params (dict_set (_syn_params (empty_manager [])) 10 rows)
              (empty_manager [])).
Proof.
  apply (get_synapse_parameters_reads_rows examples.env_121 10 (empty_manager [])
           (λ _, 3)).
  - reflexivity.
  - by vm_compute.
  - intros i _. by vm_compute.
Defined.

(** A gid that was read is answered from the cache.  Once
    [get_synapse_parameters] has returned the rows of a gid, a call for
    that gid on the state it left returns the same rows and leaves the
    state alone: it consults neither the reader nor the integration
    step, so a change of either in between does not show.  (The cache
    is the one the first call left: [open_synapse_file], which empties
    it, is not run in between.) *)
Theorem get_synapse_parameters_cached (env env' : Env) (gid : Z) (s s' : State)
    (rows : list SynapseParameters) :
  get_synapse_parameters env gid s = Ret rows s' →
  get_synapse_parameters env' gid s' = Ret rows s'.
Proof.
  unfold get_synapse_parameters at 1. py_unfold.
  destruct (dict_get (_syn_params s) gid) as [cached|] eqn:Hc.
  - intros [= <- <-]. unfold get_synapse_parameters. py_unfold. by rewrite Hc.
  - case_bool_decide as Hret.
    + unfold cache_assign. py_unfold. intros [= <- <-].
      unfold get_synapse_parameters. py_unfold. simpl.
      by rewrite manager_dict_get_set.
    + destruct (fill_rows env gid _ _) as [[e arr]|arr];
        unfold cache_assign; py_unfold; [done|].
      intros [= <- <-]. unfold get_synapse_parameters. py_unfold. simpl.
      by rewrite manager_dict_get_set.
Qed.

Lemma get_synapse_parameters_cached_witness :
  ∃ rows s',
    get_synapse_parameters examples.env_121 10 (empty_manager []) = Ret rows s' ∧
    length rows = 3%nat ∧
    get_synapse_parameters
      {| _synapse_reader := examples.reader_121; _n_synapse_files := 1;
         _nrn_version := 5; dt := 0.5%float; fresh_row := examples.blank |}
      10 s' = Ret rows s'.
Proof.
  eexists _, _. split; [by vm_compute|]. split; [reflexivity|].
  apply (get_synapse_parameters_cached examples.env_121 _ 10 (empty_manager [])).
  by vm_compute.
Defined.

(** A load that fails poisons the cache.  The array is put in the cache
    before its rows are filled, so when the conversion of a delay raises,
    the exception leaves the partly filled array cached: every later
    call for that gid returns it, one row per row of the dataset, and
    does not raise. *)
Theorem get_synapse_parameters_failed_load_is_cached (env : Env) (gid : Z)
    (s s' : State) (e : Exn) :
  get_synapse_parameters env gid s = Raise e s' →
  ∃ arr, length arr = numberofrows (_synapse_reader env) gid ∧
         dict_get (_syn_params s) gid = None ∧
         ∀ env', get_synapse_parameters env' gid s' = Ret arr s'.
Proof.
  unfold get_synapse_parameters at 1. py_unfold.
  destruct (dict_get (_syn_params s) gid) as [cached|] eqn:Hc; [done|].
  case_bool_decide as Hret; [unfold cache_assign; by py_unfold|].
  pose proof (length_fill_rows env gid (seq 0 (numberofrows (_synapse_reader env) gid))
                (replicate (numberofrows (_synapse_reader env) gid) (fresh_row env)))
    as Hlen.
  destruct (fill_rows env gid _ _) as [[e' arr]|arr];
    unfold cache_assign; py_unfold; [|done].
  intros [= <- <-]. exists arr. split_and!.
  - by rewrite Hlen, length_replicate.
  - done.
  - intros env'. unfold get_synapse_parameters. py_unfold. simpl.
    by rewrite manager_dict_get_set.
Qed.

Lemma get_synapse_parameters_failed_load_is_cached_witness :
  let env := {| _synapse_reader :=
                  {| checkVersion := 5; loadData_gid := λ _, 0;
                     loadData_name := λ _, 0; numberofrows := λ _, 3%nat;
                     getData := λ _ _ column,
                       match column with 1%nat => nan | _ => 1%float end |};
                _n_synapse_files := 1; _nrn_version := 5; dt := 0.25%float;
                fresh_row := examples.blank |} in
  get_synapse_parameters env 10 (empty_manager []) =
    Raise ValueError
      (set_syn_params
         [(10, [read_row env 10 0; examples.blank; examples.blank])]
         (empty_manager [])) ∧
  ∃ arr, length arr = numberofrows (_synapse_reader env) 10 ∧
         dict_get (_syn_params (empty_manager [])) 10 = None ∧
         ∀ env', get_synapse_parameters env' 10
                   (set_syn_params
                      [(10, [read_row env 10 0; examples.blank; examples.blank])]
                      (empty_manager [])) =
                 Ret arr
                   (set_syn_params
                      [(10, [read_row env 10 0; examples.blank; examples.blank])]
                      (empty_manager [])).
Proof.
  split; [by vm_compute|].
  apply (get_synapse_parameters_failed_load_is_cached _ 10 (empty_manager []) _
           ValueError).
  by vm_compute.
Defined.

(** *** Looking connections up *)

Lemma get_connection_run sg tg s :
  ascending (key_of s) (bucket Active tg s) →
  get_connection sg tg s =
  Ret (match exact_index s sg tg with
       | Some i => bucket Active tg s !! i
       | None => None
       end) (touched Active tg s).
Proof.
  intros Hasc. unfold get_connection. py_unfold.
  rewrite find_connection_run by done. py_step.
  unfold exact_index.
  destruct (bucket Active tg s !! position s sg tg) as [c|] eqn:Hc; [|done].
  case_bool_decide; [|done].
  unfold getitem. rewrite Hc. by py_unfold.
Qed.

Lemma exact_index_lookup s sg tg a :
  ascending (key_of s) (bucket Active tg s) →
  match exact_index s sg tg with
  | Some i => bucket Active tg s !! i
  | None => None
  end = Some a ↔ a ∈ bucket Active tg s ∧ key_of s a = sg.
Proof.
  intros Hasc. split.
  - unfold exact_index.
    destruct (bucket Active tg s !! position s sg tg) as [c|] eqn:Hc; [|done].
    case_bool_decide as Hk; [|done]. rewrite Hc. intros [= <-].
    split; [by eapply list_elem_of_lookup_2|done].
  - intros [Ha Hk].
    destruct (exact_index_present s sg tg a Hasc Ha Hk) as [-> Hp]. done.
Qed.

(** [get_connection] is an exact lookup.  In a well-formed state it
    returns the connection of the pair when the active index holds one
    and [None] otherwise; it never raises, logs nothing, and changes
    neither an object nor the content of a bucket. *)
Theorem get_connection_lookup (s : State) (sg tg : Z) :
  well_formed s →
  ∃ r s', get_connection sg tg s = Ret r s' ∧
          (∀ a, r = Some a ↔ a ∈ bucket Active tg s ∧ key_of s a = sg) ∧
          (r = None ↔ ¬ present Active s sg tg) ∧
          heap s' = heap s ∧ logs s' = logs s ∧
          _disabled_conns s' = _disabled_conns s ∧
          all_connections s' = all_connections s ∧
          (∀ t, bucket Active t s' = bucket Active t s).
Proof.
  intros Hwf. pose proof (wf_bucket_ascending s tg Hwf) as Hasc.
  eexists _, _. split; [by apply get_connection_run|].
  split_and!; try done.
  - intros a. by apply exact_index_lookup.
  - split.
    + intros Hr (a & Ha & Hk).
      pose proof (proj2 (exact_index_lookup s sg tg a Hasc) (conj Ha Hk)) as Hs.
      rewrite Hr in Hs. done.
    + intros Hno. by rewrite exact_index_absent.
  - apply all_connections_touched.
  - intros t. apply (bucket_touched_any Active).
Qed.

Lemma get_connection_lookup_witness :
  ∃ r s', get_connection 2 10 examples.manager = Ret r s' ∧
          (∀ a, r = Some a ↔ a ∈ bucket Active 10 examples.manager ∧
                             key_of examples.manager a = 2) ∧
          (r = None ↔ ¬ present Active examples.manager 2 10) ∧
          heap s' = heap examples.manager ∧ logs s' = logs examples.manager ∧
          _disabled_conns s' = _disabled_conns examples.manager ∧
          all_connections s' = all_connections examples.manager ∧
          (∀ t, bucket Active t s' = bucket Active t examples.manager).
Proof.
  apply (get_connection_lookup examples.manager 2 10).
  apply well_formed_examples_manager.
Defined.

Lemma elem_of_list_insert_at {A} (p : nat) (x y : A) (l : list A) :
  y ∈ list_insert_at p x l ↔ y = x ∨ y ∈ l.
Proof.
  unfold list_insert_at. rewrite elem_of_app, elem_of_cons.
  rewrite <- (take_drop p l) at 3. rewrite elem_of_app. tauto.
Qed.

(** Storing and looking up.  After [store_connection] has inserted a
    connection of a pair the active index did not hold,
    [get_connection] of that pair returns this very connection, and
    [get_connection] of any other pair returns what it returned
    before. *)
Theorem store_then_get (s : State) (conn : Addr) :
  let sg := key_of s conn in
  let tg := tgid (deref s conn) in
  well_formed s →
  ¬ present Active s sg tg →
  ∃ s', store_connection conn s = Ret tt s' ∧
        well_formed s' ∧
        get_connection sg tg s' = Ret (Some conn) s' ∧
        ∀ sg' tg' r s1, (sg', tg') ≠ (sg, tg) →
          get_connection sg' tg' s = Ret r s1 →
          ∃ s1', get_connection sg' tg' s' = Ret r s1'.
Proof.
  intros sg tg Hwf Hno.
  pose proof (wf_bucket_ascending s tg Hwf) as Hasc.
  pose proof (well_formed_stored conn s Hwf Hno) as Hwf'.
  exists (stored conn s). split; [by apply store_connection_fresh_run|].
  split; [done|].
  assert (Hb : bucket Active tg (stored conn s) =
               list_insert_at (position s sg tg) conn (bucket Active tg s))
    by apply bucket_stored.
  assert (Hin : conn ∈ bucket Active tg (stored conn s)).
  { rewrite Hb. apply elem_of_list_insert_at. by left. }
  split.
  - rewrite get_connection_run by (by apply wf_bucket_ascending).
    rewrite (proj2 (exact_index_lookup (stored conn s) sg tg conn
                      (wf_bucket_ascending _ _ Hwf')) (conj Hin eq_refl)).
    rewrite touched_present; [done|].
    rewrite (bucket_nonempty_lookup _ _ _ _ Hin). eauto.
  - intros sg' tg' r s1 Hne Hget.
    rewrite get_connection_run in Hget by (by apply wf_bucket_ascending).
    injection Hget as <- _.
    eexists. rewrite get_connection_run by (by apply wf_bucket_ascending).
    f_equal.
    destruct (match exact_index s sg' tg' with
              | Some i => bucket Active tg' s !! i
              | None => None
              end) as [a|] eqn:Hr.
    + apply exact_index_lookup in Hr as [Ha Hk]; [|by apply wf_bucket_ascending].
      apply exact_index_lookup; [by apply wf_bucket_ascending|].
      split; [|done].
      destruct (decide (tg = tg')) as [<-|Htg].
      * rewrite Hb. apply elem_of_list_insert_at. by right.
      * by rewrite bucket_stored_ne.
    + destruct (match exact_index (stored conn s) sg' tg' with
                | Some i => bucket Active tg' (stored conn s) !! i
                | None => None
                end) as [a|] eqn:Hr'; [|done].
      apply exact_index_lookup in Hr' as [Ha Hk]; [|by apply wf_bucket_ascending].
      assert (Ha' : a ∈ bucket Active tg' s).
      { destruct (decide (tg = tg')) as [<-|Htg].
        - rewrite Hb in Ha. apply elem_of_list_insert_at in Ha as [->|Ha]; [|done].
          destruct Hne. by rewrite <- Hk.
        - by rewrite bucket_stored_ne in Ha. }
      pose proof (proj2 (exact_index_lookup s sg' tg' a
                           (wf_bucket_ascending _ _ Hwf)) (conj Ha' Hk)) as Hs.
      rewrite Hr in Hs. done.
Qed.

Lemma store_then_get_witness :
  let s := empty_manager examples.objects in
  ∃ s', store_connection 2%nat s = Ret tt s' ∧
        well_formed s' ∧
        get_connection 3 10 s' = Ret (Some 2%nat) s' ∧
        ∀ sg' tg' r s1, (sg', tg') ≠ (3, 10) →
          get_connection sg' tg' s = Ret r s1 →
          ∃ s1', get_connection sg' tg' s' = Ret r s1'.
Proof.
  apply (store_then_get (empty_manager examples.objects) 2%nat).
  - apply well_formed_empty.
  - intros (a & Ha & _). by apply elem_of_nil in Ha.
Defined.

(** *** Removing a connection *)

Lemma elem_of_delete_NoDup {A} (l : list A) (i : nat) (x y : A) :
  NoDup l → l !! i = Some x → y ∈ base.delete i l ↔ y ∈ l ∧ y ≠ x.
Proof.
  intros Hnd Hi.
  pose proof (take_drop_middle l i x Hi) as Hl.
  assert (Hiff : y ∈ l ↔ y ∈ take i l ∨ y = x ∨ y ∈ drop (S i) l).
  { rewrite <- Hl at 1. by rewrite elem_of_app, elem_of_cons. }
  rewrite <- Hl in Hnd.
  apply NoDup_app in Hnd as (_ & Hcross & Htail).
  apply NoDup_cons in Htail as [Hx _].
  rewrite delete_take_drop, elem_of_app, Hiff. split.
  - intros [Hy|Hy]; (split; [tauto|]); intros ->; [|done].
    apply (Hcross x Hy). by left.
  - tauto.
Qed.

Lemma delete_Permutation {A} (l : list A) (i : nat) (x : A) :
  l !! i = Some x → l ≡ₚ x :: base.delete i l.
Proof.
  intros Hi. rewrite <- (take_drop_middle l i x Hi) at 1.
  rewrite delete_take_drop. by rewrite Permutation_middle.
Qed.

Lemma od_values_update_delete {V} (d : OrderedDefaultDict V) k (b b' : list V) x :
  od_lookup d k = Some b → b ≡ₚ x :: b' →
  concat (od_values d) ≡ₚ x :: concat (od_values (od_update d k b')).
Proof.
  intros Hb Hperm.
  rewrite <- (od_update_id d k b Hb) at 1.
  rewrite <- (od_update_update d k b' b).
  apply od_values_update_cons with (b := b'); [|done].
  apply od_lookup_update_eq. rewrite Hb. eauto.
Qed.

Lemma Forall_delete_list {A} (P : A → Prop) (l : list A) (i : nat) :
  Forall P l → Forall P (base.delete i l).
Proof.
  rewrite !Forall_forall. intros H x Hx. apply H.
  by eapply list_elem_of_delete_inv.
Qed.

Lemma well_formed_bucket_deleted tg i s :
  well_formed s →
  well_formed (with_bucket Active tg (base.delete i (bucket Active tg s)) s).
Proof.
  intros Hwf. pose proof Hwf as [Hka Hkd Hasc Hca Hcd].
  unfold with_bucket. split; simpl.
  - by rewrite od_keys_update.
  - done.
  - apply (od_update_Forall (λ e, ascending (key_of s) e.2)); [|done]. simpl.
    apply delete_ascending. by apply wf_bucket_ascending.
  - apply (od_update_Forall (λ e, Forall (λ a, tgid (deref s a) = e.1) e.2));
      [|done]. simpl.
    apply Forall_delete_list, Forall_forall. intros a Ha.
    by apply (consistent_bucket s Active).
  - done.
Qed.

Lemma delete_present_run sg tg a s :
  ascending (key_of s) (bucket Active tg s) →
  a ∈ bucket Active tg s → key_of s a = sg →
  delete sg tg s =
  Ret tt (with_bucket Active tg
            (base.delete (position s sg tg) (bucket Active tg s)) s).
Proof.
  intros Hasc Ha Hk. unfold delete. py_unfold.
  rewrite find_connection_run by done. py_step.
  destruct (exact_index_present s sg tg a Hasc Ha Hk) as [-> Hpos].
  rewrite touched_present
    by (rewrite (bucket_nonempty_lookup _ _ _ _ Ha); eauto).
  by rewrite (bucket_del_run Active tg _ a).
Qed.

(** [delete] of a pair the active index holds removes exactly the
    connection of that pair.  In a well-formed state it returns
    normally and logs nothing; the bucket of the destination holds what
    it held except that connection, every other bucket, the disabled
    index and the objects are unchanged, the state is still well
    formed, and [get_connection] of the pair now returns [None]. *)
Theorem delete_removes_the_pair (s : State) (sg tg : Z) (a : Addr) :
  well_formed s →
  a ∈ bucket Active tg s → key_of s a = sg →
  ∃ s', delete sg tg s = Ret tt s' ∧
        well_formed s' ∧
        (∀ b, b ∈ bucket Active tg s' ↔ b ∈ bucket Active tg s ∧ b ≠ a) ∧
        (∀ t, t ≠ tg → bucket Active t s' = bucket Active t s) ∧
        all_connections s ≡ₚ a :: all_connections s' ∧
        ¬ present Active s' sg tg ∧
        get_connection sg tg s' = Ret None s' ∧
        heap s' = heap s ∧ logs s' = logs s ∧
        _disabled_conns s' = _disabled_conns s.
Proof.
  intros Hwf Ha Hk.
  pose proof (wf_bucket_ascending s tg Hwf) as Hasc.
  destruct (exact_index_present s sg tg a Hasc Ha Hk) as [_ Hpos].
  pose proof (bucket_nonempty_lookup _ _ _ _ Ha) as Hlook.
  set (s' := with_bucket Active tg
               (base.delete (position s sg tg) (bucket Active tg s)) s).
  assert (Hwf' : well_formed s') by (by apply well_formed_bucket_deleted).
  assert (Hb : bucket Active tg s' =
               base.delete (position s sg tg) (bucket Active tg s)).
  { unfold s'. rewrite bucket_with_bucket; [done|]. rewrite Hlook. eauto. }
  assert (Hno : ¬ present Active s' sg tg).
  { intros (y & Hy & Hky). rewrite Hb in Hy.
    apply (ascending_delete_key (key_of s) _ _ a y Hasc Hpos Hy).
    by rewrite Hk. }
  exists s'. split_and!; try done.
  - by apply (delete_present_run sg tg a).
  - intros b. rewrite Hb. apply elem_of_delete_NoDup; [|done].
    by eapply ascending_NoDup.
  - intros t Hne. unfold s'. by rewrite bucket_with_bucket_ne.
  - unfold all_connections, s', with_bucket. simpl.
    eapply od_values_update_delete; [exact Hlook|].
    by apply delete_Permutation.
  - rewrite get_connection_run by (by apply wf_bucket_ascending).
    rewrite exact_index_absent by done.
    rewrite touched_present; [done|].
    unfold s', with_bucket. rewrite conn_map_set.
    rewrite od_lookup_update_eq; [eauto|]. rewrite Hlook. eauto.
Qed.

Lemma delete_removes_the_pair_witness :
  ∃ s', delete 1 10 examples.manager = Ret tt s' ∧
        well_formed s' ∧
        (∀ b, b ∈ bucket Active 10 s' ↔
              b ∈ bucket Active 10 examples.manager ∧ b ≠ 0%nat) ∧
        (∀ t, t ≠ 10 → bucket Active t s' = bucket Active t examples.manager) ∧
        all_connections examples.manager ≡ₚ 0%nat :: all_connections s' ∧
        ¬ present Active s' 1 10 ∧
        get_connection 1 10 s' = Ret None s' ∧
        heap s' = heap examples.manager ∧ logs s' = logs examples.manager ∧
        _disabled_conns s' = _disabled_conns examples.manager.
Proof.
  apply (delete_removes_the_pair examples.manager 1 10 0%nat).
  - apply well_formed_examples_manager.
  - repeat constructor.
  - reflexivity.
Defined.

(** *** Disabling and enabling at the edges *)

(** [disable] of a pair the active index does not hold only warns: it
    returns normally, moves nothing into the disabled index and changes
    no object and no bucket content.  The warning is the one [delete]
    emits. *)
Theorem disable_absent_warns (s : State) (sg tg : Z) (z : bool) :
  well_formed s →
  ¬ present Active s sg tg →
  ∃ s', disable sg tg z s = Ret tt s' ∧
        logs s' = logs s ++ [Log WARNING "Non-existing connection to disable: %d->%d"
                               [sg; tg]] ∧
        heap s' = heap s ∧
        _disabled_conns s' = _disabled_conns s ∧
        all_connections s' = all_connections s ∧
        (∀ t, bucket Active t s' = bucket Active t s).
Proof.
  intros Hwf Hno.
  exists (logged WARNING "Non-existing connection to disable: %d->%d" [sg; tg]
            (touched Active tg s)).
  split.
  - unfold disable. py_unfold.
    rewrite find_connection_run by (by apply wf_bucket_ascending). py_step.
    by rewrite exact_index_absent.
  - split_and!; try done.
    + apply all_connections_touched.
    + intros t. apply (bucket_touched_any Active).
Qed.

Lemma disable_absent_warns_witness :
  ∃ s', disable 5 10 true examples.manager = Ret tt s' ∧
        logs s' = logs examples.manager ++
                  [Log WARNING "Non-existing connection to disable: %d->%d" [5; 10]] ∧
        heap s' = heap examples.manager ∧
        _disabled_conns s' = _disabled_conns examples.manager ∧
        all_connections s' = all_connections examples.manager ∧
        (∀ t, bucket Active t s' = bucket Active t examples.manager).
Proof.
  apply (disable_absent_warns examples.manager 5 10 true).
  - apply well_formed_examples_manager.
  - intros (a & Ha & Hk). vm_compute in Ha.
    repeat (apply elem_of_cons in Ha as [->|Ha]; [by vm_compute in Hk|]).
    by apply elem_of_nil in Ha.
Defined.

Lemma all_disabled_touched tg s :
  all_disabled (touched Disabled tg s) = all_disabled s.
Proof. apply od_values_getitem. Qed.

(** [enable] of a pair the disabled index does not hold only warns: the
    [else] of its loop runs.  It returns normally, stores nothing in the
    active index and changes no object and no bucket content. *)
Theorem enable_absent_warns (s : State) (sg tg : Z) :
  ¬ present Disabled s sg tg →
  ∃ s', enable sg tg s = Ret tt s' ∧
        logs s' = logs s ++ [Log WARNING "Non-existing connection to enable: %d->%d"
                               [sg; tg]] ∧
        heap s' = heap s ∧
        _connections_map s' = _connections_map s ∧
        all_disabled s' = all_disabled s ∧
        (∀ t, bucket Disabled t s' = bucket Disabled t s).
Proof.
  intros Hno.
  exists (logged WARNING "Non-existing connection to enable: %d->%d" [sg; tg]
            (touched Disabled tg s)).
  split.
  - unfold enable. py_unfold. rewrite map_getitem_run.
    rewrite <- (app_nil_r (bucket Disabled tg s)).
    rewrite enable_loop_skip.
    + simpl. by rewrite logging_run.
    + intros c Hc Hk. apply Hno. by exists c.
  - split_and!; try done.
    + apply all_disabled_touched.
    + intros t. apply (bucket_touched_any Disabled).
Qed.

Lemma enable_absent_warns_witness :
  ∃ s', enable 1 10 examples.manager = Ret tt s' ∧
        logs s' = logs examples.manager ++
                  [Log WARNING "Non-existing connection to enable: %d->%d" [1; 10]] ∧
        heap s' = heap examples.manager ∧
        _connections_map s' = _connections_map examples.manager ∧
        all_disabled s' = all_disabled examples.manager ∧
        (∀ t, bucket Disabled t s' = bucket Disabled t examples.manager).
Proof.
  apply (enable_absent_warns examples.manager 1 10).
  intros (a & Ha & _). by apply elem_of_nil in Ha.
Defined.

(** [enable] does not check the active index first.  When the first
    disabled connection [a] of the pair (sg, tg) is enabled while the
    active index already holds a connection of that pair,
    [store_connection] refuses it with an error record, and [enable] goes
    on to delete [a] from the disabled bucket and to clear its flag: the
    active dictionary is unchanged and the disabled bucket has lost
    [a]. *)
Theorem enable_over_active_drops (s : State) (sg tg : Z) (a : Addr)
    (before after : list Addr) :
  well_formed s →
  bucket Disabled tg s = before ++ a :: after →
  (∀ c, c ∈ before → key_of s c ≠ sg) →
  key_of s a = sg →
  present Active s sg tg →
  ∃ s', enable sg tg s = Ret tt s' ∧
        _connections_map s' = _connections_map s ∧
        bucket Disabled tg s' = before ++ after ∧
        (∀ t, t ≠ tg → bucket Disabled t s' = bucket Disabled t s) ∧
        heap s' = alter (Connection_set_disabled false) a (heap s) ∧
        logs s' = logs s ++ [Log ERROR "Attempt to store existing connection: %d->%d"
                               [sg; tg]].
Proof.
  intros Hwf Hb Hbefore Hk Hact.
  assert (Ha : a ∈ bucket Disabled tg s).
  { rewrite Hb. apply elem_of_app. right. by left. }
  pose proof (wf_bucket_tgid s Disabled tg a Hwf Ha) as Htg.
  pose proof (bucket_nonempty_lookup _ _ _ _ Ha) as Hlook.
  set (s1 := logged ERROR "Attempt to store existing connection: %d->%d" [sg; tg] s).
  set (s2 := with_bucket Disabled tg (before ++ after) s1).
  exists (with_object a (Connection_set_disabled false) s2).
  assert (Hb2 : bucket Disabled tg s2 = before ++ after).
  { unfold s2. rewrite bucket_with_bucket; [done|]. unfold s1, logged. simpl.
    change (is_Some (od_lookup (conn_map Disabled s) tg)). rewrite Hlook. eauto. }
  split_and!.
  - unfold enable. py_unfold. rewrite map_getitem_run.
    rewrite touched_present by (rewrite Hlook; eauto).
    rewrite Hb, enable_loop_skip by done.
    simpl. py_unfold. change (sgid (deref s a)) with (key_of s a).
    rewrite bool_decide_eq_true_2 by done.
    rewrite store_connection_dup_run.
    2:{ rewrite Htg. by apply wf_bucket_ascending. }
    2:{ by rewrite Hk, Htg. }
    rewrite Hk, Htg. fold s1.
    rewrite (bucket_del_run Disabled tg (length before) a).
    2:{ change (bucket Disabled tg s1) with (bucket Disabled tg s).
        rewrite Hb. by rewrite lookup_app_r, Nat.sub_diag by done. }
    rewrite call_method_run.
    change (bucket Disabled tg s1) with (bucket Disabled tg s). rewrite Hb.
    replace (base.delete (length before) (before ++ a :: after))
      with (before ++ after); [done|].
    rewrite delete_take_drop, take_app_length.
    f_equal. rewrite drop_app_ge by lia.
    by replace (S (length before) - length before)%nat with 1%nat by lia.
  - done.
  - by rewrite bucket_with_object.
  - intros t Hne. rewrite bucket_with_object. unfold s2.
    by rewrite bucket_with_bucket_ne.
  - done.
  - done.
Qed.

Lemma enable_over_active_drops_witness :
  let s := {| heap := examples.objects;
              _connections_map := [(10, [3%nat])];
              _disabled_conns := [(10, [1; 0]%nat)];
              _syn_params := []; _circuit_target := None;
              _synapse_mode := DualSyns; logs := [] |} in
  ∃ s', enable 1 10 s = Ret tt s' ∧
        _connections_map s' = _connections_map s ∧
        bucket Disabled 10 s' = [1%nat] ++ [] ∧
        (∀ t, t ≠ 10 → bucket Disabled t s' = bucket Disabled t s) ∧
        heap s' = alter (Connection_set_disabled false) 0%nat (heap s) ∧
        logs s' = logs s ++ [Log ERROR "Attempt to store existing connection: %d->%d"
                               [1; 10]].
Proof.
  apply (enable_over_active_drops _ 1 10 0%nat [1%nat] []).
  - split; simpl.
    + apply (bool_decide_unpack _). by vm_compute.
    + apply (bool_decide_unpack _). by vm_compute.
    + repeat constructor.
    + repeat constructor.
    + repeat constructor.
  - reflexivity.
  - intros c ->%list_elem_of_singleton. by vm_compute.
  - reflexivity.
  - exists 3%nat. split; [repeat constructor|reflexivity].
Defined.

(** *** What the group operations do *)

Lemma if_run {S A} (b : bool) (m1 m2 : Py S A) (s : S) :
  (if b then m1 else m2) s = if b then m1 s else m2 s.
Proof. by destruct b. Qed.

Lemma find_group_delete_run (pre_gids : option (list Z)) tg (fuel : nat) :
  ∀ (seen rest : list Addr) s,
  (length rest < fuel)%nat →
  is_Some (od_lookup (conn_map Active s) tg) →
  bucket Active tg s = seen ++ rest →
  _find_group_in_conns fuel Active tg pre_gids
    (λ _ lst idx, bucket_del Active lst idx) (length seen) s =
  Ret tt (with_bucket Active tg
            (seen ++ swept (λ c, matches pre_gids (key_of s c)) rest) s).
Proof.
  induction fuel as [|fuel IH]; intros seen rest s Hfuel Hsome Hb; [lia|].
  simpl. py_unfold. rewrite Hb.
  destruct rest as [|x rest].
  - rewrite lookup_ge_None_2 by (rewrite length_app; simpl; lia).
    simpl. rewrite <- Hb. by rewrite with_bucket_id.
  - rewrite lookup_app_r, Nat.sub_diag by done. simpl.
    change (sgid (deref s x)) with (key_of s x).
    destruct (matches pre_gids (key_of s x)) eqn:Hm.
    + rewrite (bucket_del_run Active tg (length seen) x)
        by (by rewrite Hb, lookup_app_r, Nat.sub_diag by done).
      rewrite Hb.
      assert (Hdel : base.delete (length seen) (seen ++ x :: rest) = seen ++ rest).
      { rewrite delete_take_drop, take_app_length. f_equal.
        rewrite drop_app_ge by lia.
        by replace (S (length seen) - length seen)%nat with 1%nat by lia. }
      rewrite Hdel. set (s1 := with_bucket Active tg (seen ++ rest) s).
      assert (Hb1 : bucket Active tg s1 = seen ++ rest)
        by (unfold s1; by rewrite bucket_with_bucket).
      destruct rest as [|y rest].
      * destruct fuel as [|fuel]; [simpl in Hfuel; lia|].
        simpl. py_unfold. rewrite Hb1.
        by rewrite lookup_ge_None_2 by (rewrite length_app; simpl; lia).
      * replace (S (length seen)) with (length (seen ++ [y]))
          by (rewrite length_app; simpl; lia).
        rewrite (IH (seen ++ [y]) rest s1).
        -- unfold s1. rewrite with_bucket_with_bucket.
           by rewrite <- app_assoc.
        -- simpl in Hfuel. lia.
        -- unfold s1, with_bucket. rewrite conn_map_set.
           rewrite od_lookup_update_eq; eauto.
        -- rewrite Hb1. by rewrite <- app_assoc.
    + replace (S (length seen)) with (length (seen ++ [x]))
        by (rewrite length_app; simpl; lia).
      rewrite (IH (seen ++ [x]) rest s).
      * by rewrite <- app_assoc.
      * simpl in Hfuel. lia.
      * done.
      * rewrite Hb. by rewrite <- app_assoc.
Qed.

Lemma elem_of_swept {A} (p : A → bool) (n : nat) : ∀ (l : list A) (a : A),
  (length l ≤ n)%nat → a ∈ swept p l → a ∈ l.
Proof.
  induction n as [|n IH]; intros [|x [|y l]] a Hl; simpl in *; try lia; try done.
  - destruct (p x); [by intros ?%elem_of_nil|done].
  - destruct (p x).
    + intros [->|Ha]%elem_of_cons; [right; by left|].
      right. right. apply IH; [lia|done].
    + intros [->|Ha]%elem_of_cons; [by left|].
      right. apply (IH (y :: l)); [simpl; lia|done].
Qed.


Lemma find_group_delete_items (post_gids pre_gids : option (list Z)) (s0 : State) :
  ∀ (items : list Z) s,
  NoDup items →
  heap s = heap s0 →
  (∀ tg, tg ∈ items → is_Some (od_lookup (conn_map Active s) tg)) →
  ∃ s', _find_group_in_items Active items post_gids pre_gids
          (λ _ lst idx, bucket_del Active lst idx) s = Ret tt s' ∧
        od_keys (_connections_map s') = od_keys (_connections_map s) ∧
        (∀ tg, bucket Active tg s' =
               if bool_decide (tg ∈ items) && matches post_gids tg
               then swept (λ c, matches pre_gids (key_of s0 c)) (bucket Active tg s)
               else bucket Active tg s) ∧
        heap s' = heap s ∧ logs s' = logs s ∧
        _disabled_conns s' = _disabled_conns s.
Proof.
  induction items as [|tg items IH]; intros s Hnd Hheap Hkeys.
  - exists s. split_and!; try done.
  - apply NoDup_cons in Hnd as [Hnotin Hnd].
    cbn [_find_group_in_items]. py_unfold.
    assert (Hsome : is_Some (od_lookup (conn_map Active s) tg))
      by (apply Hkeys; by left).
    set (s1 := if matches post_gids tg
               then with_bucket Active tg
                      (swept (λ c, matches pre_gids (key_of s0 c))
                         (bucket Active tg s)) s
               else s).
    assert (Hrun1 : (if matches post_gids tg
                     then _find_group_in_conns (S (length (bucket Active tg s)))
                            Active tg pre_gids
                            (λ _ lst idx, bucket_del Active lst idx) 0 s
                     else Ret tt s) = Ret tt s1).
    { unfold s1. destruct (matches post_gids tg); [|done].
      rewrite (find_group_delete_run pre_gids tg _ [] (bucket Active tg s));
        [|lia|done|done].
      by rewrite (key_of_heap s s0). }
    assert (Hheap1 : heap s1 = heap s).
    { unfold s1. by destruct (matches post_gids tg). }
    assert (Hother : ∀ t, t ≠ tg → bucket Active t s1 = bucket Active t s).
    { intros t Hne. unfold s1. destruct (matches post_gids tg); [|done].
      by rewrite bucket_with_bucket_ne. }
    assert (Hlook1 : ∀ t, is_Some (od_lookup (conn_map Active s) t) →
                          is_Some (od_lookup (conn_map Active s1) t)).
    { intros t Ht. unfold s1. destruct (matches post_gids tg); [|done].
      unfold with_bucket. rewrite conn_map_set.
      destruct (decide (tg = t)) as [<-|Hne].
      - rewrite od_lookup_update_eq; eauto.
      - by rewrite od_lookup_update_ne. }
    destruct (IH s1 Hnd) as (s' & Hrun & Hk' & Hb' & Hh' & Hl' & Hd').
    { by rewrite Hheap1. }
    { intros t Ht. apply Hlook1, Hkeys. by right. }
    exists s'. split_and!.
    + rewrite if_run. py_step. rewrite Hrun1. exact Hrun.
    + rewrite Hk'. unfold s1. destruct (matches post_gids tg); [|done].
      unfold with_bucket. simpl. apply od_keys_update.
    + intros t. rewrite Hb'. destruct (decide (t = tg)) as [->|Hne].
      * rewrite (bool_decide_eq_false_2 (tg ∈ items)) by done.
        rewrite (bool_decide_eq_true_2 (tg ∈ tg :: items)) by (by left).
        simpl. unfold s1. destruct (matches post_gids tg); [|done].
        by rewrite bucket_with_bucket.
      * rewrite Hother by done.
        destruct (decide (t ∈ items)) as [Hin|Hin].
        -- rewrite !bool_decide_eq_true_2; [done|by right|done].
        -- rewrite !bool_decide_eq_false_2; [done| |done].
           by intros [?|?]%elem_of_cons.
    + by rewrite Hh'.
    + rewrite Hl'. unfold s1. by destruct (matches post_gids tg).
    + rewrite Hd'. unfold s1. by destruct (matches post_gids tg).
Qed.

Lemma delete_group_sweeps_run (s : State) (post_gids pre_gids : option (list Z)) :
  NoDup (od_keys (_connections_map s)) →
  ∃ s', delete_group post_gids pre_gids s = Ret tt s' ∧
        od_keys (_connections_map s') = od_keys (_connections_map s) ∧
        (∀ tg, bucket Active tg s' =
               if matches post_gids tg
               then swept (λ c, matches pre_gids (key_of s c)) (bucket Active tg s)
               else bucket Active tg s) ∧
        heap s' = heap s ∧ logs s' = logs s ∧
        _disabled_conns s' = _disabled_conns s.
Proof.
  intros Hnd.
  destruct (find_group_delete_items post_gids pre_gids s
              (od_keys (_connections_map s)) s Hnd eq_refl)
    as (s' & Hrun & Hk & Hb & Hh & Hl & Hd).
  { intros tg Htg. destruct (od_lookup (conn_map Active s) tg) eqn:Hlook; [eauto|].
    by apply od_lookup_None in Hlook. }
  exists s'. split_and!; try done.
  intros tg. rewrite Hb.
  destruct (decide (tg ∈ od_keys (_connections_map s))) as [Hin|Hin].
  - by rewrite bool_decide_eq_true_2.
  - rewrite bool_decide_eq_false_2 by done. simpl.
    assert (Hempty : bucket Active tg s = []).
    { unfold bucket, conn_map. by rewrite (proj2 (od_lookup_None _ _) Hin). }
    rewrite Hempty. by destruct (matches post_gids tg).
Qed.

(** What [delete_group] leaves.  The generator walks each selected
    bucket by index while the loop body removes the entry just yielded,
    so the entry that follows a removed one is never examined.  For a
    manager whose dictionary has no repeated key, [delete_group] returns
    normally and leaves of each bucket whose gid the post filter selects
    exactly what this walk skips or rejects; the other buckets, the
    keys, the disabled index, the objects and the log are unchanged. *)
Theorem delete_group_sweeps (s : State) (post_gids pre_gids : option (list Z)) :
  NoDup (od_keys (_connections_map s)) →
  ∃ s', delete_group post_gids pre_gids s = Ret tt s' ∧
        od_keys (_connections_map s') = od_keys (_connections_map s) ∧
        (∀ tg, bucket Active tg s' =
               if matches post_gids tg
               then swept (λ c, matches pre_gids (key_of s c)) (bucket Active tg s)
               else bucket Active tg s) ∧
        (∀ tg a, a ∈ bucket Active tg s' → a ∈ bucket Active tg s) ∧
        heap s' = heap s ∧ logs s' = logs s ∧
        _disabled_conns s' = _disabled_conns s.
Proof.
  intros Hnd.
  destruct (delete_group_sweeps_run s post_gids pre_gids Hnd)
    as (s' & Hrun & Hk & Hb & Hh & Hl & Hd).
  exists s'. split_and!; try done.
  intros tg a. rewrite Hb. destruct (matches post_gids tg); [|done].
  apply (elem_of_swept _ (length (bucket Active tg s))). done.
Qed.

Lemma delete_group_sweeps_witness :
  ∃ s', delete_group None (Some [1; 7]) examples.manager = Ret tt s' ∧
        od_keys (_connections_map s') = od_keys (_connections_map examples.manager) ∧
        (∀ tg, bucket Active tg s' =
               if matches None tg
               then swept (λ c, matches (Some [1; 7]) (key_of examples.manager c))
                      (bucket Active tg examples.manager)
               else bucket Active tg examples.manager) ∧
        (∀ tg a, a ∈ bucket Active tg s' → a ∈ bucket Active tg examples.manager) ∧
        heap s' = heap examples.manager ∧ logs s' = logs examples.manager ∧
        _disabled_conns s' = _disabled_conns examples.manager.
Proof.
  apply (delete_group_sweeps examples.manager None (Some [1; 7])).
  apply (bool_decide_unpack _). by vm_compute.
Defined.

Lemma swept_filter {A} (p : A → bool) (n : nat) : ∀ l : list A,
  (length l ≤ n)%nat →
  (∀ i x y, l !! i = Some x → l !! S i = Some y → p x = true → p y = false) →
  swept p l = filter (λ x, p x = false) l.
Proof.
  induction n as [|n IH]; intros [|x [|y l]] Hl Hadj; simpl in *; try lia; try done.
  - rewrite filter_cons, filter_nil.
    destruct (p x) eqn:Hx; [by rewrite decide_False|by rewrite decide_True].
  - assert (Htail : ∀ i a b, (y :: l) !! i = Some a → (y :: l) !! S i = Some b →
                             p a = true → p b = false).
    { intros i a b Ha Hb. apply (Hadj (S i)); done. }
    destruct (p x) eqn:Hx.
    + pose proof (Hadj 0%nat x y eq_refl eq_refl Hx) as Hy.
      rewrite (filter_cons _ x), decide_False by (by rewrite Hx).
      rewrite (filter_cons _ y), decide_True by done.
      f_equal. apply IH; [lia|].
      intros i a b Ha Hb. apply (Htail (S i)); done.
    + rewrite (filter_cons _ x), decide_True by done.
      f_equal. apply (IH (y :: l)); [simpl; lia|done].
Qed.

Lemma ascending_filter {A} (keyf : A → Z) (P : A → Prop) `{∀ x, Decision (P x)}
    (l : list A) :
  ascending keyf l → ascending keyf (filter P l).
Proof.
  induction l as [|x l IH]; [done|].
  rewrite ascending_cons. intros [Hl Hx].
  rewrite filter_cons. destruct (decide (P x)); [|by apply IH].
  apply ascending_cons. split; [by apply IH|].
  intros y [_ Hy]%list_elem_of_filter. by apply Hx.
Qed.

(** With one source gid as the pre filter, two matching connections
    never follow each other in a bucket, since a bucket holds a source
    gid once; the walk then misses nothing.  In a well-formed state
    [delete_group post_gids [g]] removes the connection from [g] from
    every bucket the post filter selects and nothing else, and leaves a
    well-formed state in which no selected gid has a connection from
    [g]. *)
Theorem delete_group_single_source (s : State) (post_gids : option (list Z)) (g : Z) :
  well_formed s →
  ∃ s', delete_group post_gids (Some [g]) s = Ret tt s' ∧
        (∀ tg, bucket Active tg s' =
               if matches post_gids tg
               then filter (λ c, key_of s c ≠ g) (bucket Active tg s)
               else bucket Active tg s) ∧
        (∀ tg, matches post_gids tg = true → ¬ present Active s' g tg) ∧
        well_formed s' ∧
        heap s' = heap s ∧ logs s' = logs s ∧
        _disabled_conns s' = _disabled_conns s.
Proof.
  intros Hwf.
  destruct (delete_group_sweeps_run s post_gids (Some [g]) (wf_keys_active s Hwf))
    as (s' & Hrun & Hk & Hb & Hh & Hl & Hd).
  assert (Hb' : ∀ tg, bucket Active tg s' =
                      if matches post_gids tg
                      then filter (λ c, key_of s c ≠ g) (bucket Active tg s)
                      else bucket Active tg s).
  { intros tg. rewrite Hb. destruct (matches post_gids tg); [|done].
    rewrite (swept_filter _ (length (bucket Active tg s))); [|done|].
    - apply list_filter_iff. intros c. simpl.
      case_bool_decide as Hc.
      + apply list_elem_of_singleton in Hc. split; [done|]. by intros [].
      + rewrite list_elem_of_singleton in Hc. done.
    - intros i x y Hx Hy. simpl. intros Hpx%bool_decide_eq_true.
      apply list_elem_of_singleton in Hpx. apply bool_decide_eq_false.
      rewrite list_elem_of_singleton. intros Hpy.
      pose proof (ascending_lookup_lt (key_of s) _ i (S i) x y
                    (wf_bucket_ascending s tg Hwf) Hx Hy) as Hlt.
      lia. }
  assert (Hkey : key_of s' = key_of s) by (by apply key_of_heap).
  assert (Hsub : ∀ tg a, a ∈ bucket Active tg s' → a ∈ bucket Active tg s).
  { intros tg a. rewrite Hb'. destruct (matches post_gids tg); [|done].
    by intros [_ ?]%list_elem_of_filter. }
  assert (Hentry : ∀ e, e ∈ _connections_map s' → e.2 = bucket Active e.1 s').
  { intros [tg b] He. simpl. unfold bucket, conn_map.
    rewrite (od_elem_of_lookup _ tg b); [done| |done].
    rewrite Hk. apply Hwf. }
  exists s'. split_and!; try done.
  - intros tg Hm (a & Ha & Hka). rewrite Hb', Hm in Ha.
    apply list_elem_of_filter in Ha as [Hne _]. by rewrite Hkey in Hka.
  - split.
    + rewrite Hk. apply Hwf.
    + rewrite Hd. apply Hwf.
    + apply Forall_forall. intros e He. rewrite (Hentry e He), Hkey, Hb'.
      destruct (matches post_gids e.1).
      * apply ascending_filter. by apply wf_bucket_ascending.
      * by apply wf_bucket_ascending.
    + apply Forall_forall. intros e He. rewrite (Hentry e He).
      apply Forall_forall. intros a Ha.
      rewrite (deref_heap s' s) by done.
      apply (wf_bucket_tgid s Active); [done|]. by apply Hsub.
    + rewrite Hd. eapply consistent_heap; [symmetry; exact Hh|]. apply Hwf.
Qed.

Lemma delete_group_single_source_witness :
  ∃ s', delete_group (Some [10]) (Some [2]) examples.manager = Ret tt s' ∧
        (∀ tg, bucket Active tg s' =
               if matches (Some [10]) tg
               then filter (λ c, key_of examples.manager c ≠ 2)
                      (bucket Active tg examples.manager)
               else bucket Active tg examples.manager) ∧
        (∀ tg, matches (Some [10]) tg = true → ¬ present Active s' 2 tg) ∧
        well_formed s' ∧
        heap s' = heap examples.manager ∧ logs s' = logs examples.manager ∧
        _disabled_conns s' = _disabled_conns examples.manager.
Proof.
  apply (delete_group_single_source examples.manager (Some [10]) 2).
  apply well_formed_examples_manager.
Defined.

(** *** Walks of [_find_group_in], for any consumer *)

Lemma visits_app T l1 l2 s s1 s2 :
  visits T l1 s s1 → visits T l2 s1 s2 → visits T (l1 ++ l2) s s2.
Proof.
  induction 1 as [|tg x l s s' s1 HT Hv IH]; intros H2; [done|].
  simpl. econstructor; [exact HT|]. by apply IH.
Qed.

Section group_walk.
Variables (w : Index) (post_gids pre_gids : option (list Z)).
Variable body : Addr → Z → nat → Py State unit.
Variable s0 : State.
Variable Inv : State → Prop.
Variable T : Z → Addr → State → State → Prop.

Hypothesis Hkey : ∀ s, Inv s → ∀ a, key_of s a = key_of s0 a.
Hypothesis Hbody : ∀ tg x i s,
  Inv s → bucket w tg s !! i = Some x → matches pre_gids (key_of s0 x) = true →
  ∃ s', body x tg i s = Ret tt s' ∧
        bucket w tg s' = base.delete i (bucket w tg s) ∧
        (∀ t, t ≠ tg → bucket w t s' = bucket w t s) ∧
        Inv s' ∧ T tg x s s'.

Lemma walk_conns tg (fuel : nat) : ∀ (seen rest : list Addr) s,
  (length rest < fuel)%nat → Inv s →
  bucket w tg s = seen ++ rest →
  ∃ s', _find_group_in_conns fuel w tg pre_gids body (length seen) s = Ret tt s' ∧
        Inv s' ∧
        bucket w tg s' = seen ++ swept (λ c, matches pre_gids (key_of s0 c)) rest ∧
        (∀ t, t ≠ tg → bucket w t s' = bucket w t s) ∧
        visits T ((λ x, (tg, x)) <$>
                    visited (λ c, matches pre_gids (key_of s0 c)) rest) s s'.
Proof using Hkey Hbody.
  induction fuel as [|fuel IH]; intros seen rest s Hfuel Hinv Hb; [lia|].
  simpl. py_unfold. rewrite Hb.
  destruct rest as [|x rest].
  - rewrite lookup_ge_None_2 by (rewrite length_app; simpl; lia).
    exists s. split_and!; try done. constructor.
  - rewrite lookup_app_r, Nat.sub_diag by done. cbn [lookup list_lookup].
    change (sgid (deref s x)) with (key_of s x). rewrite (Hkey s Hinv).
    cbn [swept visited].
    destruct (matches pre_gids (key_of s0 x)) eqn:Hm.
    + destruct (Hbody tg x (length seen) s Hinv) as (s1 & Hrun1 & Hb1 & Hoth1 & Hinv1 & HT1);
        [by rewrite Hb, lookup_app_r, Nat.sub_diag by done|done|].
      rewrite Hrun1.
      assert (Hdel : base.delete (length seen) (seen ++ x :: rest) = seen ++ rest).
      { rewrite delete_take_drop, take_app_length. f_equal.
        rewrite drop_app_ge by lia.
        by replace (S (length seen) - length seen)%nat with 1%nat by lia. }
      rewrite Hb, Hdel in Hb1.
      destruct rest as [|y rest].
      * destruct fuel as [|fuel]; [simpl in Hfuel; lia|].
        simpl. py_unfold. rewrite Hb1.
        rewrite lookup_ge_None_2 by (rewrite length_app; simpl; lia).
        exists s1. split_and!; try done. simpl. econstructor; [done|constructor].
      * replace (S (length seen)) with (length (seen ++ [y]))
          by (rewrite length_app; simpl; lia).
        destruct (IH (seen ++ [y]) rest s1) as (s' & Hrun & Hinv' & Hb' & Hoth' & Hv');
          [simpl in Hfuel; lia|done|by rewrite Hb1, <- app_assoc|].
        exists s'. split_and!; try done.
        -- by rewrite Hb', <- app_assoc.
        -- intros t Hne. by rewrite Hoth', Hoth1.
        -- simpl. econstructor; done.
    + replace (S (length seen)) with (length (seen ++ [x]))
        by (rewrite length_app; simpl; lia).
      destruct (IH (seen ++ [x]) rest s) as (s' & Hrun & Hinv' & Hb' & Hoth' & Hv');
        [simpl in Hfuel; lia|done|by rewrite Hb, <- app_assoc|].
      exists s'. split_and!; try done.
      by rewrite Hb', <- app_assoc.
Qed.

Lemma walk_items : ∀ (items : list Z) s,
  NoDup items → Inv s →
  ∃ s', _find_group_in_items w items post_gids pre_gids body s = Ret tt s' ∧
        Inv s' ∧
        (∀ tg, bucket w tg s' =
               if bool_decide (tg ∈ items) && matches post_gids tg
               then swept (λ c, matches pre_gids (key_of s0 c)) (bucket w tg s)
               else bucket w tg s) ∧
        visits T
          (mjoin ((λ tg, if matches post_gids tg
                        then (λ x, (tg, x)) <$>
                               visited (λ c, matches pre_gids (key_of s0 c))
                                 (bucket w tg s)
                        else []) <$> items)) s s'.
Proof using Hkey Hbody.
  induction items as [|tg items IH]; intros s Hnd Hinv.
  - exists s. split_and!; try done. constructor.
  - apply NoDup_cons in Hnd as [Hnotin Hnd].
    cbn [_find_group_in_items]. py_unfold.
    assert (H1 : ∃ s1,
              (if matches post_gids tg
               then _find_group_in_conns (S (length (bucket w tg s))) w tg
                      pre_gids body 0 s
               else Ret tt s) = Ret tt s1 ∧
              Inv s1 ∧
              bucket w tg s1 =
                (if matches post_gids tg
                 then swept (λ c, matches pre_gids (key_of s0 c)) (bucket w tg s)
                 else bucket w tg s) ∧
              (∀ t, t ≠ tg → bucket w t s1 = bucket w t s) ∧
              visits T (if matches post_gids tg
                        then (λ x, (tg, x)) <$>
                               visited (λ c, matches pre_gids (key_of s0 c))
                                 (bucket w tg s)
                        else []) s s1).
    { destruct (matches post_gids tg).
      - destruct (walk_conns tg (S (length (bucket w tg s))) [] (bucket w tg s) s)
          as (s1 & ? & ? & ? & ? & ?); [lia|done|done|].
        by exists s1.
      - exists s. split_and!; try done. constructor. }
    destruct H1 as (s1 & Hrun1 & Hinv1 & Hb1 & Hoth1 & Hv1).
    destruct (IH s1 Hnd Hinv1) as (s' & Hrun & Hinv' & Hb' & Hv').
    exists s'. split_and!.
    + rewrite if_run. py_step. rewrite Hrun1. exact Hrun.
    + done.
    + intros t. rewrite Hb'. destruct (decide (t = tg)) as [->|Hne].
      * rewrite (bool_decide_eq_false_2 (tg ∈ items)) by done.
        rewrite (bool_decide_eq_true_2 (tg ∈ tg :: items)) by (by left).
        simpl. done.
      * rewrite Hoth1 by done.
        destruct (decide (t ∈ items)) as [Hin|Hin].
        -- rewrite !bool_decide_eq_true_2; [done|by right|done].
        -- rewrite !bool_decide_eq_false_2; [done| |done].
           by intros [?|?]%elem_of_cons.
    + rewrite fmap_cons. simpl. eapply visits_app; [exact Hv1|].
      replace ((λ tg0, if matches post_gids tg0
                       then (λ x, (tg0, x)) <$>
                              visited (λ c, matches pre_gids (key_of s0 c))
                                (bucket w tg0 s)
                       else []) <$> items)
        with ((λ tg0, if matches post_gids tg0
                      then (λ x, (tg0, x)) <$>
                             visited (λ c, matches pre_gids (key_of s0 c))
                               (bucket w tg0 s1)
                      else []) <$> items); [done|].
      apply list_fmap_ext. intros i t Ht. rewrite Hoth1; [done|].
      intros ->. apply Hnotin. by eapply list_elem_of_lookup_2.
Qed.

End group_walk.

(** *** [disable_group] with one source gid *)

Lemma visited_filter {A} (p : A → bool) (n : nat) : ∀ l : list A,
  (length l ≤ n)%nat →
  (∀ i x y, l !! i = Some x → l !! S i = Some y → p x = true → p y = false) →
  visited p l = filter (λ x, p x = true) l.
Proof.
  induction n as [|n IH]; intros [|x [|y l]] Hl Hadj; simpl in *; try lia; try done.
  - rewrite filter_cons, filter_nil.
    destruct (p x) eqn:Hx; [by rewrite decide_True|by rewrite decide_False].
  - assert (Htail : ∀ i a b, (y :: l) !! i = Some a → (y :: l) !! S i = Some b →
                             p a = true → p b = false).
    { intros i a b Ha Hb. apply (Hadj (S i)); done. }
    destruct (p x) eqn:Hx.
    + pose proof (Hadj 0%nat x y eq_refl eq_refl Hx) as Hy.
      rewrite (filter_cons _ x), decide_True by done.
      rewrite (filter_cons _ y), decide_False by (by rewrite Hy).
      f_equal. apply IH; [lia|].
      intros i a b Ha Hb. apply (Htail (S i)); done.
    + rewrite (filter_cons _ x), decide_False by (by rewrite Hx).
      apply (IH (y :: l)); [simpl; lia|done].
Qed.

Local Abbreviation disable_body :=
  (λ (conn : Addr) (lst : Z) (idx : nat),
     s ← get_state;
     let tg := tgid (deref s conn) in
     map_getitem Disabled tg;;
     c ← bucket_pop Active lst idx;
     bucket_append Disabled tg c;;
     call_method conn (Connection_set_disabled true)).

Local Abbreviation group_inv s0 :=
  (λ s : State,
     well_formed s ∧ closed s ∧
     (∀ a, key_of s a = key_of s0 a) ∧
     (∀ a, tgid (deref s a) = tgid (deref s0 a))).

Lemma well_formed_touched w tg s : well_formed s → well_formed (touched w tg s).
Proof.
  intros [Hk1 Hk2 Has Hc1 Hc2]. unfold touched. destruct w; split; simpl; try done.
  - by apply od_keys_getitem_NoDup.
  - apply od_getitem_Forall; [apply ascending_nil|done].
  - apply od_getitem_Forall; [by constructor|done].
  - by apply od_keys_getitem_NoDup.
  - apply od_getitem_Forall; [by constructor|done].
Qed.

Lemma closed_touched w tg s : closed s → closed (touched w tg s).
Proof.
  intros Hc w'. unfold touched.
  destruct w, w'; simpl;
    first [apply od_getitem_Forall; [by constructor|]|idtac];
    first [apply (Hc Active)|apply (Hc Disabled)].
Qed.

Lemma closed_with_bucket w tg b s :
  closed s → Forall (λ a, (a < length (heap s))%nat) b →
  closed (with_bucket w tg b s).
Proof.
  intros Hc Hb w'. unfold with_bucket.
  destruct w, w'; simpl;
    first [apply od_update_Forall; [done|]|idtac];
    first [apply (Hc Active)|apply (Hc Disabled)].
Qed.

Lemma well_formed_with_bucket_disabled tg b s :
  well_formed s → Forall (λ a, tgid (deref s a) = tg) b →
  well_formed (with_bucket Disabled tg b s).
Proof.
  intros [Hk1 Hk2 Has Hc1 Hc2] Hb. unfold with_bucket. split; simpl; try done.
  - by rewrite od_keys_update.
  - by apply (od_update_Forall (λ e, Forall (λ a, tgid (deref s a) = e.1) e.2)).
Qed.

Lemma well_formed_bucket_deleted_at tg i b s :
  well_formed s → bucket Active tg s = b →
  well_formed (with_bucket Active tg (base.delete i b) s).
Proof. intros Hwf <-. by apply well_formed_bucket_deleted. Qed.

Local Abbreviation disable_step :=
  (λ (tg : Z) (x : Addr) (s s' : State),
     bucket Disabled tg s' = bucket Disabled tg s ++ [x] ∧
     (∀ t, t ≠ tg → bucket Disabled t s' = bucket Disabled t s) ∧
     heap s' = alter (Connection_set_disabled true) x (heap s) ∧
     logs s' = logs s).

Lemma disable_body_run s0 tg x i s :
  group_inv s0 s → bucket Active tg s !! i = Some x →
  ∃ s', disable_body x tg i s = Ret tt s' ∧
        bucket Active tg s' = base.delete i (bucket Active tg s) ∧
        (∀ t, t ≠ tg → bucket Active t s' = bucket Active t s) ∧
        group_inv s0 s' ∧ disable_step tg x s s'.
Proof.
  intros (Hwf & Hcl & Hk & Ht) Hx.
  pose proof (list_elem_of_lookup_2 _ _ _ Hx) as Hin.
  pose proof (wf_bucket_tgid s Active tg x Hwf Hin) as Htg.
  pose proof (closed_bucket _ _ _ _ Hcl Hin) as Hlt.
  pose proof (bucket_nonempty_lookup _ _ _ _ Hin) as Hlook.
  set (s1 := touched Disabled tg s).
  set (s2 := with_bucket Active tg (base.delete i (bucket Active tg s)) s1).
  set (s3 := with_bucket Disabled tg (bucket Disabled tg s ++ [x]) s2).
  exists (with_object x (Connection_set_disabled true) s3).
  assert (Hb1 : ∀ t, bucket Active t s1 = bucket Active t s).
  { intros t. unfold s1, touched, bucket. by rewrite conn_map_set_ne. }
  assert (Hl1 : is_Some (od_lookup (conn_map Active s1) tg)).
  { unfold s1. rewrite conn_map_touched_other by done. rewrite Hlook. eauto. }
  assert (Hd2 : bucket Disabled tg s2 = bucket Disabled tg s).
  { unfold s2. rewrite (bucket_with_bucket_other Active Disabled) by done.
    unfold s1. apply bucket_touched. }
  assert (Hl2 : is_Some (od_lookup (conn_map Disabled s2) tg)).
  { unfold s2. rewrite conn_map_with_bucket_other by done.
    unfold s1, touched. rewrite conn_map_set, od_getitem_lookup. eauto. }
  assert (Hwf3 : well_formed s3).
  { unfold s3. apply well_formed_with_bucket_disabled.
    - unfold s2. apply well_formed_bucket_deleted_at; [|by rewrite Hb1].
      unfold s1. by apply well_formed_touched.
    - apply Forall_app. split.
      + apply Forall_forall. intros a Ha. by apply (wf_bucket_tgid s Disabled).
      + by repeat constructor. }
  assert (Hcl3 : closed s3).
  { unfold s3. apply closed_with_bucket.
    - unfold s2. apply closed_with_bucket; [unfold s1; by apply closed_touched|].
      apply Forall_delete_list, Forall_forall. intros a Ha.
      exact (closed_bucket s Active tg a Hcl Ha).
    - apply Forall_app. split; [|by repeat constructor].
      apply Forall_forall. intros a Ha.
      exact (closed_bucket s Disabled tg a Hcl Ha). }
  split_and!.
  - py_unfold. rewrite Htg. rewrite map_getitem_run. fold s1. py_step.
    rewrite (bucket_pop_run Active tg i x) by (by rewrite Hb1).
    rewrite Hb1. fold s2. py_step. rewrite bucket_append_run, Hd2. fold s3.
    by rewrite call_method_run.
  - rewrite bucket_with_object. unfold s3.
    rewrite (bucket_with_bucket_other Disabled Active) by done.
    unfold s2. by rewrite bucket_with_bucket.
  - intros t Hne. rewrite bucket_with_object. unfold s3.
    rewrite (bucket_with_bucket_other Disabled Active) by done.
    unfold s2. by rewrite bucket_with_bucket_ne, Hb1.
  - by apply well_formed_with_object; [apply preserves_ids_set_disabled|].
  - by apply closed_with_object.
  - intros a. rewrite key_of_with_object. apply Hk.
  - intros a. rewrite deref_with_object_tgid. apply Ht.
  - rewrite bucket_with_object. unfold s3. by rewrite bucket_with_bucket.
  - intros t Hne. rewrite bucket_with_object. unfold s3.
    rewrite bucket_with_bucket_ne by done. unfold s2.
    rewrite (bucket_with_bucket_other Active Disabled) by done.
    unfold s1. by apply bucket_touched_ne.
  - done.
  - done.
Qed.

Lemma visits_disable l s s' :
  visits disable_step l s s' →
  (∀ tg, bucket Disabled tg s' =
         bucket Disabled tg s ++ (filter (λ e, e.1 = tg) l).*2) ∧
  heap s' = foldl (λ h e, alter (Connection_set_disabled true) e.2 h) (heap s) l ∧
  logs s' = logs s.
Proof.
  induction 1 as [s|tg x l s s1 s2 (Hd & Hoth & Hh & Hl) Hv (IHd & IHh & IHl)].
  - split_and!; try done. intros tg. by rewrite filter_nil, app_nil_r.
  - split_and!.
    + intros t. rewrite IHd, filter_cons. simpl.
      destruct (decide (tg = t)) as [<-|Hne].
      * rewrite Hd. simpl. by rewrite <- app_assoc.
      * by rewrite Hoth.
    + simpl. by rewrite IHh, Hh.
    + by rewrite IHl.
Qed.

Lemma foldl_alter_notin {A} (f : A → A) (l : list (Z * nat)) : ∀ (h : list A) (a : nat),
  a ∉ l.*2 → foldl (λ h e, alter f e.2 h) h l !! a = h !! a.
Proof.
  induction l as [|e l IH]; intros h a Ha; [done|].
  simpl in *. apply not_elem_of_cons in Ha as [Hne Ha].
  rewrite IH by done. by apply list_lookup_alter_ne.
Qed.

Lemma foldl_alter_set_disabled (b : bool) (l : list (Z * nat)) :
  ∀ (h : list Connection) (a : nat) c,
  a ∈ l.*2 → h !! a = Some c →
  foldl (λ h e, alter (Connection_set_disabled b) e.2 h) h l !! a =
  Some (Connection_set_disabled b c).
Proof.
  induction l as [|e l IH]; intros h a c Ha Hc; [by apply elem_of_nil in Ha|].
  simpl in *. destruct (decide (a ∈ l.*2)) as [Hin|Hnotin].
  - destruct (decide (e.2 = a)) as [Heq|Hne].
    + rewrite (IH _ a (Connection_set_disabled b c) Hin); [done|].
      by rewrite Heq, list_lookup_alter_eq, Hc.
    + rewrite (IH _ a c Hin); [done|]. by rewrite list_lookup_alter_ne.
  - apply elem_of_cons in Ha as [->|Ha]; [|done].
    rewrite foldl_alter_notin by done.
    by rewrite list_lookup_alter_eq, Hc.
Qed.

Lemma single_source_not_adjacent s tg g :
  well_formed s →
  ∀ i x y, bucket Active tg s !! i = Some x → bucket Active tg s !! S i = Some y →
           matches (Some [g]) (key_of s x) = true →
           matches (Some [g]) (key_of s y) = false.
Proof.
  intros Hwf i x y Hx Hy. simpl. intros Hpx%bool_decide_eq_true.
  apply list_elem_of_singleton in Hpx. apply bool_decide_eq_false.
  rewrite list_elem_of_singleton. intros Hpy.
  pose proof (ascending_lookup_lt (key_of s) _ i (S i) x y
                (wf_bucket_ascending s tg Hwf) Hx Hy) as Hlt.
  lia.
Qed.

Lemma swept_single_source s tg g :
  well_formed s →
  swept (λ c, matches (Some [g]) (key_of s c)) (bucket Active tg s) =
  filter (λ c, key_of s c ≠ g) (bucket Active tg s).
Proof.
  intros Hwf.
  rewrite (swept_filter _ (length (bucket Active tg s)));
    [|done|by apply single_source_not_adjacent].
  apply list_filter_iff. intros c. simpl.
  case_bool_decide as Hc.
  - apply list_elem_of_singleton in Hc. split; [done|]. by intros [].
  - rewrite list_elem_of_singleton in Hc. done.
Qed.

Lemma visited_single_source s tg g :
  well_formed s →
  visited (λ c, matches (Some [g]) (key_of s c)) (bucket Active tg s) =
  filter (λ c, key_of s c = g) (bucket Active tg s).
Proof.
  intros Hwf.
  rewrite (visited_filter _ (length (bucket Active tg s)));
    [|done|by apply single_source_not_adjacent].
  apply list_filter_iff. intros c. simpl.
  rewrite bool_decide_eq_true. apply list_elem_of_singleton.
Qed.

Lemma filter_fst_same {A} (t : Z) (l : list A) :
  filter (λ e : Z * A, e.1 = t) ((λ x, (t, x)) <$> l) = (λ x, (t, x)) <$> l.
Proof.
  induction l as [|x l IH]; [done|].
  rewrite fmap_cons, filter_cons. simpl. rewrite decide_True by done.
  by rewrite IH.
Qed.

Lemma filter_fst_other {A} (t tg : Z) (l : list A) :
  t ≠ tg → filter (λ e : Z * A, e.1 = tg) ((λ x, (t, x)) <$> l) = [].
Proof.
  intros Hne. induction l as [|x l IH]; [done|].
  rewrite fmap_cons, filter_cons. simpl. by rewrite decide_False.
Qed.

Lemma filter_fst_mjoin {A} (f : Z → list A) (tg : Z) (keys : list Z) :
  NoDup keys →
  filter (λ e, e.1 = tg) (mjoin ((λ t, (λ x, (t, x)) <$> f t) <$> keys)) =
  if bool_decide (tg ∈ keys) then (λ x, (tg, x)) <$> f tg else [].
Proof.
  induction keys as [|t keys IH]; intros Hnd; [done|].
  apply NoDup_cons in Hnd as [Hnotin Hnd].
  rewrite fmap_cons. simpl. rewrite filter_app, IH by done.
  destruct (decide (t = tg)) as [->|Hne].
  - rewrite (bool_decide_eq_true_2 (tg ∈ tg :: keys)) by (by left).
    rewrite (bool_decide_eq_false_2 (tg ∈ keys)) by done.
    by rewrite app_nil_r, filter_fst_same.
  - rewrite filter_fst_other by done. simpl.
    destruct (decide (tg ∈ keys)).
    + by rewrite !bool_decide_eq_true_2 by (done || by right).
    + rewrite !bool_decide_eq_false_2; [done| |done].
      intros [?|?]%elem_of_cons; done.
Qed.

(** The run of [disable_group] with one source gid, with the facts
    later runs need: keys are stable and the state stays closed. *)
Lemma disable_group_single_source_run (s : State) (post_gids : option (list Z))
    (g : Z) (z : bool) :
  well_formed s → closed s →
  ∃ s', disable_group post_gids (Some [g]) z s = Ret tt s' ∧
        (∀ tg, bucket Active tg s' =
               if matches post_gids tg
               then filter (λ c, key_of s c ≠ g) (bucket Active tg s)
               else bucket Active tg s) ∧
        (∀ tg, bucket Disabled tg s' =
               bucket Disabled tg s ++
               if matches post_gids tg
               then filter (λ c, key_of s c = g) (bucket Active tg s)
               else []) ∧
        (∀ tg a, matches post_gids tg = true → a ∈ bucket Active tg s →
                 key_of s a = g →
                 deref s' a = Connection_set_disabled true (deref s a)) ∧
        (∀ a, (∀ tg, matches post_gids tg = true → a ∈ bucket Active tg s →
                     key_of s a ≠ g) →
              deref s' a = deref s a) ∧
        (∀ a, key_of s' a = key_of s a) ∧
        well_formed s' ∧ closed s' ∧
        logs s' = logs s.
Proof.
  intros Hwf Hcl.
  set (p := λ c, matches (Some [g]) (key_of s c)).
  set (f := λ t, if matches post_gids t then visited p (bucket Active t s) else []).
  destruct (walk_items Active post_gids (Some [g]) disable_body s
              (group_inv s) disable_step) with
    (items := od_keys (conn_map Active s)) (s := s)
    as (s' & Hrun & (Hwf' & Hcl' & Hkey' & _) & Hb & Hv).
  { by intros s1 (_ & _ & Hk & _). }
  { intros tg x i s1 Hinv Hx _. by apply (disable_body_run s). }
  { apply Hwf. }
  { done. }
  apply visits_disable in Hv as (Hd & Hh & Hl).
  assert (Hempty : ∀ tg, tg ∉ od_keys (conn_map Active s) → bucket Active tg s = []).
  { intros tg Hin. unfold bucket. by rewrite (proj2 (od_lookup_None _ _) Hin). }
  assert (Hl2 : ∀ tg,
            (filter (λ e, e.1 = tg)
               (mjoin ((λ t, if matches post_gids t
                             then (λ x, (t, x)) <$> visited p (bucket Active t s)
                             else []) <$> od_keys (conn_map Active s)))).*2 =
            if matches post_gids tg
            then filter (λ c, key_of s c = g) (bucket Active tg s) else []).
  { intros tg.
    replace ((λ t, if matches post_gids t
                   then (λ x, (t, x)) <$> visited p (bucket Active t s)
                   else []) <$> od_keys (conn_map Active s))
      with ((λ t, (λ x, (t, x)) <$> f t) <$> od_keys (conn_map Active s)).
    2:{ apply list_fmap_ext. intros i t _. unfold f.
        by destruct (matches post_gids t). }
    rewrite filter_fst_mjoin by apply Hwf. unfold f.
    case_bool_decide as Hin.
    - destruct (matches post_gids tg); [|done].
      rewrite <- list_fmap_compose. unfold p.
      rewrite visited_single_source by done.
      etrans; [apply (list_fmap_ext _ id); by intros|]. by rewrite list_fmap_id.
    - rewrite (Hempty tg Hin). by destruct (matches post_gids tg). }
  assert (Hmoved : ∀ a,
            a ∈ (mjoin ((λ t, if matches post_gids t
                              then (λ x, (t, x)) <$> visited p (bucket Active t s)
                              else []) <$> od_keys (conn_map Active s))).*2 ↔
            ∃ tg, matches post_gids tg = true ∧ a ∈ bucket Active tg s ∧
                  key_of s a = g).
  { intros a. rewrite list_elem_of_fmap. split.
    - intros ([tg x] & -> & Hin). exists tg.
      assert (Hx : x ∈ (filter (λ e : Z * Addr, e.1 = tg)
                 (mjoin ((λ t, if matches post_gids t
                               then (λ x, (t, x)) <$> visited p (bucket Active t s)
                               else []) <$> od_keys (conn_map Active s)))).*2).
      { apply list_elem_of_fmap. exists (tg, x). split; [done|].
        by apply list_elem_of_filter. }
      rewrite Hl2 in Hx. destruct (matches post_gids tg); [|by apply elem_of_nil in Hx].
      apply list_elem_of_filter in Hx as [? ?]. done.
    - intros (tg & Hm & Ha & Hk).
      assert (Hx : a ∈ (filter (λ e : Z * Addr, e.1 = tg)
                 (mjoin ((λ t, if matches post_gids t
                               then (λ x, (t, x)) <$> visited p (bucket Active t s)
                               else []) <$> od_keys (conn_map Active s)))).*2).
      { rewrite Hl2, Hm. by apply list_elem_of_filter. }
      apply list_elem_of_fmap in Hx as (e & -> & He).
      apply list_elem_of_filter in He as [_ He]. by exists e. }
  exists s'. split_and!.
  - unfold disable_group, _find_group_in. py_unfold. exact Hrun.
  - intros tg. rewrite Hb. destruct (decide (tg ∈ od_keys (conn_map Active s))) as [Hin|Hin].
    + rewrite bool_decide_eq_true_2 by done. simpl.
      destruct (matches post_gids tg); [|done]. by apply swept_single_source.
    + rewrite bool_decide_eq_false_2 by done. simpl.
      rewrite (Hempty tg Hin). by destruct (matches post_gids tg).
  - intros tg. by rewrite Hd, Hl2.
  - intros tg a Hm Ha Hk. unfold deref. rewrite Hh.
    destruct (lookup_lt_is_Some_2 (heap s) a) as [c Hc]; [by eapply closed_bucket|].
    rewrite (foldl_alter_set_disabled true _ _ a c); [by rewrite Hc| |done].
    apply Hmoved. eauto.
  - intros a Ha. unfold deref. rewrite Hh. rewrite foldl_alter_notin; [done|].
    intros (tg & Hm & Hin & Hk)%Hmoved. by apply (Ha tg).
  - done.
  - done.
  - done.
  - done.
Qed.

Lemma closed_examples_manager : closed examples.manager.
Proof. intros []; simpl; repeat constructor. Qed.

(** [disable_group] with one source gid as the pre filter disables
    what it should.  In a well-formed manager whose references all point
    to objects, [disable_group post_gids [g]] returns normally and logs
    nothing; in every bucket the post filter selects, the connection
    from [g] leaves the active bucket, is appended to the disabled bucket
    of the same gid, and gets its disabled flag set; every other
    connection, bucket and object is as before, and the state stays
    well formed. *)
Theorem disable_group_single_source (s : State) (post_gids : option (list Z))
    (g : Z) (z : bool) :
  well_formed s → closed s →
  ∃ s', disable_group post_gids (Some [g]) z s = Ret tt s' ∧
        (∀ tg, bucket Active tg s' =
               if matches post_gids tg
               then filter (λ c, key_of s c ≠ g) (bucket Active tg s)
               else bucket Active tg s) ∧
        (∀ tg, bucket Disabled tg s' =
               bucket Disabled tg s ++
               if matches post_gids tg
               then filter (λ c, key_of s c = g) (bucket Active tg s)
               else []) ∧
        (∀ tg a, matches post_gids tg = true → a ∈ bucket Active tg s →
                 key_of s a = g →
                 deref s' a = Connection_set_disabled true (deref s a)) ∧
        (∀ a, (∀ tg, matches post_gids tg = true → a ∈ bucket Active tg s →
                     key_of s a ≠ g) →
              deref s' a = deref s a) ∧
        well_formed s' ∧
        logs s' = logs s.
Proof.
  intros Hwf Hcl.
  destruct (disable_group_single_source_run s post_gids g z Hwf Hcl)
    as (s' & Hrun & Ha & Hd & Hmv & Hun & _ & Hwf' & _ & Hl).
  by exists s'.
Qed.

Lemma disable_group_single_source_witness :
  ∃ s', disable_group None (Some [1]) false examples.manager = Ret tt s' ∧
        (∀ tg, bucket Active tg s' =
               if matches None tg
               then filter (λ c, key_of examples.manager c ≠ 1)
                      (bucket Active tg examples.manager)
               else bucket Active tg examples.manager) ∧
        (∀ tg, bucket Disabled tg s' =
               bucket Disabled tg examples.manager ++
               if matches None tg
               then filter (λ c, key_of examples.manager c = 1)
                      (bucket Active tg examples.manager)
               else []) ∧
        (∀ tg a, matches None tg = true → a ∈ bucket Active tg examples.manager →
                 key_of examples.manager a = 1 →
                 deref s' a = Connection_set_disabled true (deref examples.manager a)) ∧
        (∀ a, (∀ tg, matches None tg = true → a ∈ bucket Active tg examples.manager →
                     key_of examples.manager a ≠ 1) →
              deref s' a = deref examples.manager a) ∧
        well_formed s' ∧
        logs s' = logs examples.manager.
Proof.
  apply (disable_group_single_source examples.manager None 1 false).
  - apply well_formed_examples_manager.
  - apply closed_examples_manager.
Defined.


(** *** [enable_group] with one source gid *)

Local Abbreviation enable_body :=
  (λ (conn : Addr) (lst : Z) (idx : nat),
     c ← bucket_pop Disabled lst idx;
     store_connection c;;
     call_method conn (Connection_set_disabled false)).

Local Abbreviation enable_step :=
  (λ (tg : Z) (x : Addr) (s s' : State),
     heap s' = alter (Connection_set_disabled false) x (heap s) ∧
     (∀ a, key_of s' a = key_of s a) ∧
     (present Active s (key_of s x) tg →
        logs s' = logs s ++ [Log ERROR "Attempt to store existing connection: %d->%d"
                               [key_of s x; tg]] ∧
        ∀ t, bucket Active t s' = bucket Active t s) ∧
     (¬ present Active s (key_of s x) tg →
        logs s' = logs s ∧
        bucket Active tg s' ≡ₚ x :: bucket Active tg s ∧
        ∀ t, t ≠ tg → bucket Active t s' = bucket Active t s)).

Lemma present_dec s sg tg :
  ascending (key_of s) (bucket Active tg s) →
  present Active s sg tg ∨ ¬ present Active s sg tg.
Proof.
  intros Hasc. destruct (exact_index s sg tg) as [i|] eqn:Hidx.
  - left. unfold exact_index in Hidx.
    destruct (bucket Active tg s !! position s sg tg) as [c|] eqn:Hc; [|done].
    case_bool_decide as Hk; [|done].
    exists c. split; [by eapply list_elem_of_lookup_2|done].
  - right. by apply exact_index_None_absent.
Qed.

Lemma enable_body_run s0 tg x i s :
  group_inv s0 s → bucket Disabled tg s !! i = Some x →
  ∃ s', enable_body x tg i s = Ret tt s' ∧
        bucket Disabled tg s' = base.delete i (bucket Disabled tg s) ∧
        (∀ t, t ≠ tg → bucket Disabled t s' = bucket Disabled t s) ∧
        group_inv s0 s' ∧ enable_step tg x s s'.
Proof.
  intros (Hwf & Hcl & Hk & Ht) Hx.
  pose proof (list_elem_of_lookup_2 _ _ _ Hx) as Hin.
  pose proof (wf_bucket_tgid s Disabled tg x Hwf Hin) as Htg.
  pose proof (closed_bucket _ _ _ _ Hcl Hin) as Hlt.
  pose proof (bucket_nonempty_lookup _ _ _ _ Hin) as Hlook.
  set (s1 := with_bucket Disabled tg (base.delete i (bucket Disabled tg s)) s).
  assert (Hwf1 : well_formed s1).
  { unfold s1. apply well_formed_with_bucket_disabled; [done|].
    apply Forall_delete_list, Forall_forall. intros a Ha.
    by apply (wf_bucket_tgid s Disabled). }
  assert (Hcl1 : closed s1).
  { unfold s1. apply closed_with_bucket; [done|].
    apply Forall_delete_list, Forall_forall. intros a Ha.
    exact (closed_bucket s Disabled tg a Hcl Ha). }
  assert (Hba1 : ∀ t, bucket Active t s1 = bucket Active t s).
  { intros t. unfold s1. by rewrite (bucket_with_bucket_other Disabled Active). }
  assert (Hbd1 : bucket Disabled tg s1 = base.delete i (bucket Disabled tg s)).
  { unfold s1. rewrite bucket_with_bucket; [done|]. rewrite Hlook. eauto. }
  assert (Hbd1' : ∀ t, t ≠ tg → bucket Disabled t s1 = bucket Disabled t s).
  { intros t Hne. unfold s1. by rewrite bucket_with_bucket_ne. }
  assert (Hpres : present Active s1 (key_of s x) tg ↔ present Active s (key_of s x) tg).
  { unfold present. by rewrite Hba1. }
  assert (Hasc1 : ascending (key_of s1) (bucket Active (tgid (deref s1 x)) s1)).
  { by apply wf_bucket_ascending. }
  destruct (present_dec s (key_of s x) tg) as [Hyes|Hno];
    [by apply wf_bucket_ascending| |].
  - set (s2 := logged ERROR "Attempt to store existing connection: %d->%d"
                 [key_of s x; tg] s1).
    exists (with_object x (Connection_set_disabled false) s2).
    split_and!.
    + py_unfold. rewrite (bucket_pop_run Disabled tg i x) by done. fold s1. py_step.
      rewrite store_connection_dup_run; [|done|].
      * change (key_of s1 x) with (key_of s x).
        change (tgid (deref s1 x)) with (tgid (deref s x)). rewrite Htg. fold s2.
        by rewrite call_method_run.
      * change (tgid (deref s1 x)) with (tgid (deref s x)). rewrite Htg.
        by apply Hpres.
    + by rewrite bucket_with_object.
    + intros t Hne. rewrite bucket_with_object. by apply Hbd1'.
    + apply well_formed_with_object; [apply preserves_ids_set_disabled|].
      by apply well_formed_logged.
    + apply closed_with_object. by apply closed_logged.
    + intros a. rewrite key_of_with_object. apply Hk.
    + intros a. rewrite deref_with_object_tgid. apply Ht.
    + done.
    + intros a. by rewrite key_of_with_object.
    + intros _. split; [done|]. intros t. rewrite bucket_with_object. apply Hba1.
    + done.
  - assert (Hno1 : ¬ present Active s1 (key_of s1 x) (tgid (deref s1 x))).
    { change (key_of s1 x) with (key_of s x).
      change (tgid (deref s1 x)) with (tgid (deref s x)). rewrite Htg.
      by rewrite Hpres. }
    exists (with_object x (Connection_set_disabled false) (stored x s1)).
    split_and!.
    + py_unfold. rewrite (bucket_pop_run Disabled tg i x) by done. fold s1. py_step.
      rewrite store_connection_fresh_run by done.
      by rewrite call_method_run.
    + rewrite bucket_with_object, bucket_disabled_stored. done.
    + intros t Hne. rewrite bucket_with_object, bucket_disabled_stored.
      by apply Hbd1'.
    + apply well_formed_with_object; [apply preserves_ids_set_disabled|].
      by apply well_formed_stored.
    + apply closed_with_object. by apply closed_stored.
    + intros a. rewrite key_of_with_object. apply Hk.
    + intros a. rewrite deref_with_object_tgid. apply Ht.
    + done.
    + intros a. by rewrite key_of_with_object.
    + done.
    + intros _. split_and!.
      * done.
      * rewrite bucket_with_object. rewrite <- Htg.
        change (tgid (deref s x)) with (tgid (deref s1 x)).
        rewrite bucket_stored, list_insert_at_perm.
        by rewrite Hba1.
      * intros t Hne. rewrite bucket_with_object.
        rewrite bucket_stored_ne; [apply Hba1|].
        change (tgid (deref s1 x)) with (tgid (deref s x)). by rewrite Htg.
Qed.

Lemma present_ext s s' sg tg :
  (∀ a, key_of s' a = key_of s a) → bucket Active tg s' = bucket Active tg s →
  present Active s' sg tg ↔ present Active s sg tg.
Proof.
  intros Hk Hb. unfold present. rewrite Hb.
  split; intros (a & Ha & Hka); exists a; (split; [done|]); by rewrite <- Hka, Hk.
Qed.

Lemma filter_none {A} (P : A → Prop) `{∀ x, Decision (P x)} (l : list A) :
  (∀ x, x ∈ l → ¬ P x) → filter P l = [].
Proof.
  induction l as [|x l IH]; intros Hl; [done|].
  rewrite filter_cons, decide_False by (apply Hl; by left).
  apply IH. intros y Hy. apply Hl. by right.
Qed.

Lemma filter_all {A} (P : A → Prop) `{∀ x, Decision (P x)} (l : list A) :
  (∀ x, x ∈ l → P x) → filter P l = l.
Proof.
  induction l as [|x l IH]; intros Hl; [done|].
  rewrite filter_cons, decide_True by (apply Hl; by left).
  f_equal. apply IH. intros y Hy. apply Hl. by right.
Qed.

Lemma visits_enable g l s s' :
  visits enable_step l s s' →
  NoDup l.*1 →
  (∀ e, e ∈ l → key_of s e.2 = g ∧ ¬ present Active s g e.1) →
  logs s' = logs s ∧
  heap s' = foldl (λ h e, alter (Connection_set_disabled false) e.2 h) (heap s) l ∧
  (∀ a, key_of s' a = key_of s a) ∧
  ∀ t, bucket Active t s' ≡ₚ (filter (λ e, e.1 = t) l).*2 ++ bucket Active t s.
Proof.
  induction 1 as [s|tg x l s s1 s2 (Hh & Hk1 & _ & Hno) Hv IH]; intros Hnd Hall.
  - split_and!; try done.
  - simpl in Hnd. apply NoDup_cons in Hnd as [Hnotin Hnd].
    destruct (Hall (tg, x)) as [Hkx Hnp]; [by left|]. simpl in Hkx, Hnp.
    rewrite Hkx in Hno. destruct (Hno Hnp) as (Hl1 & Hb1 & Hoth1).
    destruct IH as (Hl2 & Hh2 & Hk2 & Hb2); [done| |].
    { intros e He. destruct (Hall e) as [Hke Hne]; [by right|].
      split; [by rewrite Hk1|].
      rewrite present_ext; [done|done|]. apply Hoth1. intros Heq.
      apply Hnotin. rewrite <- Heq. apply list_elem_of_fmap. by exists e. }
    split_and!.
    + by rewrite Hl2.
    + simpl. by rewrite Hh2, Hh.
    + intros a. by rewrite Hk2.
    + intros t. rewrite Hb2, filter_cons. simpl.
      destruct (decide (tg = t)) as [<-|Hne].
      * simpl. rewrite Hb1.
        assert (Hnil : filter (λ e : Z * Addr, e.1 = tg) l = []).
        { apply filter_none. intros e He Heq. apply Hnotin.
          rewrite <- Heq. apply list_elem_of_fmap. by exists e. }
        by rewrite Hnil.
      * by rewrite Hoth1.
Qed.

Lemma elem_of_mjoin_fst {A} (f : Z → list A) (keys : list Z) (e : Z * A) :
  e ∈ mjoin ((λ t, (λ x, (t, x)) <$> f t) <$> keys) → e.1 ∈ keys ∧ e.2 ∈ f e.1.
Proof.
  induction keys as [|t keys IH]; [by intros ?%elem_of_nil|].
  rewrite fmap_cons. simpl. intros [He|He]%elem_of_app.
  - apply list_elem_of_fmap in He as (x & -> & Hx). split; [by left|done].
  - destruct (IH He). split; [by right|done].
Qed.

Lemma NoDup_fst_mjoin {A} (f : Z → list A) (keys : list Z) :
  NoDup keys → (∀ t, (length (f t) ≤ 1)%nat) →
  NoDup (mjoin ((λ t, (λ x, (t, x)) <$> f t) <$> keys)).*1.
Proof.
  intros Hnd Hlen. induction keys as [|t keys IH]; [constructor|].
  apply NoDup_cons in Hnd as [Hnotin Hnd].
  rewrite fmap_cons. simpl. rewrite fmap_app. apply NoDup_app. split_and!.
  - specialize (Hlen t). destruct (f t) as [|x [|y l]]; simpl in *; try lia.
    + constructor.
    + apply NoDup_singleton.
  - intros k Hk Hk'. apply list_elem_of_fmap in Hk as (e & -> & He).
    apply list_elem_of_fmap in He as (x & -> & Hx). simpl in *.
    apply list_elem_of_fmap in Hk' as (e' & Heq & He').
    apply elem_of_mjoin_fst in He' as [He' _]. by rewrite <- Heq in He'.
  - by apply IH.
Qed.

Lemma filter_two {A} (P : A → Prop) `{∀ x, Decision (P x)} (l : list A) i x y :
  l !! i = Some x → l !! S i = Some y → P x → P y →
  (2 ≤ length (filter P l))%nat.
Proof.
  intros Hx Hy HPx HPy.
  rewrite <- (take_drop_middle l i x Hx), filter_app, length_app.
  assert (Hd : drop (S i) l = y :: drop (S (S i)) l).
  { by rewrite (drop_S l y (S i)). }
  rewrite Hd, filter_cons, decide_True, filter_cons, decide_True by done.
  simpl. lia.
Qed.

(** The run of [enable_group] with one source gid, with the facts
    later runs need: keys are stable and the state stays closed. *)
Lemma enable_group_single_source_run (s : State) (post_gids : option (list Z)) (g : Z) :
  well_formed s → closed s →
  (∀ tg, matches post_gids tg = true → ¬ present Active s g tg) →
  (∀ tg, matches post_gids tg = true →
         (length (filter (λ c, key_of s c = g) (bucket Disabled tg s)) ≤ 1)%nat) →
  ∃ s', enable_group post_gids (Some [g]) s = Ret tt s' ∧
        (∀ tg, bucket Disabled tg s' =
               if matches post_gids tg
               then filter (λ c, key_of s c ≠ g) (bucket Disabled tg s)
               else bucket Disabled tg s) ∧
        (∀ tg, bucket Active tg s' ≡ₚ
               (if matches post_gids tg
                then filter (λ c, key_of s c = g) (bucket Disabled tg s)
                else []) ++ bucket Active tg s) ∧
        (∀ tg a, matches post_gids tg = true → a ∈ bucket Disabled tg s →
                 key_of s a = g →
                 deref s' a = Connection_set_disabled false (deref s a)) ∧
        (∀ a, (∀ tg, matches post_gids tg = true → a ∈ bucket Disabled tg s →
                     key_of s a ≠ g) →
              deref s' a = deref s a) ∧
        (∀ a, key_of s' a = key_of s a) ∧
        well_formed s' ∧ closed s' ∧
        logs s' = logs s.
Proof.
  intros Hwf Hcl Hfree Hone.
  set (p := λ c, matches (Some [g]) (key_of s c)).
  set (f := λ t, if matches post_gids t
                 then filter (λ c, key_of s c = g) (bucket Disabled t s) else []).
  assert (Hp : ∀ c, p c = true ↔ key_of s c = g).
  { intros c. unfold p. simpl. rewrite bool_decide_eq_true.
    apply list_elem_of_singleton. }
  assert (Hadj : ∀ tg, matches post_gids tg = true →
            ∀ i x y, bucket Disabled tg s !! i = Some x →
                     bucket Disabled tg s !! S i = Some y →
                     p x = true → p y = false).
  { intros tg Hm i x y Hx Hy Hpx. destruct (p y) eqn:Hpy; [|done].
    apply Hp in Hpx, Hpy.
    pose proof (filter_two (λ c, key_of s c = g) _ i x y Hx Hy Hpx Hpy).
    specialize (Hone tg Hm). lia. }
  assert (Hvis : ∀ tg, matches post_gids tg = true →
            visited p (bucket Disabled tg s) =
            filter (λ c, key_of s c = g) (bucket Disabled tg s)).
  { intros tg Hm.
    rewrite (visited_filter _ (length (bucket Disabled tg s))); [|done|by apply Hadj].
    apply list_filter_iff. intros c. apply Hp. }
  assert (Hswp : ∀ tg, matches post_gids tg = true →
            swept p (bucket Disabled tg s) =
            filter (λ c, key_of s c ≠ g) (bucket Disabled tg s)).
  { intros tg Hm.
    rewrite (swept_filter _ (length (bucket Disabled tg s))); [|done|by apply Hadj].
    apply list_filter_iff. intros c. rewrite <- Hp. by destruct (p c). }
  destruct (walk_items Disabled post_gids (Some [g]) enable_body s
              (group_inv s) enable_step) with
    (items := od_keys (conn_map Disabled s)) (s := s)
    as (s' & Hrun & (Hwf' & Hcl' & Hkey' & _) & Hb & Hv).
  { by intros s1 (_ & _ & Hk & _). }
  { intros tg x i s1 Hinv Hx _. by apply (enable_body_run s). }
  { apply Hwf. }
  { done. }
  assert (Hlist : (λ t, if matches post_gids t
                        then (λ x, (t, x)) <$> visited p (bucket Disabled t s)
                        else []) <$> od_keys (conn_map Disabled s) =
                  (λ t, (λ x, (t, x)) <$> f t) <$> od_keys (conn_map Disabled s)).
  { apply list_fmap_ext. intros i t _. unfold f.
    destruct (matches post_gids t) eqn:Hm; [|done]. by rewrite Hvis. }
  fold p in Hv, Hb. rewrite Hlist in Hv.
  assert (Hflen : ∀ t, (length (f t) ≤ 1)%nat).
  { intros t. unfold f. destruct (matches post_gids t) eqn:Hm; [by apply Hone|].
    simpl; lia. }
  assert (Hempty : ∀ tg, tg ∉ od_keys (conn_map Disabled s) → bucket Disabled tg s = []).
  { intros tg Hin. unfold bucket. by rewrite (proj2 (od_lookup_None _ _) Hin). }
  apply (visits_enable g) in Hv as (Hl & Hh & Hk & Hact).
  2:{ apply NoDup_fst_mjoin; [apply Hwf|done]. }
  2:{ intros e [Hkeys He]%elem_of_mjoin_fst. unfold f in He.
      destruct (matches post_gids e.1) eqn:Hm; [|by apply elem_of_nil in He].
      apply list_elem_of_filter in He as [? ?]. split; [done|by apply Hfree]. }
  assert (Hl2 : ∀ tg,
            (filter (λ e, e.1 = tg)
               (mjoin ((λ t, (λ x, (t, x)) <$> f t) <$> od_keys (conn_map Disabled s)))).*2
            = f tg).
  { intros tg. rewrite filter_fst_mjoin by apply Hwf.
    case_bool_decide as Hin.
    - rewrite <- list_fmap_compose.
      etrans; [apply (list_fmap_ext _ id); by intros|]. by rewrite list_fmap_id.
    - unfold f. rewrite (Hempty tg Hin). by destruct (matches post_gids tg). }
  assert (Hmoved : ∀ a,
            a ∈ (mjoin ((λ t, (λ x, (t, x)) <$> f t)
                          <$> od_keys (conn_map Disabled s))).*2 ↔
            ∃ tg, matches post_gids tg = true ∧ a ∈ bucket Disabled tg s ∧
                  key_of s a = g).
  { intros a. rewrite list_elem_of_fmap. split.
    - intros (e & -> & [Hkeys He]%elem_of_mjoin_fst). exists e.1. unfold f in He.
      destruct (matches post_gids e.1); [|by apply elem_of_nil in He].
      apply list_elem_of_filter in He as [? ?]. done.
    - intros (tg & Hm & Ha & Hka).
      assert (Hx : a ∈ f tg).
      { unfold f. rewrite Hm. by apply list_elem_of_filter. }
      rewrite <- Hl2 in Hx. apply list_elem_of_fmap in Hx as (e & -> & He).
      apply list_elem_of_filter in He as [_ He]. by exists e. }
  exists s'. split_and!.
  - unfold enable_group, _find_group_in. py_unfold. exact Hrun.
  - intros tg. rewrite Hb.
    destruct (decide (tg ∈ od_keys (conn_map Disabled s))) as [Hin|Hin].
    + rewrite bool_decide_eq_true_2 by done. simpl.
      destruct (matches post_gids tg) eqn:Hm; [|done]. by apply Hswp.
    + rewrite bool_decide_eq_false_2 by done. simpl.
      rewrite (Hempty tg Hin). by destruct (matches post_gids tg).
  - intros tg. by rewrite Hact, Hl2.
  - intros tg a Hm Ha Hka. unfold deref. rewrite Hh.
    destruct (lookup_lt_is_Some_2 (heap s) a) as [c Hc]; [by eapply closed_bucket|].
    rewrite (foldl_alter_set_disabled false _ _ a c); [by rewrite Hc| |done].
    apply Hmoved. eauto.
  - intros a Ha. unfold deref. rewrite Hh. rewrite foldl_alter_notin; [done|].
    intros (tg & Hm & Hin & Hka)%Hmoved. by apply (Ha tg).
  - done.
  - done.
  - done.
  - done.
Qed.

(** [enable_group] with one source gid as the pre filter.  In a
    well-formed manager whose references all point to objects, when no
    selected gid has an active connection from [g] and each selected
    disabled bucket holds at most one connection from [g],
    [enable_group post_gids [g]] returns normally and logs nothing: in
    every selected bucket the connection from [g] leaves the disabled
    bucket, joins the active bucket of the same gid and gets its
    disabled flag cleared; every other connection, bucket and object is
    as before, and the state stays well formed. *)
Theorem enable_group_single_source (s : State) (post_gids : option (list Z)) (g : Z) :
  well_formed s → closed s →
  (∀ tg, matches post_gids tg = true → ¬ present Active s g tg) →
  (∀ tg, matches post_gids tg = true →
         (length (filter (λ c, key_of s c = g) (bucket Disabled tg s)) ≤ 1)%nat) →
  ∃ s', enable_group post_gids (Some [g]) s = Ret tt s' ∧
        (∀ tg, bucket Disabled tg s' =
               if matches post_gids tg
               then filter (λ c, key_of s c ≠ g) (bucket Disabled tg s)
               else bucket Disabled tg s) ∧
        (∀ tg, bucket Active tg s' ≡ₚ
               (if matches post_gids tg
                then filter (λ c, key_of s c = g) (bucket Disabled tg s)
                else []) ++ bucket Active tg s) ∧
        (∀ tg a, matches post_gids tg = true → a ∈ bucket Disabled tg s →
                 key_of s a = g →
                 deref s' a = Connection_set_disabled false (deref s a)) ∧
        (∀ a, (∀ tg, matches post_gids tg = true → a ∈ bucket Disabled tg s →
                     key_of s a ≠ g) →
              deref s' a = deref s a) ∧
        well_formed s' ∧
        logs s' = logs s.
Proof.
  intros Hwf Hcl Hfree Hone.
  destruct (enable_group_single_source_run s post_gids g Hwf Hcl Hfree Hone)
    as (s' & Hrun & Hd & Ha & Hmv & Hun & _ & Hwf' & _ & Hl).
  by exists s'.
Qed.

Lemma enable_group_single_source_witness :
  ∃ s', enable_group None (Some [1]) examples.manager_disabled = Ret tt s' ∧
        (∀ tg, bucket Disabled tg s' =
               if matches None tg
               then filter (λ c, key_of examples.manager_disabled c ≠ 1)
                      (bucket Disabled tg examples.manager_disabled)
               else bucket Disabled tg examples.manager_disabled) ∧
        (∀ tg, bucket Active tg s' ≡ₚ
               (if matches None tg
                then filter (λ c, key_of examples.manager_disabled c = 1)
                       (bucket Disabled tg examples.manager_disabled)
                else []) ++ bucket Active tg examples.manager_disabled) ∧
        (∀ tg a, matches None tg = true →
                 a ∈ bucket Disabled tg examples.manager_disabled →
                 key_of examples.manager_disabled a = 1 →
                 deref s' a =
                 Connection_set_disabled false (deref examples.manager_disabled a)) ∧
        (∀ a, (∀ tg, matches None tg = true →
                     a ∈ bucket Disabled tg examples.manager_disabled →
                     key_of examples.manager_disabled a ≠ 1) →
              deref s' a = deref examples.manager_disabled a) ∧
        well_formed s' ∧
        logs s' = logs examples.manager_disabled.
Proof.
  apply (enable_group_single_source examples.manager_disabled None 1).
  - split; simpl.
    + apply (bool_decide_unpack _). by vm_compute.
    + apply (bool_decide_unpack _). by vm_compute.
    + repeat constructor.
    + repeat constructor.
    + repeat constructor.
  - intros []; simpl; repeat constructor.
  - intros tg _ (a & Ha & Hk). unfold bucket in Ha. simpl in Ha.
    case_bool_decide; simpl in Ha; [|by apply elem_of_nil in Ha].
    apply list_elem_of_singleton in Ha as ->. by vm_compute in Hk.
  - intros tg _. unfold bucket. simpl.
    case_bool_decide; simpl; [|lia]. by vm_compute.
Defined.

Lemma ascending_perm_eq {A} (keyf : A → Z) (l1 : list A) : ∀ l2,
  ascending keyf l1 → ascending keyf l2 → l1 ≡ₚ l2 → l1 = l2.
Proof.
  induction l1 as [|x l1 IH]; intros l2 H1 H2 Hp.
  - by apply Permutation_nil_l in Hp.
  - destruct l2 as [|y l2]; [by apply Permutation_nil_r in Hp|].
    apply ascending_cons in H1 as [H1 Hx]. apply ascending_cons in H2 as [H2 Hy].
    assert (x = y) as ->.
    { assert (Hxin : x ∈ y :: l2) by (rewrite <- Hp; by left).
      assert (Hyin : y ∈ x :: l1) by (rewrite Hp; by left).
      apply elem_of_cons in Hxin as [?|Hxin]; [done|].
      apply elem_of_cons in Hyin as [?|Hyin]; [done|].
      pose proof (Hx y Hyin). pose proof (Hy x Hxin). lia. }
    f_equal. apply IH; [done|done|]. by apply Permutation_cons_inv in Hp.
Qed.

Lemma length_filter_key {A} (keyf : A → Z) (l : list A) (g : Z) :
  ascending keyf l → (length (filter (λ c, keyf c = g) l) ≤ 1)%nat.
Proof.
  intros Hasc.
  destruct (filter (λ c, keyf c = g) l) as [|x [|y r]] eqn:Hf; simpl; try lia.
  assert (Hx : x ∈ filter (λ c, keyf c = g) l) by (rewrite Hf; by left).
  assert (Hy : y ∈ filter (λ c, keyf c = g) l) by (rewrite Hf; right; by left).
  apply list_elem_of_filter in Hx as [Hkx Hx]. apply list_elem_of_filter in Hy as [Hky Hy].
  assert (x = y) as -> by (eapply ascending_keys_inj; [done..|congruence]).
  assert (Hnd : NoDup (filter (λ c, keyf c = g) l)).
  { apply NoDup_filter. by eapply ascending_NoDup. }
  rewrite Hf in Hnd. apply NoDup_cons in Hnd as [Hnotin _].
  destruct Hnotin. by left.
Qed.

(** Disabling and enabling a group by one source gid is a round trip.
    In a well-formed manager whose references all point to objects,
    when no selected gid has a disabled connection from [g],
    [disable_group post_gids [g]] followed by
    [enable_group post_gids [g]] return normally and log nothing, and
    every bucket of the active and of the disabled index holds what it
    held before, in the same order.  The objects are as before except
    that the disabled flag of the connections moved is cleared. *)
Theorem disable_enable_group_restores (s : State) (post_gids : option (list Z))
    (g : Z) (z : bool) :
  well_formed s → closed s →
  (∀ tg, matches post_gids tg = true → ¬ present Disabled s g tg) →
  ∃ s1 s2,
    disable_group post_gids (Some [g]) z s = Ret tt s1 ∧
    enable_group post_gids (Some [g]) s1 = Ret tt s2 ∧
    (∀ tg, bucket Active tg s2 = bucket Active tg s) ∧
    (∀ tg, bucket Disabled tg s2 = bucket Disabled tg s) ∧
    (∀ tg a, matches post_gids tg = true → a ∈ bucket Active tg s →
             key_of s a = g →
             deref s2 a = Connection_set_disabled false (deref s a)) ∧
    (∀ a, (∀ tg, matches post_gids tg = true → a ∈ bucket Active tg s →
                 key_of s a ≠ g) →
          deref s2 a = deref s a) ∧
    well_formed s2 ∧
    logs s2 = logs s.
Proof.
  intros Hwf Hcl Hnone.
  destruct (disable_group_single_source_run s post_gids g z Hwf Hcl)
    as (s1 & Hrun1 & Ha1 & Hd1 & Hmv1 & Hun1 & Hk1 & Hwf1 & Hcl1 & Hl1).
  assert (Hbd : ∀ tg c, matches post_gids tg = true → c ∈ bucket Disabled tg s →
                        key_of s c ≠ g).
  { intros tg c Hm Hc Hkc. apply (Hnone tg Hm). by exists c. }
  assert (Hfe : ∀ l : list Addr, filter (λ c, key_of s1 c = g) l =
                                 filter (λ c, key_of s c = g) l).
  { intros l. apply list_filter_iff. intros c. by rewrite Hk1. }
  assert (Hfn : ∀ l : list Addr, filter (λ c, key_of s1 c ≠ g) l =
                                 filter (λ c, key_of s c ≠ g) l).
  { intros l. apply list_filter_iff. intros c. by rewrite Hk1. }
  assert (HF : ∀ tg, filter (λ c, key_of s1 c = g)
                       (filter (λ c, key_of s c = g) (bucket Active tg s)) =
                     filter (λ c, key_of s c = g) (bucket Active tg s)).
  { intros tg. rewrite Hfe. apply list_filter_filter_l. done. }
  assert (Hd1g : ∀ tg, matches post_gids tg = true →
            filter (λ c, key_of s1 c = g) (bucket Disabled tg s1) =
            filter (λ c, key_of s c = g) (bucket Active tg s)).
  { intros tg Hm. rewrite Hd1, Hm, filter_app, HF, Hfe.
    rewrite filter_none; [done|]. intros c Hc. by apply (Hbd tg). }
  assert (Hd1n : ∀ tg, matches post_gids tg = true →
            filter (λ c, key_of s1 c ≠ g) (bucket Disabled tg s1) =
            bucket Disabled tg s).
  { intros tg Hm. rewrite Hd1, Hm, filter_app, !Hfn.
    rewrite (filter_none _ (filter _ _)).
    - rewrite app_nil_r. apply filter_all. intros c Hc. by apply (Hbd tg).
    - intros c [Hc _]%list_elem_of_filter. by intros []. }
  destruct (enable_group_single_source_run s1 post_gids g Hwf1 Hcl1)
    as (s2 & Hrun2 & Hd2 & Ha2 & Hmv2 & Hun2 & Hk2 & Hwf2 & Hcl2 & Hl2).
  { intros tg Hm (a & Ha & Hka). rewrite Ha1, Hm in Ha.
    apply list_elem_of_filter in Ha as [Hne _]. by rewrite Hk1 in Hka. }
  { intros tg Hm. rewrite Hd1g by done.
    apply length_filter_key. by apply wf_bucket_ascending. }
  exists s1, s2. split_and!; try done.
  - intros tg.
    apply (ascending_perm_eq (key_of s)).
    + eapply ascending_ext; [|by apply (wf_bucket_ascending s2 tg)].
      intros a. by rewrite Hk2, Hk1.
    + by apply wf_bucket_ascending.
    + rewrite Ha2, Ha1. destruct (matches post_gids tg) eqn:Hm; [|done].
      rewrite Hd1g by done. apply filter_app_complement.
  - intros tg. rewrite Hd2. destruct (matches post_gids tg) eqn:Hm.
    + by apply Hd1n.
    + by rewrite Hd1, Hm, app_nil_r.
  - intros tg a Hm Ha Hka.
    rewrite (Hmv2 tg a Hm).
    + by rewrite (Hmv1 tg a Hm Ha Hka).
    + rewrite Hd1, Hm. apply elem_of_app. right. by apply list_elem_of_filter.
    + by rewrite Hk1.
  - intros a Ha. rewrite Hun2; [by apply Hun1|].
    intros tg Hm Hin. rewrite Hk1. rewrite Hd1, Hm in Hin.
    apply elem_of_app in Hin as [Hin|Hin]; [by apply (Hbd tg)|].
    apply list_elem_of_filter in Hin as [_ Hin]. by apply (Ha tg).
  - by rewrite Hl2.
Qed.

Lemma disable_enable_group_restores_witness :
  ∃ s1 s2,
    disable_group (Some [10]) (Some [2]) false examples.manager = Ret tt s1 ∧
    enable_group (Some [10]) (Some [2]) s1 = Ret tt s2 ∧
    (∀ tg, bucket Active tg s2 = bucket Active tg examples.manager) ∧
    (∀ tg, bucket Disabled tg s2 = bucket Disabled tg examples.manager) ∧
    (∀ tg a, matches (Some [10]) tg = true → a ∈ bucket Active tg examples.manager →
             key_of examples.manager a = 2 →
             deref s2 a = Connection_set_disabled false (deref examples.manager a)) ∧
    (∀ a, (∀ tg, matches (Some [10]) tg = true →
                 a ∈ bucket Active tg examples.manager →
                 key_of examples.manager a ≠ 2) →
          deref s2 a = deref examples.manager a) ∧
    well_formed s2 ∧
    logs s2 = logs examples.manager.
Proof.
  apply (disable_enable_group_restores examples.manager (Some [10]) 2 false).
  - apply well_formed_examples_manager.
  - apply closed_examples_manager.
  - intros tg _ (a & Ha & _). by apply elem_of_nil in Ha.
Defined.

(** *** The gap-junction offsets, whatever the file *)

Lemma gj_read_lines_bad_line (line : string) (lines : list string) :
  length (str_split line) ≠ 2%nat →
  GapJunctionManager_init (line :: lines) =
  Raise ValueError {| _gj_offsets := []; gj_sum := PyInt 0 |}.
Proof.
  intros Hlen. unfold GapJunctionManager_init. simpl.
  unfold mbind, Py_bind, py_bind, gj_read_line.
  by destruct (str_split line) as [|gid [|offset [|x rest]]].
Qed.

(** [GapJunctionManager.__init__] gets through [gjinfo.txt] only when
    the file is empty.  With no line it leaves no offset.  Otherwise it
    raises while it reads the first line: ValueError when the line does
    not split into exactly two fields, and TypeError when it does, after
    the offset 0 was appended, because twice the second field is a
    string that cannot be added to the integer sum. *)
Theorem gap_junction_init_first_line :
  GapJunctionManager_init [] = Ret tt {| _gj_offsets := []; gj_sum := PyInt 0 |} ∧
  ∀ (line : string) (lines : list string),
    GapJunctionManager_init (line :: lines) =
    if bool_decide (length (str_split line) = 2%nat)
    then Raise TypeError {| _gj_offsets := [0%float]; gj_sum := PyInt 0 |}
    else Raise ValueError {| _gj_offsets := []; gj_sum := PyInt 0 |}.
Proof.
  split; [done|]. intros line lines. case_bool_decide as Hlen.
  - destruct (str_split line) as [|gid [|offset [|x rest]]] eqn:Hsplit; try done.
    by apply (gj_read_lines_first_line line gid offset).
  - by apply gj_read_lines_bad_line.
Qed.

End manager_facts.

(** ** Record arrays *)

Section numpy_facts.

Lemma index_of_Some (names : list string) (name : string) (j : nat) :
  index_of names name = Some j → names !! j = Some name.
Proof.
  revert j. induction names as [|n names IH]; intros j; simpl; [done|].
  case_bool_decide as Hn.
  - intros [= <-]. by subst.
  - destruct (index_of names name) as [j'|]; simpl; [|done].
    intros [= <-]. by apply IH.
Qed.

Lemma index_of_lt (names : list string) (name : string) (j : nat) :
  index_of names name = Some j → (j < length names)%nat.
Proof. intros H%index_of_Some. by eapply lookup_lt_Some. Qed.

Lemma index_of_inj (names : list string) (n1 n2 : string) (j : nat) :
  index_of names n1 = Some j → index_of names n2 = Some j → n1 = n2.
Proof. intros H1%index_of_Some H2%index_of_Some. congruence. Qed.

Lemma index_of_elem_of (names : list string) (name : string) :
  name ∈ names → is_Some (index_of names name).
Proof.
  induction names as [|n names IH]; simpl.
  - by intros ?%elem_of_nil.
  - intros [->|Hin]%elem_of_cons.
    + rewrite bool_decide_eq_true_2 by done. eauto.
    + case_bool_decide; [eauto|]. destruct (IH Hin) as [j ->]. simpl. eauto.
Qed.

Lemma length_column (j : nat) (a : recarray) :
  length (column j a) = length (records a).
Proof. unfold column. by rewrite length_fmap. Qed.

Lemma dtype_names_set_column j col a :
  dtype_names (set_column j col a) = dtype_names a.
Proof. done. Qed.

Lemma length_records_set_column j col a :
  length col = length (records a) →
  length (records (set_column j col a)) = length (records a).
Proof. intros H. simpl. rewrite length_zip_with. lia. Qed.

Lemma well_shaped_set_column j col a :
  well_shaped a → well_shaped (set_column j col a).
Proof.
  unfold well_shaped. simpl. generalize (dtype_names a). intros names.
  generalize (records a). intros rows. revert col.
  induction rows as [|r rows IH]; intros [|v col] Hall; simpl; try constructor.
  - rewrite length_insert. by apply Forall_cons in Hall as [? _].
  - apply IH. by apply Forall_cons in Hall as [_ ?].
Qed.

(** Reading back the column that was written. *)
Lemma column_set_column j col a :
  well_shaped a → (j < length (dtype_names a))%nat →
  length col = length (records a) →
  column j (set_column j col a) = col.
Proof.
  unfold well_shaped, column. simpl. generalize (dtype_names a). intros names.
  generalize (records a). intros rows. revert col.
  induction rows as [|r rows IH]; intros [|v col] Hall Hj Hlen; simpl in *;
    try done.
  apply Forall_cons in Hall as [Hr Hall].
  rewrite list_lookup_insert_eq by lia. simpl. f_equal. apply IH; [done|done|lia].
Qed.

(** The other columns are as they were. *)
Lemma column_set_column_ne j j' col a :
  j ≠ j' → length col = length (records a) →
  column j' (set_column j col a) = column j' a.
Proof.
  unfold column. simpl. generalize (records a). intros rows. revert col.
  induction rows as [|r rows IH]; intros [|v col] Hne Hlen; simpl in *; try done.
  rewrite list_lookup_insert_ne by done. f_equal. apply IH; [done|lia].
Qed.

Lemma zip_with_fmap_replicate {A B C} (f : A → B → C) (g : nat → A) (v : B)
    (l : list nat) :
  zip_with f (g <$> l) (replicate (length l) v) = (λ i, f (g i) v) <$> l.
Proof. induction l as [|x l IH]; simpl; [done|]. f_equal. apply IH. Qed.

Lemma zip_with_fmap_fmap {A B C} (f : A → B → C) (g : nat → A) (h : nat → B)
    (l : list nat) :
  zip_with f (g <$> l) (h <$> l) = (λ i, f (g i) (h i)) <$> l.
Proof. induction l as [|x l IH]; simpl; [done|]. f_equal. apply IH. Qed.

End numpy_facts.

(** ** The synapse readers *)

Section reader_facts.
Import synapse_reader.

Variable Nd_dt : float.
Variable power : float → Z → float.
Variable uninitialized : nat → nat → float.

Ltac py_unfold :=
  unfold mbind, mret, Py_bind, Py_ret, py_bind, py_ret, get_state, put_state,
    modify, raise, synapse_reader.lift in *.

Lemma patch_delay_run {S} (a : recarray) (s : S) :
  _patch_delay_fp_inaccuracies Nd_dt a s = Ret (patched Nd_dt a) s.
Proof.
  unfold _patch_delay_fp_inaccuracies, patched.
  destruct (index_of (dtype_names a) "delay") as [j|] eqn:Hj.
  - case_bool_decide as Hlen; simpl.
    + done.
    + rewrite bool_decide_eq_true_2.
      2:{ apply index_of_Some in Hj. by eapply list_elem_of_lookup_2. }
      simpl. py_unfold. unfold getattr, setfield. rewrite Hj. simpl.
      rewrite bool_decide_eq_true_2; [done|].
      by rewrite length_fmap, length_column.
  - assert (Hnot : "delay"%string ∉ dtype_names a).
    { intros [j Hj']%index_of_elem_of. congruence. }
    rewrite (bool_decide_eq_false_2 _ Hnot). simpl.
    by rewrite orb_true_r.
Qed.

Lemma dtype_names_patched a : dtype_names (patched Nd_dt a) = dtype_names a.
Proof.
  unfold patched. destruct (index_of _ _); [|done]. by case_bool_decide.
Qed.

Lemma length_records_patched a :
  length (records (patched Nd_dt a)) = length (records a).
Proof.
  unfold patched. destruct (index_of _ _); [|done]. case_bool_decide; [done|].
  apply length_records_set_column. by rewrite length_fmap, length_column.
Qed.

Lemma well_shaped_patched a : well_shaped a → well_shaped (patched Nd_dt a).
Proof.
  intros H. unfold patched. destruct (index_of _ _); [|done].
  case_bool_decide; [done|]. by apply well_shaped_set_column.
Qed.


(** The other columns are as the backend returned them. *)
Lemma column_patched_other a j name :
  index_of (dtype_names a) name = Some j → name ≠ "delay"%string →
  column j (patched Nd_dt a) = column j a.
Proof.
  intros Hj Hne. unfold patched.
  destruct (index_of (dtype_names a) "delay") as [jd|] eqn:Hd; [|done].
  case_bool_decide; [done|]. apply column_set_column_ne.
  - intros ->. apply Hne. symmetry. by eapply index_of_inj.
  - by rewrite length_fmap, length_column.
Qed.

Local Abbreviation mul := (λ x k : float, (x * k)%float).

Lemma dtype_names_mul_field scale a v :
  dtype_names (mul_field scale a v) = dtype_names a.
Proof. unfold mul_field. by destruct (index_of _ _). Qed.

Lemma length_records_mul_field scale a v :
  length scale = length (records a) →
  length (records (mul_field scale a v)) = length (records a).
Proof.
  intros H. unfold mul_field. destruct (index_of _ _); [|done].
  apply length_records_set_column. rewrite length_zip_with, length_column. lia.
Qed.

Lemma well_shaped_mul_field scale a v :
  well_shaped a → well_shaped (mul_field scale a v).
Proof.
  intros H. unfold mul_field. destruct (index_of _ _); [|done].
  by apply well_shaped_set_column.
Qed.

Lemma imul_field_run {S} a name scale (missing : Exn) (s : S) :
  name ∈ dtype_names a → length scale = length (records a) →
  imul_field a name scale missing s = Ret (mul_field scale a name) s.
Proof.
  intros [j Hj]%index_of_elem_of Hlen. unfold imul_field, mul_field, setfield.
  rewrite Hj. py_unfold. rewrite bool_decide_eq_true_2; [done|].
  rewrite length_zip_with, length_column. lia.
Qed.

Lemma scale_extra_vars_run {S} extra scale : ∀ a (s : S),
  Forall (λ v, v ∈ dtype_names a) extra → length scale = length (records a) →
  scale_extra_vars a extra scale s = Ret (mul_fields extra scale a) s.
Proof.
  induction extra as [|v extra IH]; intros a s Hall Hlen; simpl; [done|].
  apply Forall_cons in Hall as [Hv Hall].
  py_unfold. rewrite imul_field_run by done. apply IH.
  - eapply Forall_impl; [exact Hall|]. intros x Hx. by rewrite dtype_names_mul_field.
  - by rewrite length_records_mul_field.
Qed.

(** A field that is named once among the scaled fields is multiplied
    once; the other fields are as they were. *)
Lemma column_mul_fields names scale v j : ∀ a,
  well_shaped a → length scale = length (records a) → NoDup names →
  index_of (dtype_names a) v = Some j →
  column j (mul_fields names scale a) =
  if bool_decide (v ∈ names) then zip_with mul (column j a) scale else column j a.
Proof.
  induction names as [|v0 names IH]; intros a Hws Hlen Hnd Hj; simpl.
  - done.
  - apply NoDup_cons in Hnd as [Hv0 Hnd].
    unfold mul_fields in *. simpl.
    rewrite IH; [|by apply well_shaped_mul_field|by rewrite length_records_mul_field
                 |done|by rewrite dtype_names_mul_field].
    destruct (decide (v = v0)) as [->|Hne].
    + rewrite (bool_decide_eq_false_2 _ Hv0).
      rewrite bool_decide_eq_true_2 by (by left).
      unfold mul_field. rewrite Hj.
      apply column_set_column; [done|by eapply index_of_lt|].
      rewrite length_zip_with, length_column. lia.
    + assert (Hcol : column j (mul_field scale a v0) = column j a).
      { unfold mul_field.
        destruct (index_of (dtype_names a) v0) as [j0|] eqn:Hj0; [|done].
        apply column_set_column_ne.
        - intros ->. apply Hne. by eapply index_of_inj.
        - rewrite length_zip_with, length_column. lia. }
      rewrite Hcol. case_bool_decide as Hin.
      * rewrite bool_decide_eq_true_2 by (by right). done.
      * rewrite bool_decide_eq_false_2; [done|].
        intros [?|?]%elem_of_cons; congruence.
Qed.

Lemma mul_fields_empty names scale a :
  records a = [] → mul_fields names scale a = a.
Proof.
  revert a. induction names as [|v names IH]; intros a Hr; [done|].
  unfold mul_fields in *. simpl.
  assert (Hv : mul_field scale a v = a).
  { unfold mul_field. destruct (index_of _ _); [|done].
    destruct a as [ns rs]. simpl in *. subst rs. done. }
  rewrite Hv. by apply IH.
Qed.

Lemma length_scale_factors_of y a :
  "u_hill_coefficient"%string ∈ dtype_names a →
  length (scale_factors_of power y a) = length (records a).
Proof.
  intros [j Hj]%index_of_elem_of. unfold scale_factors_of. rewrite Hj.
  by rewrite length_fmap, length_column.
Qed.

Lemma scale_U_param_run {S} a (ca : option float) extra (s : S) :
  "U"%string ∈ dtype_names a → "u_hill_coefficient"%string ∈ dtype_names a →
  Forall (λ v, v ∈ dtype_names a) extra →
  _scale_U_param power a ca extra s =
  Ret (match ca with
       | Some y => mul_fields ("U"%string :: extra) (scale_factors_of power y a) a
       | None => a
       end) s.
Proof.
  intros HU HK Hextra. unfold _scale_U_param.
  case_bool_decide as Hlen.
  - destruct ca; [|done]. rewrite mul_fields_empty; [done|].
    by destruct (records a).
  - destruct ca as [y|]; [|done].
    pose proof (length_scale_factors_of y a HK) as Hsc.
    pose proof HK as [j Hj]%index_of_elem_of.
    unfold scale_factors_of in *. rewrite Hj in *.
    py_unfold. unfold getattr. rewrite Hj. simpl.
    rewrite imul_field_run by done.
    rewrite scale_extra_vars_run; [done| |by rewrite length_records_mul_field].
    eapply Forall_impl; [exact Hextra|]. intros x Hx.
    by rewrite dtype_names_mul_field.
Qed.

(** What [get_synapse_parameters] does with the records [raw] that the
    backend returns for a gid it has not cached. *)
Lemma get_synapse_parameters_run {B} `{Subclass B} gid
    (r r1 : SynapseReader B) (raw : recarray) :
  dict_get (_syn_params r) gid = None →
  _load_synapse_parameters gid r = Ret raw r1 →
  (_uhill_property_avail r1 = true → is_Some (_ca_concentration r1) →
   "U"%string ∈ dtype_names raw ∧ "u_hill_coefficient"%string ∈ dtype_names raw ∧
   Forall (λ v, v ∈ dtype_names raw) (_extra_scale_vars r1)) →
  let res := normalized Nd_dt power (_uhill_property_avail r1) (_ca_concentration r1)
               (_extra_scale_vars r1) raw in
  get_synapse_parameters Nd_dt power gid r =
  Ret res (set_syn_params (dict_set (_syn_params r1) gid res) r1).
Proof.
  intros Hcache Hload Hfields res. unfold get_synapse_parameters.
  py_unfold. rewrite Hcache, Hload. rewrite patch_delay_run.
  unfold res, normalized.
  destruct (_uhill_property_avail r1) eqn:Havail; [|done].
  destruct (_ca_concentration r1) as [y|] eqn:Hca.
  - destruct Hfields as (HU & HK & Hextra); [done|eauto|].
    rewrite scale_U_param_run; [done|by rewrite dtype_names_patched..|].
    eapply Forall_impl; [exact Hextra|]. intros x Hx.
    by rewrite dtype_names_patched.
  - unfold _scale_U_param. case_bool_decide; done.
Qed.






Lemma dict_get_set {K V} `{EqDecision K} (d : list (K * V)) (k : K) (v : V) :
  dict_get (dict_set d k v) k = Some v.
Proof.
  induction d as [|[k' v'] d IH]; simpl.
  - by rewrite bool_decide_eq_true_2.
  - case_bool_decide as Hk; simpl.
    + by rewrite bool_decide_eq_true_2.
    + by rewrite bool_decide_eq_false_2.
Qed.


(** *** What the legacy reader loads *)

Lemma set_column_replicate {A} (g : A → list float) (l : list A) names j v :
  set_column j (replicate (length (g <$> l)) v)
    {| dtype_names := names; records := g <$> l |} =
  {| dtype_names := names; records := (λ i, <[j := v]> (g i)) <$> l |}.
Proof.
  unfold set_column. simpl. f_equal. rewrite length_fmap.
  induction l as [|x l IH]; simpl; [done|]. f_equal. apply IH.
Qed.

Lemma index_of_conductance_ratio :
  index_of _synapse_fields "conductance_ratio" = Some 13%nat.
Proof. reflexivity. Qed.

Lemma index_of_maskValue : index_of _synapse_fields "maskValue" = Some 14%nat.
Proof. reflexivity. Qed.

Lemma index_of_location : index_of _synapse_fields "location" = Some 15%nat.
Proof. reflexivity. Qed.

Lemma create_array_synapse_fields {S} (n : nat) (s : S) :
  create_array uninitialized _synapse_fields n s =
  Ret {| dtype_names := _synapse_fields;
         records := (λ i, [uninitialized i 0%nat; uninitialized i 1%nat;
                           uninitialized i 2%nat; uninitialized i 3%nat;
                           uninitialized i 4%nat; uninitialized i 5%nat;
                           uninitialized i 6%nat; uninitialized i 7%nat;
                           uninitialized i 8%nat; uninitialized i 9%nat;
                           uninitialized i 10%nat; uninitialized i 11%nat;
                           uninitialized i 12%nat; (-1)%float; (-1)%float;
                           0.5%float]) <$> seq 0 n |} s.
Proof.
  unfold create_array, np_recarray, setfield_scalar. py_unfold.
  cbn [dtype_names records].
  rewrite index_of_conductance_ratio, set_column_replicate.
  py_unfold. cbv beta iota. cbn [dtype_names records].
  rewrite index_of_maskValue, set_column_replicate.
  py_unfold. cbv beta iota. cbn [dtype_names records].
  rewrite index_of_location, set_column_replicate.
  reflexivity.
Qed.

Lemma SynReaderNRN_fill_row_alter reader gid has_nrrp a i :
  SynReaderNRN_fill_row reader gid has_nrrp a i =
  {| dtype_names := dtype_names a;
     records := alter (fill reader gid has_nrrp i) i (records a) |}.
Proof.
  unfold SynReaderNRN_fill_row, setitem. cbn [records dtype_names].
  by rewrite !list_alter_alter_eq.
Qed.

Lemma foldl_fill_rows reader gid has_nrrp names (m : nat) : ∀ (k : nat) rows,
  foldl (SynReaderNRN_fill_row reader gid has_nrrp)
    {| dtype_names := names; records := rows |} (seq k m) =
  {| dtype_names := names;
     records := imap (λ i r, if bool_decide (k ≤ i < k + m)%nat
                             then fill reader gid has_nrrp i r else r) rows |}.
Proof.
  induction m as [|m IH]; intros k rows; simpl.
  - f_equal. apply list_eq. intros i. rewrite list_lookup_imap.
    destruct (rows !! i); simpl; [|done].
    by rewrite bool_decide_eq_false_2 by lia.
  - rewrite SynReaderNRN_fill_row_alter. cbn [records dtype_names].
    rewrite IH. f_equal. apply list_eq. intros i.
    rewrite !list_lookup_imap.
    destruct (decide (k = i)) as [->|Hne].
    + rewrite list_lookup_alter_eq. destruct (rows !! i); simpl; [|done].
      rewrite bool_decide_eq_false_2 by lia.
      by rewrite bool_decide_eq_true_2 by lia.
    + rewrite list_lookup_alter_ne by done. destruct (rows !! i); simpl; [|done].
      f_equal. case_bool_decide; case_bool_decide; try done; lia.
Qed.

Lemma imap_fmap_seq {A B} (f : nat → A → B) (g : nat → A) (n : nat) :
  imap f (g <$> seq 0 n) = (λ i, f i (g i)) <$> seq 0 n.
Proof.
  apply list_eq. intros i. rewrite list_lookup_imap, !list_lookup_fmap.
  destruct (decide (i < n)%nat) as [Hlt|Hge].
  - by rewrite lookup_seq_lt by done.
  - by rewrite lookup_seq_ge by lia.
Qed.

(** The legacy reader returns one record per row of the dataset, each
    with the sentinel -1 for [u_hill_coefficient] and
    [conductance_ratio], and leaves the reader as it was. *)
Lemma SynReaderNRN_load_run (gid : Z) (r : SynapseReader SynReaderNRN) :
  SynReaderNRN_load_synapse_parameters uninitialized gid r =
  Ret {| dtype_names := _synapse_fields;
         records := SynReaderNRN_row (_syn_reader (self r)) gid
                      (SynReaderNRN_has_nrrp r)
                      <$> seq 0 (SynReaderNRN_nrow (self r) gid) |} r.
Proof.
  unfold SynReaderNRN_load_synapse_parameters, SynReaderNRN_nrow. py_unfold.
  cbv zeta.
  set (ret := if bool_decide (_n_synapse_files (self r) > 1)
              then loadData_gid (_syn_reader (self r)) gid
              else loadData_name (_syn_reader (self r)) gid).
  destruct (bool_decide (ret < 0)); [done|].
  case_bool_decide as Hrow; [by rewrite Hrow|].
  rewrite create_array_synapse_fields.
  rewrite foldl_fill_rows, imap_fmap_seq. do 2 f_equal.
  apply list_fmap_ext. intros i x Hx.
  apply lookup_seq in Hx as [-> Hlt].
  rewrite bool_decide_eq_true_2 by lia. done.
Qed.

Lemma column_fmap {A} (f : A → list float) (l : list A) names j :
  column j {| dtype_names := names; records := f <$> l |} =
  (λ x, default 0%float (f x !! j)) <$> l.
Proof. unfold column. simpl. by rewrite <- list_fmap_compose. Qed.

Lemma fmap_const_seq {A} (v : A) (k n : nat) :
  (λ _, v) <$> seq k n = replicate n v.
Proof. revert k. induction n as [|n IH]; intros k; simpl; [done|]. by rewrite IH. Qed.

Lemma dict_get_set_ne {K V} `{EqDecision K} (d : list (K * V)) (k k' : K) (v : V) :
  k ≠ k' → dict_get (dict_set d k v) k' = dict_get d k'.
Proof.
  intros Hne. induction d as [|[k0 v0] d IH]; simpl.
  - by rewrite bool_decide_eq_false_2.
  - destruct (decide (k0 = k)) as [->|Hk].
    + rewrite bool_decide_eq_true_2 by done. simpl.
      by rewrite bool_decide_eq_false_2.
    + rewrite (bool_decide_eq_false_2 _ Hk). simpl.
      destruct (bool_decide (k0 = k')); [done|apply IH].
Qed.

Abbreviation NRN := (SynReaderNRN_Subclass uninitialized).

Lemma legacy_records_loaded (r : SynapseReader SynReaderNRN) (gid : Z) :
  legacy_records (self r) gid
    (patched Nd_dt
       {| dtype_names := _synapse_fields;
          records := SynReaderNRN_row (_syn_reader (self r)) gid
                       (SynReaderNRN_has_nrrp r)
                       <$> seq 0 (SynReaderNRN_nrow (self r) gid) |}).
Proof.
  unfold legacy_records, getattr. cbv zeta. rewrite dtype_names_patched.
  cbn [dtype_names].
  change (index_of _synapse_fields "U") with (Some 6%nat).
  change (index_of _synapse_fields "u_hill_coefficient") with (Some 12%nat).
  change (index_of _synapse_fields "conductance_ratio") with (Some 13%nat).
  cbv beta iota.
  rewrite (column_patched_other _ 6 "U"), (column_patched_other _ 12 "u_hill_coefficient"),
    (column_patched_other _ 13 "conductance_ratio"); try done.
  rewrite !column_fmap.
  split_and!; [done|..]; f_equal; exact (fmap_const_seq (-1)%float 0 _).
Qed.

(** C10.  [SynReaderNRN.has_property] returns False for every field name
    (and logs a warning); the constructor therefore leaves
    [_uhill_property_avail] False whatever concentration is configured;
    and every call of [get_synapse_parameters] on a legacy reader
    returns records whose [U] is the value read from the file, not
    scaled, and whose [u_hill_coefficient] and [conductance_ratio] are
    the sentinel -1, leaving a legacy reader. *)
Theorem legacy_reader_never_scales :
  (∀ (field_name : string) (r : SynapseReader SynReaderNRN),
     has_property (Subclass := NRN) field_name r =
     Ret false
       (set_logs (logs r ++ [Log WARNING
          "has_property() without SynapseReader returns always False" []]) r)) ∧
  (∀ (hdf5 : HDF5Reader) (conn_type : Z) (n_synapse_files : option Z)
     (extracellular_calcium : option float),
     ∃ r, SynReaderNRN_init uninitialized true hdf5 conn_type None n_synapse_files
            extracellular_calcium = inr r ∧
          _ca_concentration r = extracellular_calcium ∧
          _uhill_property_avail r = false ∧
          legacy_reader r) ∧
  (∀ (r : SynapseReader SynReaderNRN) (gid : Z),
     legacy_reader r →
     ∃ res r', get_synapse_parameters (backend := NRN) Nd_dt power gid r = Ret res r' ∧
               legacy_records (self r) gid res ∧
               self r' = self r ∧ _ca_concentration r' = _ca_concentration r ∧
               legacy_reader r').
Proof.
  split_and!.
  - done.
  - intros. eexists. split; [reflexivity|]. split_and!; try done.
  - intros r gid [Havail Hcache].
    destruct (dict_get (_syn_params r) gid) as [a|] eqn:Hget.
    + exists a, r. split_and!; try done.
      * unfold get_synapse_parameters. py_unfold. by rewrite Hget.
      * by apply Hcache.
    + eexists _, _. split.
      * apply get_synapse_parameters_run; [done|apply SynReaderNRN_load_run|].
        intros Hyes. congruence.
      * rewrite Havail. unfold normalized. cbv zeta.
        split_and!; try done; [apply legacy_records_loaded|].
        split; [done|]. intros gid' a'. cbn [_syn_params set_syn_params self].
        destruct (decide (gid = gid')) as [<-|Hne].
        -- rewrite dict_get_set. intros [= <-]. apply legacy_records_loaded.
        -- rewrite dict_get_set_ne by done. apply Hcache.
Qed.






(** *** The cache of the readers *)

Lemma imul_field_pure {S} a name scale (missing : Exn) (s : S) :
  ∃ x, imul_field a name scale missing s = lift x s.
Proof.
  unfold imul_field. destruct (index_of (dtype_names a) name).
  - by eexists.
  - by exists (inl missing).
Qed.

Lemma scale_extra_vars_pure {S} extra scale : ∀ a (s : S),
  ∃ x, scale_extra_vars a extra scale s = lift x s.
Proof.
  induction extra as [|v extra IH]; intros a s; simpl.
  - by exists (inr a).
  - py_unfold. destruct (imul_field_pure a v scale ValueError s) as [[e|a'] ->].
    + by exists (inl e).
    + simpl. py_unfold. apply IH.
Qed.

Lemma scale_U_param_pure {S} a ca extra (s : S) :
  ∃ x, _scale_U_param power a ca extra s = lift x s.
Proof.
  unfold _scale_U_param. case_bool_decide; [by exists (inr a)|].
  destruct ca as [y|]; [|by exists (inr a)].
  py_unfold. destruct (getattr a "u_hill_coefficient") as [e|K]; [by exists (inl e)|].
  simpl.
  destruct (imul_field_pure a "U" ((λ k, _constrained_hill power k y) <$> K)
              AttributeError s) as [[e|a'] ->].
  - by exists (inl e).
  - simpl. py_unfold. apply scale_extra_vars_pure.
Qed.

(** A reader patches and scales the records of a gid once.  When
    [get_synapse_parameters] has returned the records of a gid, they are
    in the cache, and every later call for that gid returns the same
    records without touching them or the reader again, for either
    backend. *)
Theorem reader_get_synapse_parameters_once {B} `{Subclass B} (gid : Z)
    (r r' : SynapseReader B) (a : recarray) :
  get_synapse_parameters Nd_dt power gid r = Ret a r' →
  dict_get (_syn_params r') gid = Some a ∧
  get_synapse_parameters Nd_dt power gid r' = Ret a r'.
Proof.
  intros Hrun.
  assert (Hc : dict_get (_syn_params r') gid = Some a).
  { revert Hrun. unfold get_synapse_parameters. py_unfold.
    destruct (dict_get (_syn_params r) gid) as [c|] eqn:Hc.
    - by intros [= <- <-].
    - destruct (_load_synapse_parameters gid r) as [raw r1|e r1|]; [|done..].
      rewrite patch_delay_run. py_unfold.
      destruct (_uhill_property_avail r1).
      + destruct (scale_U_param_pure (patched Nd_dt raw) (_ca_concentration r1)
                    (_extra_scale_vars r1) r1) as [[e|a'] ->]; [done|].
        simpl. py_unfold. intros [= <- <-]. simpl. apply dict_get_set.
      + intros [= <- <-]. simpl. apply dict_get_set. }
  split; [done|].
  unfold get_synapse_parameters. py_unfold. by rewrite Hc.
Qed.

(** *** Fields named more than once *)


(** *** What the correction of the delay leaves alone *)

(** [_patch_delay_fp_inaccuracies] never raises and changes nothing but
    the [delay] field: the field names, the number of records and the
    values of every other field are those of the array it was given. *)
Theorem patch_delay_touches_delay_only {S} (a : recarray) (s : S) :
  ∃ a', _patch_delay_fp_inaccuracies Nd_dt a s = Ret a' s ∧
        dtype_names a' = dtype_names a ∧
        length (records a') = length (records a) ∧
        (well_shaped a → well_shaped a') ∧
        ∀ name, name ≠ "delay"%string → getfield a' name = getfield a name.
Proof.
  exists (patched Nd_dt a). split_and!.
  - apply patch_delay_run.
  - apply dtype_names_patched.
  - apply length_records_patched.
  - apply well_shaped_patched.
  - intros name Hne. unfold getfield. rewrite dtype_names_patched.
    destruct (index_of (dtype_names a) name) as [j|] eqn:Hj; [|done].
    by rewrite (column_patched_other a j name).
Qed.

(** *** The records of the legacy reader *)

(** What a legacy reader returns for a gid it has not cached.  There is
    one record per row of the dataset, none when the file has no dataset
    for the gid; record [i] holds the columns 0, 1, 2, 3, 4, 8, 9, 10,
    11, 12 and 13 of dataset row [i], with the delay corrected, then
    [nrrp] (column 17, or -1 for a file of version 4 or older), the
    sentinel -1 in [u_hill_coefficient], [conductance_ratio] and
    [maskValue], and 0.5 in [location].  No value of a fresh array
    shows through, and the records are cached under the gid. *)
Theorem legacy_reader_rows (r : SynapseReader SynReaderNRN) (gid : Z) :
  dict_get (_syn_params r) gid = None →
  _uhill_property_avail r = false →
  let reader := _syn_reader (self r) in
  let res :=
    {| dtype_names := _synapse_fields;
       records :=
         (λ i, [getData reader gid i 0;
                (float_of_int (astype_i4 (getData reader gid i 1 / Nd_dt + 1e-5))
                 * Nd_dt)%float;
                getData reader gid i 2; getData reader gid i 3;
                getData reader gid i 4; getData reader gid i 8;
                getData reader gid i 9; getData reader gid i 10;
                getData reader gid i 11; getData reader gid i 12;
                getData reader gid i 13;
                if bool_decide (nrn_version (self r) > 4)
                then getData reader gid i 17 else (-1)%float;
                (-1)%float; (-1)%float; (-1)%float; 0.5%float])
         <$> seq 0 (if bool_decide
                         ((if bool_decide (_n_synapse_files (self r) > 1)
                           then loadData_gid reader gid
                           else loadData_name reader gid) < 0)
                    then 0%nat else numberofrows reader gid) |} in
  get_synapse_parameters (backend := NRN) Nd_dt power gid r =
  Ret res (set_syn_params (dict_set (_syn_params r) gid res) r).
Proof.
  intros Hmiss Havail reader res.
  rewrite (get_synapse_parameters_run (H := NRN) gid r r _ Hmiss
             (SynReaderNRN_load_run gid r)) by (by rewrite Havail).
  rewrite Havail.
  assert (Hres : normalized Nd_dt power false (_ca_concentration r)
                   (_extra_scale_vars r)
                   {| dtype_names := _synapse_fields;
                      records := SynReaderNRN_row (_syn_reader (self r)) gid
                                   (SynReaderNRN_has_nrrp r)
                                   <$> seq 0 (SynReaderNRN_nrow (self r) gid) |} = res).
  { unfold normalized, patched. cbn [dtype_names records].
    change (index_of _synapse_fields "delay") with (Some 1%nat). cbv beta iota.
    unfold res, SynReaderNRN_nrow. fold reader.
    set (n := if bool_decide _ then 0%nat else numberofrows reader gid).
    case_bool_decide as Hn.
    - rewrite length_fmap, length_seq in Hn. by rewrite Hn.
    - unfold set_column. cbn [dtype_names records]. f_equal.
      rewrite column_fmap, <- list_fmap_compose, zip_with_fmap_fmap. done. }
  by rewrite Hres.
Qed.

(** *** The records of the SONATA reader *)

Lemma getfield_set_column a j nm col :
  well_shaped a → index_of (dtype_names a) nm = Some j →
  length col = length (records a) →
  getfield (set_column j col a) nm = inr col.
Proof.
  intros Hws Hj Hlen. unfold getfield. rewrite dtype_names_set_column, Hj.
  rewrite column_set_column; [done|done| |done]. by eapply index_of_lt.
Qed.

Lemma getfield_set_column_ne a j nm nm' col :
  index_of (dtype_names a) nm = Some j → nm ≠ nm' →
  length col = length (records a) →
  getfield (set_column j col a) nm' = getfield a nm'.
Proof.
  intros Hj Hne Hlen. unfold getfield. rewrite dtype_names_set_column.
  destruct (index_of (dtype_names a) nm') as [j'|] eqn:Hj'; [|done].
  rewrite column_set_column_ne; [done| |done].
  intros ->. apply Hne. by eapply index_of_inj.
Qed.

Lemma copy_fields_run {S} (data : list (string * list float)) names : ∀ a (s : S),
  well_shaped a → NoDup names →
  Forall (λ nm, nm ∈ dtype_names a ∧
                ∃ col, dict_get data nm = Some col ∧
                       length col = length (records a)) names →
  ∃ a', copy_fields data names a s = Ret a' s ∧
        dtype_names a' = dtype_names a ∧
        length (records a') = length (records a) ∧
        well_shaped a' ∧
        (∀ nm col, nm ∈ names → dict_get data nm = Some col →
                   getfield a' nm = inr col) ∧
        (∀ nm, nm ∉ names → getfield a' nm = getfield a nm).
Proof.
  induction names as [|nm0 names IH]; intros a s Hws Hnd Hall.
  - exists a. split_and!; try done. by intros nm col ?%elem_of_nil.
  - apply NoDup_cons in Hnd as [Hnotin Hnd].
    apply Forall_cons in Hall as [(Hin & col0 & Hget & Hlen) Hall].
    destruct (index_of_elem_of _ _ Hin) as [j Hj].
    set (a1 := set_column j col0 a).
    destruct (IH a1 s) as (a' & Hrun & Hnames & Hlen' & Hws' & Hcopied & Hkept).
    + by apply well_shaped_set_column.
    + done.
    + eapply Forall_impl; [exact Hall|]. intros nm (Hnm & col & Hc & Hl).
      unfold a1. rewrite dtype_names_set_column, length_records_set_column by done.
      eauto.
    + exists a'. split_and!.
      * simpl. rewrite Hget. py_unfold. unfold setfield. rewrite Hj.
        rewrite bool_decide_eq_true_2 by done. exact Hrun.
      * by rewrite Hnames.
      * rewrite Hlen'. by apply length_records_set_column.
      * done.
      * intros nm col [->|Hnm]%elem_of_cons Hc.
        -- rewrite Hkept by done. rewrite Hget in Hc. injection Hc as <-.
           by apply getfield_set_column.
        -- by apply Hcopied.
      * intros nm [Hne Hnm]%not_elem_of_cons. rewrite Hkept by done.
        by apply (getfield_set_column_ne a j nm0).
Qed.

Lemma copy_fields_cons {S} (data : list (string * list float)) nm names a col (s : S) :
  dict_get data nm = Some col →
  copy_fields data (nm :: names) a s =
  match setfield a nm col with
  | inl e => Raise e s
  | inr a1 => copy_fields data names a1 s
  end.
Proof.
  intros Hget. simpl. rewrite Hget. py_unfold. by destruct (setfield a nm col).
Qed.

Lemma well_shaped_fresh_array (n : nat) :
  well_shaped
    {| dtype_names := _synapse_fields;
       records := (λ i, [uninitialized i 0%nat; uninitialized i 1%nat;
                         uninitialized i 2%nat; uninitialized i 3%nat;
                         uninitialized i 4%nat; uninitialized i 5%nat;
                         uninitialized i 6%nat; uninitialized i 7%nat;
                         uninitialized i 8%nat; uninitialized i 9%nat;
                         uninitialized i 10%nat; uninitialized i 11%nat;
                         uninitialized i 12%nat; (-1)%float; (-1)%float;
                         0.5%float]) <$> seq 0 n |}.
Proof.
  unfold well_shaped. cbn [dtype_names records].
  apply Forall_fmap, Forall_forall. by intros i _.
Qed.

(** What the SONATA reader builds from the columns it has preloaded for
    a gid.  When [self._data] holds, for the gid, one column of the same
    length for each of the fourteen fields from [sgid] to
    [conductance_ratio], and no extra field is configured,
    [_load_synapse_parameters] returns normally without reading the
    file: the array has the sixteen standard fields and one record per
    synapse, each of the fourteen fields is the preloaded column, and
    [maskValue] and [location] keep the defaults -1 and 0.5 of
    [create_array]. *)
Theorem sonata_reader_rows
    (preload : list Z → Py (SynapseReader SonataReader) unit)
    (r : SynapseReader SonataReader) (gid : Z)
    (data : list (string * list float)) (cols : string → list float) (n : nat) :
  dict_get (_data (self r)) gid = Some data →
  _extra_fields r = [] →
  (∀ nm, nm ∈ ["sgid"; "delay"; "isec"; "ipt"; "offset"; "weight"; "U"; "D"; "F";
               "DTC"; "synType"; "nrrp"; "u_hill_coefficient";
               "conductance_ratio"]%string →
         dict_get data nm = Some (cols nm) ∧ length (cols nm) = n) →
  ∃ a, _load_synapse_parameters
         (Subclass := SonataReader_Subclass uninitialized preload) gid r = Ret a r ∧
       dtype_names a = _synapse_fields ∧
       length (records a) = n ∧
       well_shaped a ∧
       (∀ nm, nm ∈ ["sgid"; "delay"; "isec"; "ipt"; "offset"; "weight"; "U"; "D";
                    "F"; "DTC"; "synType"; "nrrp"; "u_hill_coefficient";
                    "conductance_ratio"]%string →
              getfield a nm = inr (cols nm)) ∧
       getfield a "maskValue" = inr (replicate n (-1)%float) ∧
       getfield a "location" = inr (replicate n 0.5%float).
Proof.
  intros Hdata Hextra Hcols.
  set (names := ["sgid"; "delay"; "isec"; "ipt"; "offset"; "weight"; "U"; "D"; "F";
                 "DTC"; "synType"; "nrrp"; "u_hill_coefficient";
                 "conductance_ratio"]%string) in *.
  set (a0 := {| dtype_names := _synapse_fields;
                records := (λ i, [uninitialized i 0%nat; uninitialized i 1%nat;
                                  uninitialized i 2%nat; uninitialized i 3%nat;
                                  uninitialized i 4%nat; uninitialized i 5%nat;
                                  uninitialized i 6%nat; uninitialized i 7%nat;
                                  uninitialized i 8%nat; uninitialized i 9%nat;
                                  uninitialized i 10%nat; uninitialized i 11%nat;
                                  uninitialized i 12%nat; (-1)%float; (-1)%float;
                                  0.5%float]) <$> seq 0 n |}).
  assert (Hlen0 : length (records a0) = n).
  { unfold a0. cbn [records]. by rewrite length_fmap, length_seq. }
  destruct (copy_fields_run (S := SynapseReader SonataReader) data names a0 r)
    as (a & Hrun & Hnames & Hlen & Hws & Hcopied & Hkept).
  { apply well_shaped_fresh_array. }
  { apply (bool_decide_unpack _). by vm_compute. }
  { apply Forall_forall. intros nm Hnm. split.
    - revert nm Hnm. apply Forall_forall.
      repeat constructor; apply (bool_decide_unpack _); by vm_compute.
    - exists (cols nm). rewrite Hlen0. by apply Hcols. }
  exists a. split_and!.
  - cbn [_load_synapse_parameters SonataReader_Subclass].
    unfold SonataReader_load_synapse_parameters. py_unfold.
    rewrite Hdata. rewrite bool_decide_eq_true_2 by eauto. cbv beta iota.
    rewrite Hdata.
    destruct (Hcols "sgid"%string) as [Hsgid Hlsgid]; [by left|].
    rewrite Hsgid, Hextra, Hlsgid. rewrite create_array_synapse_fields.
    fold a0. unfold names in Hrun. rewrite (copy_fields_cons _ _ _ _ _ _ Hsgid) in Hrun.
    destruct (setfield a0 "sgid" (cols "sgid")) as [e|a1]; [done|].
    unfold mret, Py_ret, py_ret. cbv beta iota.
    change (slice_1_m2 _synapse_fields)
      with ["delay"; "isec"; "ipt"; "offset"; "weight"; "U"; "D"; "F";
            "DTC"; "synType"; "nrrp"; "u_hill_coefficient";
            "conductance_ratio"]%string.
    by rewrite Hrun.
  - by rewrite Hnames.
  - by rewrite Hlen.
  - done.
  - intros nm Hnm. apply Hcopied; [done|]. by apply Hcols.
  - rewrite Hkept by (apply (bool_decide_unpack _); by vm_compute).
    unfold getfield, a0. cbn [dtype_names].
    change (index_of _synapse_fields "maskValue") with (Some 14%nat).
    cbv beta iota. rewrite column_fmap. f_equal.
    exact (fmap_const_seq (-1)%float 0 n).
  - rewrite Hkept by (apply (bool_decide_unpack _); by vm_compute).
    unfold getfield, a0. cbn [dtype_names].
    change (index_of _synapse_fields "location") with (Some 15%nat).
    cbv beta iota. rewrite column_fmap. f_equal.
    exact (fmap_const_seq 0.5%float 0 n).
Qed.

End reader_facts.

Section reader_witnesses.
Import synapse_reader reader_examples.

Abbreviation NRN' := (SynReaderNRN_Subclass zeros).
Abbreviation Sonata' := (SonataReader_Subclass zeros (λ _, mret tt)).


Lemma sonata_loads_raw :
  _load_synapse_parameters (Subclass := Sonata') 10 sonata_reader =
  Ret sonata_raw sonata_reader.
Proof. reflexivity. Qed.





Lemma reader_get_synapse_parameters_once_witness :
  ∃ a r',
    get_synapse_parameters (backend := Sonata') 0.25%float power 10 sonata_reader
      = Ret a r' ∧
    dict_get (_syn_params r') 10 = Some a ∧
    get_synapse_parameters (backend := Sonata') 0.25%float power 10 r' = Ret a r'.
Proof.
  eexists _, _. split; [by vm_compute|].
  apply (reader_get_synapse_parameters_once 0.25%float power (H := Sonata') 10
           sonata_reader).
  by vm_compute.
Defined.


Lemma legacy_reader_rows_witness :
  ∃ res r',
    get_synapse_parameters (backend := NRN') 0.25%float power 10 nrn_reader
      = Ret res r' ∧
    records res =
      [[1; 0.75; 0; 0; 0; 0; 0.5; 0; 0; 0; 0; 0; -1; -1; -1; 0.5];
       [2; 0.75; 0; 0; 0; 0; 0.5; 0; 0; 0; 0; 0; -1; -1; -1; 0.5];
       [1; 0.75; 0; 0; 0; 0; 0.5; 0; 0; 0; 0; 0; -1; -1; -1; 0.5]]%float ∧
    dict_get (_syn_params r') 10 = Some res.
Proof.
  eexists _, _. split.
  - apply (legacy_reader_rows 0.25%float power zeros nrn_reader 10); reflexivity.
  - split; by vm_compute.
Defined.

Lemma sonata_reader_rows_witness :
  ∃ a, _load_synapse_parameters (Subclass := Sonata') 10 sonata_reader
         = Ret a sonata_reader ∧
       dtype_names a = _synapse_fields ∧
       length (records a) = 2%nat ∧
       well_shaped a ∧
       (∀ nm, nm ∈ ["sgid"; "delay"; "isec"; "ipt"; "offset"; "weight"; "U"; "D";
                    "F"; "DTC"; "synType"; "nrrp"; "u_hill_coefficient";
                    "conductance_ratio"]%string →
              getfield a nm = inr (default [] (dict_get sonata_columns nm))) ∧
       getfield a "maskValue" = inr (replicate 2 (-1)%float) ∧
       getfield a "location" = inr (replicate 2 0.5%float).
Proof.
  apply (sonata_reader_rows zeros (λ _, mret tt) sonata_reader 10 sonata_columns
           (λ nm, default [] (dict_get sonata_columns nm)) 2).
  - reflexivity.
  - reflexivity.
  - apply Forall_forall. repeat constructor.
Defined.

End reader_witnesses.
